(** * mgs1-controller: the input translation engine, embedded and verified

    The repository holds two variants of one program ([src/main.go], two
    [package main] texts).  Variant A merges the analog stick through a
    per-direction repeat state machine ([handleAnalogDirection]); variant B
    recomputes a direction bit mask on every tick
    ([handleDirectionalInputs]).  Both keep the set of held keys in
    [pressedKeys] and talk to the operating system through
    [robotgo.KeyDown] / [robotgo.KeyUp].

    Embedding.
    - The Go map [map[string]bool] is a [gmap string bool]; indexing a
      missing key yields the zero value ([index]).
    - Calls to the outside world (robotgo, SDL, osascript, log) are
      recorded as [Event]s by a state-and-output monad [M].
    - Everything the program reads from the outside world is an input of
      the model: the controller snapshot, the pending SDL events, the clock
      readings, and the order in which Go's [range] visits a map.
    - [time.Time] is an integer count of nanoseconds on one time line
      (wall clock and monotonic clock agree); [Time.Sub] saturates like
      Go's.
    - The sleep at the end of a pass ([time.Sleep], [sdl.Delay]) changes
      no state and makes no call: it only shows in the clock readings of
      the next pass. *)

From Stdlib Require Import ZArith Lia.
From stdpp Require Import gmap strings list fin_maps.

Local Open Scope string_scope.
Local Open Scope list_scope.
Local Open Scope Z_scope.

(** ** Calls to the outside world *)

Inductive Event : Type :=
  | KeyDown (key : string)          (* robotgo.KeyDown(key) *)
  | KeyUp (key : string)            (* robotgo.KeyUp(key) *)
  | SdlInit                         (* sdl.Init(sdl.INIT_GAMECONTROLLER) *)
  | NumJoysticks                    (* sdl.NumJoysticks() *)
  | GameControllerOpen              (* sdl.GameControllerOpen(0) *)
  | ControllerClose                 (* cm.controller.Close() *)
  | SdlQuit                         (* sdl.Quit() *)
  | ShowAlert (message : string)    (* osascript display alert *)
  | Printf (text : string)          (* fmt.Printf / fmt.Println, less the newline *)
  | LogFatal (message : string).    (* log.Fatalf: print, then os.Exit(1) *)

#[global] Instance Event_eq_dec : EqDecision Event.
Proof. solve_decision. Defined.

(** The key an emitter call is about. *)
Definition eventKey (e : Event) : option string :=
  match e with
  | KeyDown k | KeyUp k => Some k
  | _ => None
  end.

(** ** The state-and-output monad *)

Definition M (S A : Type) : Type := S → A * S * list Event.

#[global] Instance M_ret {S} : MRet (M S) := λ A a s, (a, s, []).
#[global] Instance M_bind {S} : MBind (M S) := λ A B f c s,
  let '(a, s1, out1) := c s in
  let '(b, s2, out2) := f a s1 in
  (b, s2, out1 ++ out2).

Definition get {S} : M S S := λ s, (s, s, []).
Definition modify {S} (f : S → S) : M S unit := λ s, (tt, f s, []).
Definition emit {S} (e : Event) : M S unit := λ s, (tt, s, [e]).

(** Result, final state and calls of a computation run on [s]. *)
Definition resultOf {S A} (c : M S A) (s : S) : A := (c s).1.1.
Definition stateOf {S A} (c : M S A) (s : S) : S := (c s).1.2.
Definition callsOf {S A} (c : M S A) (s : S) : list Event := (c s).2.
Definition exec {S A} (c : M S A) (s : S) : S * list Event :=
  (stateOf c s, callsOf c s).

(** [for _, a := range order { body a }] over an already ordered sequence. *)
Fixpoint forEach {S A} (body : A → M S unit) (order : list A) : M S unit :=
  match order with
  | [] => mret tt
  | a :: rest => body a ;; forEach body rest
  end.

(** ** Go maps *)

(** [m[key]] on a [map[string]bool]: the zero value [false] when missing. *)
Definition index (m : gmap string bool) (key : string) : bool :=
  default false (m !! key).

(** ** What the program reads *)

(** SDL's enumerations (SDL_gamecontroller.h), which are not part of the
    repository: button and axis numbers of the game controller API. *)
Definition CONTROLLER_BUTTON_DPAD_UP : Z := 11.
Definition CONTROLLER_BUTTON_DPAD_DOWN : Z := 12.
Definition CONTROLLER_BUTTON_DPAD_LEFT : Z := 13.
Definition CONTROLLER_BUTTON_DPAD_RIGHT : Z := 14.
Definition CONTROLLER_AXIS_LEFTX : Z := 0.
Definition CONTROLLER_AXIS_LEFTY : Z := 1.

(** One tick's raw input: [controller.Button(i)] (a byte, 1 when pressed)
    and [controller.Axis(i)] (an int16). *)
Record Snapshot : Type := {
  Button : Z → Z;
  Axis : Z → Z
}.

Inductive SdlEvent : Type := QuitEvent | OtherEvent.

Definition isQuit (e : SdlEvent) : bool :=
  match e with QuitEvent => true | OtherEvent => false end.

(** ** time *)

Definition Millisecond : Z := 1000000.
Definition maxDuration : Z := 2 ^ 63 - 1.
Definition minDuration : Z := - 2 ^ 63.

(** [t.Sub(u)]: the difference, clamped to the range of a Duration. *)
Definition timeSub (t u : Z) : Z :=
  Z.max minDuration (Z.min maxDuration (t - u)).

(** [t.Add(d)]. *)
Definition timeAdd (t d : Z) : Z := t + d.

(** The zero [time.Time], read from a map that has no entry. *)
Definition zeroTime : Z := 0.

(** ** Keys: [pressKey] and [releaseKey]

    The two variants have the same text for these two methods; they are
    written once over the field accessor of the variant's struct. *)

Section Keys.
Context {S : Type}.
Variable pressedKeys : S → gmap string bool.
Variable setPressedKeys : gmap string bool → S → S.

Definition pressKey (key : string) : M S unit :=
  cm ← get;
  if negb (index (pressedKeys cm) key) then
    emit (KeyDown key) ;;
    modify (λ cm, setPressedKeys (<[key := true]> (pressedKeys cm)) cm)
  else mret tt.

Definition releaseKey (key : string) : M S unit :=
  cm ← get;
  if index (pressedKeys cm) key then
    emit (KeyUp key) ;;
    modify (λ cm, setPressedKeys (delete key (pressedKeys cm)) cm)
  else mret tt.

(** [if pressed { cm.pressKey(key) } else { cm.releaseKey(key) }] *)
Definition setKey (key : string) (pressed : bool) : M S unit :=
  if pressed then pressKey key else releaseKey key.

(** The deferred clean-up's loop
    [for key := range cm.pressedKeys { cm.releaseKey(key) }].
    [order] is the sequence in which [range] produces the keys present
    when the loop starts; an entry removed before it is reached is not
    produced. *)
Definition releaseAll (order : list string) : M S unit :=
  forEach (λ key,
    cm ← get;
    if decide (is_Some (pressedKeys cm !! key)) then releaseKey key
    else mret tt) order.
End Keys.

(** ** Start-up: [showAlert], [NewControllerMapper], [main]

    Both variants have the same text for these functions, up to the struct
    literal returned on success and the [Run] method called by [main]. *)

(** What start-up observes: the error of [sdl.Init] ([None] for nil), the
    result of [sdl.NumJoysticks()], the name of the controller returned by
    [sdl.GameControllerOpen(0)] ([None] for a nil controller), and whether
    running osascript on a message succeeds. *)
Record Env : Type := {
  sdlInitError : option string;
  joysticks : Z;
  openedController : option string;
  osascript : string → bool
}.

(** [cmd.Run()] returns the command's error, which is dropped. *)
Definition showAlert {S} (env : Env) (message : string) : M S unit :=
  let _ := osascript env message in
  emit (ShowAlert message).

(** Run a method on the mapper it is called on. *)
Definition onMapper {S A} (mapper : S) (c : M S A) : M unit A := λ _,
  let '(a, _, out) := c mapper in (a, tt, out).

Section Process.
Context {S Tick : Type}.
Variable newMapper : S.
Variable Run : list Tick → list string → M S bool.

(** [inl] is the returned error's text, [inr] the returned mapper. *)
Definition NewControllerMapper (env : Env) : M unit (string + S) :=
  emit SdlInit ;;
  match sdlInitError env with
  | Some err =>
      showAlert env ("Failed to initialize SDL: " +:+ err) ;;
      mret (inl ("failed to init SDL: " +:+ err))
  | None =>
      emit NumJoysticks ;;
      if joysticks env <? 1 then
        showAlert env
          "No game controller detected. Please connect a controller and try again." ;;
        mret (inl "no controller detected")
      else
        emit GameControllerOpen ;;
        match openedController env with
        | None =>
            showAlert env
              "Failed to open the game controller. Please reconnect the controller and try again." ;;
            mret (inl "failed to open controller")
        | Some name =>
            emit (Printf ("Controller detected: " +:+ name)) ;;
            mret (inr newMapper)
        end
  end.

(** [main]: the result is the process's exit status, [Some 1] after
    [log.Fatalf], [Some 0] when [main] returns, [None] while [Run] is still
    polling at the end of the given inputs. *)
Definition main (env : Env) (ticks : list Tick) (order : list string)
  : M unit (option Z) :=
  r ← NewControllerMapper env;
  match r with
  | inl err =>
      showAlert env ("Failed to initialize controller mapper: " +:+ err) ;;
      emit (LogFatal ("Failed to initialize controller mapper: " +:+ err)) ;;
      mret (Some 1)
  | inr mapper =>
      emit (Printf "MGS controller mapper started.") ;;
      returned ← onMapper mapper (Run ticks order);
      mret (if returned : bool then Some 0 else None)
  end.
End Process.

(** ** Variant A: level-triggered buttons, stick with repeat emulation *)

Module VariantA.

Definition L2_AXIS : Z := 4.
Definition R2_AXIS : Z := 5.
(** [32767 / 2], an integer constant division. *)
Definition TRIGGER_THRESHOLD : Z := 32767 / 2.

Record ControllerMapper : Type := {
  running : bool;
  pressedKeys : gmap string bool;
  initialDelay : Z;
  repeatDelay : Z;
  analogState : gmap string bool;
  lastAnalogPress : gmap string Z
}.

Definition setRunning (b : bool) (cm : ControllerMapper) : ControllerMapper :=
  {| running := b; pressedKeys := pressedKeys cm;
     initialDelay := initialDelay cm; repeatDelay := repeatDelay cm;
     analogState := analogState cm; lastAnalogPress := lastAnalogPress cm |}.

Definition setPressedKeys (m : gmap string bool) (cm : ControllerMapper)
  : ControllerMapper :=
  {| running := running cm; pressedKeys := m;
     initialDelay := initialDelay cm; repeatDelay := repeatDelay cm;
     analogState := analogState cm; lastAnalogPress := lastAnalogPress cm |}.

Definition setAnalogState (m : gmap string bool) (cm : ControllerMapper)
  : ControllerMapper :=
  {| running := running cm; pressedKeys := pressedKeys cm;
     initialDelay := initialDelay cm; repeatDelay := repeatDelay cm;
     analogState := m; lastAnalogPress := lastAnalogPress cm |}.

Definition setLastAnalogPress (m : gmap string Z) (cm : ControllerMapper)
  : ControllerMapper :=
  {| running := running cm; pressedKeys := pressedKeys cm;
     initialDelay := initialDelay cm; repeatDelay := repeatDelay cm;
     analogState := analogState cm; lastAnalogPress := m |}.

(** The struct built at the end of [NewControllerMapper]. *)
Definition newMapper : ControllerMapper :=
  {| running := true; pressedKeys := ∅;
     initialDelay := 500 * Millisecond; repeatDelay := 50 * Millisecond;
     analogState := ∅; lastAnalogPress := ∅ |}.

Definition pressKey : string → M ControllerMapper unit :=
  pressKey pressedKeys setPressedKeys.
Definition releaseKey : string → M ControllerMapper unit :=
  releaseKey pressedKeys setPressedKeys.

(** The local table of [handleAnalogDirection]. *)
Definition keyMap : gmap string string :=
  {[ "up" := "up"; "down" := "down"; "left" := "left"; "right" := "right" ]}.

(** [now] is the reading of [time.Now()] taken by this call. *)
Definition handleAnalogDirection (now : Z) (direction : string)
    (isActive : bool) : M ControllerMapper unit :=
  let key := default "" (keyMap !! direction) in
  cm ← get;
  if isActive then
    if negb (index (analogState cm) direction) then
      pressKey key ;;
      modify (λ cm,
        setAnalogState (<[direction := true]> (analogState cm)) cm) ;;
      modify (λ cm,
        setLastAnalogPress (<[direction := now]> (lastAnalogPress cm)) cm)
    else
      let timeSinceLast :=
        timeSub now (default zeroTime (lastAnalogPress cm !! direction)) in
      if timeSinceLast >=? initialDelay cm then
        releaseKey key ;;
        pressKey key ;;
        modify (λ cm,
          setLastAnalogPress
            (<[direction :=
                 timeAdd now (- initialDelay cm + repeatDelay cm)]>
               (lastAnalogPress cm)) cm)
      else mret tt
  else
    if index (analogState cm) direction then
      releaseKey key ;;
      modify (λ cm,
        setAnalogState (<[direction := false]> (analogState cm)) cm) ;;
      modify (λ cm,
        setLastAnalogPress (delete direction (lastAnalogPress cm)) cm)
    else mret tt.

(** The four clock readings of one [handleAnalogStick] call, in call order. *)
Record StickClock : Type := {
  nowRight : Z;
  nowLeft : Z;
  nowDown : Z;
  nowUp : Z
}.

Definition deadzone : Z := 8000.

Definition handleAnalogStick (clk : StickClock) (x y : Z)
  : M ControllerMapper unit :=
  handleAnalogDirection (nowRight clk) "right" (x >? deadzone) ;;
  handleAnalogDirection (nowLeft clk) "left" (x <? - deadzone) ;;
  handleAnalogDirection (nowDown clk) "down" (y >? deadzone) ;;
  handleAnalogDirection (nowUp clk) "up" (y <? - deadzone).

Definition areTriggersPressed (s : Snapshot) : bool * bool :=
  let l2 := Axis s L2_AXIS in
  let r2 := Axis s R2_AXIS in
  (l2 >? TRIGGER_THRESHOLD, r2 >? TRIGGER_THRESHOLD).

(** The entries of [buttonMap] in [Run], in source order. *)
Definition buttonMap : list (Z * string) :=
  [ (0, "shift"); (1, "space"); (2, "LCTRL"); (3, "x"); (4, "tab");
    (5, "k"); (6, "esc"); (7, "3"); (8, "2"); (9, "q"); (10, "w");
    (11, "up"); (12, "down"); (13, "left"); (14, "right") ].

(** What one pass of the polling loop reads: the pending SDL events, the
    controller, the order in which [range buttonMap] visits the table, and
    the clock. *)
Record Tick : Type := {
  events : list SdlEvent;
  snap : Snapshot;
  buttonOrder : list (Z * string);
  clock : StickClock
}.

(** "Handle regular buttons". *)
Definition handleButtons (s : Snapshot) (order : list (Z * string))
  : M ControllerMapper unit :=
  forEach (λ '(button, key),
    let state := Button s button in
    if state =? 1 then pressKey key else releaseKey key) order.

(** "Handle triggers (L2 and R2)". *)
Definition handleTriggers (s : Snapshot) : M ControllerMapper unit :=
  let '(l2Pressed, r2Pressed) := areTriggersPressed s in
  (if l2Pressed then pressKey "a" else releaseKey "a") ;;
  (if r2Pressed then pressKey "s" else releaseKey "s").

(** The body of the polling loop after the event drain. *)
Definition tick (t : Tick) : M ControllerMapper unit :=
  handleButtons (snap t) (buttonOrder t) ;;
  handleTriggers (snap t) ;;
  let x := Axis (snap t) CONTROLLER_AXIS_LEFTX in
  let y := Axis (snap t) CONTROLLER_AXIS_LEFTY in
  handleAnalogStick (clock t) x y.

(** How the [for cm.running] loop of [Run] was left. *)
Inductive LoopExit : Type :=
  | Returned        (* [return] on a QuitEvent *)
  | ConditionFalse  (* [cm.running] read false at the loop head *)
  | StillPolling.   (* the inputs ran out: the loop has not been left *)

Fixpoint loop (ticks : list Tick) : M ControllerMapper LoopExit :=
  cm ← get;
  if negb (running cm) then mret ConditionFalse
  else
    match ticks with
    | [] => mret StillPolling
    | t :: rest =>
        if existsb isQuit (events t) then
          modify (setRunning false) ;; mret Returned
        else tick t ;; loop rest
    end.

(** The deferred function of [Run]. *)
Definition cleanup (order : list string) : M ControllerMapper unit :=
  releaseAll pressedKeys setPressedKeys order ;;
  emit ControllerClose ;;
  emit SdlQuit.

(** [Run]: the loop, and the deferred function once the loop is left.
    [order] is the order in which the deferred [range cm.pressedKeys]
    visits the map.  The result tells whether [Run] has returned. *)
Definition Run (ticks : list Tick) (order : list string)
  : M ControllerMapper bool :=
  how ← loop ticks;
  match how with
  | StillPolling => mret false
  | Returned | ConditionFalse => cleanup order ;; mret true
  end.

Definition NewControllerMapper : Env → M unit (string + ControllerMapper) :=
  NewControllerMapper newMapper.
Definition main : Env → list Tick → list string → M unit (option Z) :=
  main newMapper Run.

End VariantA.

(** ** Variant B: one direction bit mask per tick, no repeat *)

Module VariantB.

Definition analogDeadzone : Z := 8000.
Definition triggerThreshold : Z := 16383.
Definition leftTriggerAxis : Z := 4.
Definition rightTriggerAxis : Z := 5.

Definition DIR_NONE : Z := 0.
Definition DIR_UP : Z := Z.shiftl 1 0.
Definition DIR_RIGHT : Z := Z.shiftl 1 1.
Definition DIR_DOWN : Z := Z.shiftl 1 2.
Definition DIR_LEFT : Z := Z.shiftl 1 3.

(** The entries of [buttonKeyMap] and [triggerKeyMap], in source order. *)
Definition buttonKeyMap : list (Z * string) :=
  [ (0, "shift"); (1, "space"); (2, "lctrl"); (3, "x"); (4, "tab");
    (5, "k"); (6, "esc"); (7, "3"); (8, "2"); (9, "q"); (10, "w") ].

Definition triggerKeyMap : list (Z * string) :=
  [ (leftTriggerAxis, "a"); (rightTriggerAxis, "s") ].

Record ControllerMapper : Type := {
  running : bool;
  pressedKeys : gmap string bool;
  currentDirection : Z
}.

Definition setRunning (b : bool) (cm : ControllerMapper) : ControllerMapper :=
  {| running := b; pressedKeys := pressedKeys cm;
     currentDirection := currentDirection cm |}.

Definition setPressedKeys (m : gmap string bool) (cm : ControllerMapper)
  : ControllerMapper :=
  {| running := running cm; pressedKeys := m;
     currentDirection := currentDirection cm |}.

Definition setCurrentDirection (d : Z) (cm : ControllerMapper)
  : ControllerMapper :=
  {| running := running cm; pressedKeys := pressedKeys cm;
     currentDirection := d |}.

(** The struct built at the end of [NewControllerMapper]. *)
Definition newMapper : ControllerMapper :=
  {| running := true; pressedKeys := ∅; currentDirection := DIR_NONE |}.

Definition pressKey : string → M ControllerMapper unit :=
  pressKey pressedKeys setPressedKeys.
Definition releaseKey : string → M ControllerMapper unit :=
  releaseKey pressedKeys setPressedKeys.

(** "Handle D-pad": the mask after the four button tests. *)
Definition dpadDirection (s : Snapshot) : Z :=
  let direction := DIR_NONE in
  let direction :=
    if Button s CONTROLLER_BUTTON_DPAD_UP =? 1
    then Z.lor direction DIR_UP else direction in
  let direction :=
    if Button s CONTROLLER_BUTTON_DPAD_DOWN =? 1
    then Z.lor direction DIR_DOWN else direction in
  let direction :=
    if Button s CONTROLLER_BUTTON_DPAD_LEFT =? 1
    then Z.lor direction DIR_LEFT else direction in
  let direction :=
    if Button s CONTROLLER_BUTTON_DPAD_RIGHT =? 1
    then Z.lor direction DIR_RIGHT else direction in
  direction.

(** "Handle analog stick": the mask after the stick block, entered with
    [direction].  [math.Abs(float64(x))] is exact on an int16, so the
    guard is an integer comparison. *)
Definition stickDirection (x y : Z) (direction : Z) : Z :=
  if (Z.abs x >? analogDeadzone) || (Z.abs y >? analogDeadzone) then
    let direction :=
      if x >? analogDeadzone then Z.lor direction DIR_RIGHT
      else if x <? - analogDeadzone then Z.lor direction DIR_LEFT
      else direction in
    let direction :=
      if y >? analogDeadzone then Z.lor direction DIR_DOWN
      else if y <? - analogDeadzone then Z.lor direction DIR_UP
      else direction in
    direction
  else direction.

Definition handleDirectionalInputs (s : Snapshot) : M ControllerMapper unit :=
  let direction := dpadDirection s in
  let x := Axis s CONTROLLER_AXIS_LEFTX in
  let y := Axis s CONTROLLER_AXIS_LEFTY in
  let direction := stickDirection x y direction in
  (if negb (Z.land direction DIR_UP =? 0)
   then pressKey "up" else releaseKey "up") ;;
  (if negb (Z.land direction DIR_DOWN =? 0)
   then pressKey "down" else releaseKey "down") ;;
  (if negb (Z.land direction DIR_LEFT =? 0)
   then pressKey "left" else releaseKey "left") ;;
  (if negb (Z.land direction DIR_RIGHT =? 0)
   then pressKey "right" else releaseKey "right") ;;
  modify (setCurrentDirection direction).

Definition handleButtons (s : Snapshot) (order : list (Z * string))
  : M ControllerMapper unit :=
  forEach (λ '(button, key),
    if Button s button =? 1 then pressKey key else releaseKey key) order.

Definition handleTriggers (s : Snapshot) (order : list (Z * string))
  : M ControllerMapper unit :=
  forEach (λ '(axis, key),
    if Axis s axis >? triggerThreshold then pressKey key
    else releaseKey key) order.

(** What one pass of the polling loop reads: the pending SDL events, the
    controller, and the orders in which [range buttonKeyMap] and
    [range triggerKeyMap] visit their tables. *)
Record Tick : Type := {
  events : list SdlEvent;
  snap : Snapshot;
  buttonOrder : list (Z * string);
  triggerOrder : list (Z * string)
}.

(** The body of the polling loop after the event drain. *)
Definition tick (t : Tick) : M ControllerMapper unit :=
  handleDirectionalInputs (snap t) ;;
  handleButtons (snap t) (buttonOrder t) ;;
  handleTriggers (snap t) (triggerOrder t).

(** How the [for cm.running] loop of [Run] was left. *)
Inductive LoopExit : Type :=
  | Returned        (* [return] on a QuitEvent *)
  | ConditionFalse  (* [cm.running] read false at the loop head *)
  | StillPolling.   (* the inputs ran out: the loop has not been left *)

Fixpoint loop (ticks : list Tick) : M ControllerMapper LoopExit :=
  cm ← get;
  if negb (running cm) then mret ConditionFalse
  else
    match ticks with
    | [] => mret StillPolling
    | t :: rest =>
        if existsb isQuit (events t) then
          modify (setRunning false) ;; mret Returned
        else tick t ;; loop rest
    end.

(** The deferred function of [Run]. *)
Definition cleanup (order : list string) : M ControllerMapper unit :=
  releaseAll pressedKeys setPressedKeys order ;;
  emit ControllerClose ;;
  emit SdlQuit.

(** [Run]: the loop, and the deferred function once the loop is left. *)
Definition Run (ticks : list Tick) (order : list string)
  : M ControllerMapper bool :=
  how ← loop ticks;
  match how with
  | StillPolling => mret false
  | Returned | ConditionFalse => cleanup order ;; mret true
  end.

Definition NewControllerMapper : Env → M unit (string + ControllerMapper) :=
  NewControllerMapper newMapper.
Definition main : Env → list Tick → list string → M unit (option Z) :=
  main newMapper Run.

End VariantB.

(** * Vocabulary of the properties *)

(** A level-triggered update of one key is a pair of the key and the
    level it is driven to; [setKeys] performs a sequence of them. *)
Definition setKeys {S} (pk : S → gmap string bool)
    (setpk : gmap string bool → S → S) (ops : list (string * bool))
  : M S unit :=
  forEach (λ op, setKey pk setpk op.1 op.2) ops.

(** The emitter call a level-triggered update makes on the key map [m]:
    none when the key already is at the requested level. *)
Definition keyCall (m : gmap string bool) (op : string * bool)
  : option Event :=
  if Bool.eqb (index m op.1) op.2 then None
  else Some (if op.2 then KeyDown op.1 else KeyUp op.1).

(** Every update of [ops] is already in effect on [m]. *)
Definition settled (m : gmap string bool) (ops : list (string * bool))
  : Prop :=
  Forall (λ op, index m op.1 = op.2) ops.

(** The emitter's view of a key after the calls [hist] (oldest first):
    the last call about the key was a keyDown. *)
Definition heldAfter (hist : list Event) (key : string) : bool :=
  foldl (λ held e,
    match e with
    | KeyDown k => if decide (k = key) then true else held
    | KeyUp k => if decide (k = key) then false else held
    | _ => held
    end) false hist.

(** "The Emitter has been told keyDown for the key and has not since been
    told keyUp". *)
Definition toldDown (hist : list Event) (key : string) : Prop :=
  ∃ before after,
    hist = before ++ KeyDown key :: after ∧ KeyUp key ∉ after.

(** The key map mirrors the emitter: no entry holds [false], and a key
    reads [true] exactly when the emitter holds it. *)
Definition mirrors (m : gmap string bool) (hist : list Event) : Prop :=
  (∀ k, m !! k ≠ Some false) ∧ (∀ k, index m k = heldAfter hist k).


(** No entry of the key map holds [false]. *)
Definition noFalse (m : gmap string bool) : Prop := ∀ k, m !! k ≠ Some false.

(** A property of the key map and the emitter's history that inserting
    on keyDown, deleting on keyUp and the other calls maintain. *)
Record KeyInvariant (I : gmap string bool → list Event → Prop) : Prop := {
  inv_insert : ∀ m hist k,
    I m hist → index m k = false → I (<[k := true]> m) (hist ++ [KeyDown k]);
  inv_delete : ∀ m hist k,
    I m hist → index m k = true → I (delete k m) (hist ++ [KeyUp k]);
  inv_other : ∀ m hist e,
    eventKey e = None → I m hist → I m (hist ++ [e])
}.

(** A computation maintains [I] between the key map of its state (read
    by [pk]) and the history of calls. *)
Definition Preserves {S A} (pk : S → gmap string bool)
    (I : gmap string bool → list Event → Prop) (c : M S A) : Prop :=
  ∀ s hist, I (pk s) hist → I (pk (stateOf c s)) (hist ++ callsOf c s).

(** The four direction keys. *)
Definition directionKeys : list string := ["up"; "down"; "left"; "right"].

(** An emitter call about one of the keys [ks]. *)
Definition aboutKeys (ks : list string) (e : Event) : Prop :=
  ∃ k, eventKey e = Some k ∧ k ∈ ks.

(** The number of keyDown calls for [key] among [calls]. *)
Definition keyDowns (key : string) (calls : list Event) : nat :=
  length (filter (λ e, e = KeyDown key) calls).
Definition keyUps (key : string) (calls : list Event) : nat :=
  length (filter (λ e, e = KeyUp key) calls).

(** The levels the button loop drives the mapped keys to, in the order
    of the visit. *)
Definition buttonLevels (s : Snapshot) (order : list (Z * string))
  : list (string * bool) :=
  (λ entry, (entry.2, Button s entry.1 =? 1)) <$> order.

(** Variant A: the levels the trigger block drives ["a"] and ["s"] to. *)
Definition triggerLevelsA (s : Snapshot) : list (string * bool) :=
  [ ("a", Axis s VariantA.L2_AXIS >? VariantA.TRIGGER_THRESHOLD);
    ("s", Axis s VariantA.R2_AXIS >? VariantA.TRIGGER_THRESHOLD) ].

(** Variant B: the levels of the trigger loop, in the order of the visit. *)
Definition triggerLevelsB (s : Snapshot) (order : list (Z * string))
  : list (string * bool) :=
  (λ entry, (entry.2, Axis s entry.1 >? VariantB.triggerThreshold)) <$> order.

(** Variant B: the mask of a snapshot and the levels of the four
    direction keys, in the order of the tests. *)
Definition directionOf (s : Snapshot) : Z :=
  VariantB.stickDirection (Axis s CONTROLLER_AXIS_LEFTX)
    (Axis s CONTROLLER_AXIS_LEFTY) (VariantB.dpadDirection s).

Definition directionLevels (direction : Z) : list (string * bool) :=
  [ ("up", negb (Z.land direction VariantB.DIR_UP =? 0));
    ("down", negb (Z.land direction VariantB.DIR_DOWN =? 0));
    ("left", negb (Z.land direction VariantB.DIR_LEFT =? 0));
    ("right", negb (Z.land direction VariantB.DIR_RIGHT =? 0)) ].

(** Variant A: all the levels of one pass, buttons then triggers. *)
Definition levelsA (s : Snapshot) (order : list (Z * string))
  : list (string * bool) :=
  buttonLevels s order ++ triggerLevelsA s.

(** Variant B: all the levels of one pass: directions, buttons, triggers. *)
Definition levelsB (s : Snapshot) (order torder : list (Z * string))
  : list (string * bool) :=
  directionLevels (directionOf s) ++ buttonLevels s order ++
  triggerLevelsB s torder.

(** The stick rests inside the dead zone on both axes. *)
Definition stickCentred (s : Snapshot) : Prop :=
  - 8000 ≤ Axis s CONTROLLER_AXIS_LEFTX ≤ 8000 ∧
  - 8000 ≤ Axis s CONTROLLER_AXIS_LEFTY ≤ 8000.

(** Variant A: the keys of buttons 0 to 10 and of the triggers are at the
    levels of the snapshot. *)
Definition othersSettled (s : Snapshot) (cm : VariantA.ControllerMapper)
  : Prop :=
  ∀ op, op ∈ levelsA s VariantA.buttonMap → op.1 ∉ directionKeys →
        index (VariantA.pressedKeys cm) op.1 = op.2.

(** A quit signal is among the events drained by the pass. *)
Definition quitSeen (events : list SdlEvent) : Prop :=
  existsb isQuit events = true.

(** Variant A: the direction [d] stays active, and its handler is called
    at the instants [times]. *)
Definition holdAt (d : string) (times : list Z)
  : M VariantA.ControllerMapper unit :=
  forEach (λ now, VariantA.handleAnalogDirection now d true) times.

(** The instants [0], [period], [2 * period], ... ([n] of them), in
    milliseconds. *)
Definition every (period : Z) (n : nat) : list Z :=
  (λ i, period * Millisecond * Z.of_nat i) <$> seq 0 n.


(** Variant A: the direction [d] is marked active with its press recorded
    at [last], its key is held, and the delays are those set by
    [NewControllerMapper]. *)
Definition activeSince (cm : VariantA.ControllerMapper) (d : string)
    (last : Z) : Prop :=
  index (VariantA.analogState cm) d = true ∧
  index (VariantA.pressedKeys cm) d = true ∧
  VariantA.initialDelay cm = 500 * Millisecond ∧
  VariantA.repeatDelay cm = 50 * Millisecond ∧
  VariantA.lastAnalogPress cm !! d = Some last.

(** Variant B: [mask&bit != 0]. *)
Definition hasDirection (mask bit : Z) : bool := negb (Z.land mask bit =? 0).


(** Variant B: likewise, with both tables visited in some order. *)
Definition sameInputB (t1 t : VariantB.Tick) : Prop :=
  VariantB.snap t = VariantB.snap t1 ∧
  VariantB.buttonOrder t ≡ₚ VariantB.buttonKeyMap ∧
  VariantB.triggerOrder t ≡ₚ VariantB.triggerKeyMap.

(** The operations of the engine, variant A. *)
Inductive OpA : Type :=
  | PressKeyA (key : string)
  | ReleaseKeyA (key : string)
  | AnalogDirectionA (now : Z) (direction : string) (isActive : bool)
  | AnalogStickA (clk : VariantA.StickClock) (x y : Z)
  | ButtonsA (s : Snapshot) (order : list (Z * string))
  | TriggersA (s : Snapshot)
  | TickA (t : VariantA.Tick)
  | CleanupA (order : list string)
  | RunA (ticks : list VariantA.Tick) (order : list string).

Definition doA (op : OpA) : M VariantA.ControllerMapper unit :=
  match op with
  | PressKeyA key => VariantA.pressKey key
  | ReleaseKeyA key => VariantA.releaseKey key
  | AnalogDirectionA now d b => VariantA.handleAnalogDirection now d b
  | AnalogStickA clk x y => VariantA.handleAnalogStick clk x y
  | ButtonsA s order => VariantA.handleButtons s order
  | TriggersA s => VariantA.handleTriggers s
  | TickA t => VariantA.tick t
  | CleanupA order => VariantA.cleanup order
  | RunA ticks order => VariantA.Run ticks order ;; mret tt
  end.

(** The operations of the engine, variant B. *)
Inductive OpB : Type :=
  | PressKeyB (key : string)
  | ReleaseKeyB (key : string)
  | DirectionalInputsB (s : Snapshot)
  | ButtonsB (s : Snapshot) (order : list (Z * string))
  | TriggersB (s : Snapshot) (order : list (Z * string))
  | TickB (t : VariantB.Tick)
  | CleanupB (order : list string)
  | RunB (ticks : list VariantB.Tick) (order : list string).

Definition doB (op : OpB) : M VariantB.ControllerMapper unit :=
  match op with
  | PressKeyB key => VariantB.pressKey key
  | ReleaseKeyB key => VariantB.releaseKey key
  | DirectionalInputsB s => VariantB.handleDirectionalInputs s
  | ButtonsB s order => VariantB.handleButtons s order
  | TriggersB s order => VariantB.handleTriggers s order
  | TickB t => VariantB.tick t
  | CleanupB order => VariantB.cleanup order
  | RunB ticks order => VariantB.Run ticks order ;; mret tt
  end.

(** ** Sample inputs *)

(** Nothing pressed, every axis at 0. *)
Definition neutral : Snapshot := {| Button := λ _, 0; Axis := λ _, 0 |}.

Definition withButton (button : Z) (s : Snapshot) : Snapshot :=
  {| Button := λ i, if i =? button then 1 else Button s i; Axis := Axis s |}.

Definition withAxis (axis value : Z) (s : Snapshot) : Snapshot :=
  {| Button := Button s;
     Axis := λ i, if i =? axis then value else Axis s i |}.

(** All four clock readings of a pass at the instant [now]. *)
Definition clockAt (now : Z) : VariantA.StickClock :=
  {| VariantA.nowRight := now; VariantA.nowLeft := now;
     VariantA.nowDown := now; VariantA.nowUp := now |}.

(** A pass of variant A at the instant [now], no event pending, the table
    visited in source order. *)
Definition passA (s : Snapshot) (now : Z) : VariantA.Tick :=
  {| VariantA.events := []; VariantA.snap := s;
     VariantA.buttonOrder := VariantA.buttonMap;
     VariantA.clock := clockAt now |}.

(** A pass of variant A that drains a quit signal. *)
Definition quitA : VariantA.Tick :=
  {| VariantA.events := [OtherEvent; QuitEvent]; VariantA.snap := neutral;
     VariantA.buttonOrder := VariantA.buttonMap;
     VariantA.clock := clockAt 0 |}.

Definition passB (s : Snapshot) : VariantB.Tick :=
  {| VariantB.events := []; VariantB.snap := s;
     VariantB.buttonOrder := VariantB.buttonKeyMap;
     VariantB.triggerOrder := VariantB.triggerKeyMap |}.

Definition quitB : VariantB.Tick :=
  {| VariantB.events := [QuitEvent]; VariantB.snap := neutral;
     VariantB.buttonOrder := VariantB.buttonKeyMap;
     VariantB.triggerOrder := VariantB.triggerKeyMap |}.

(** Stick pushed left: X = -20000, Y = 0, nothing pressed. *)
Definition stickLeft : Snapshot := withAxis CONTROLLER_AXIS_LEFTX (-20000) neutral.

(** D-pad left held and stick pushed left. *)
Definition bothLeft : Snapshot :=
  withButton CONTROLLER_BUTTON_DPAD_LEFT stickLeft.

(** D-pad up held and stick pushed down (Y = 20000). *)
Definition upAgainstDown : Snapshot :=
  withButton CONTROLLER_BUTTON_DPAD_UP
    (withAxis CONTROLLER_AXIS_LEFTY 20000 neutral).

(** D-pad up held and stick pushed up (Y = -20000). *)
Definition bothUp : Snapshot :=
  withButton CONTROLLER_BUTTON_DPAD_UP
    (withAxis CONTROLLER_AXIS_LEFTY (-20000) neutral).

(** A start-up environment in which everything succeeds. *)
Definition goodEnv : Env :=
  {| sdlInitError := None; joysticks := 1;
     openedController := Some "Wireless Controller";
     osascript := λ _, false |}.

(** One of the three fatal start-up failures occurs. *)
Definition startUpFails (env : Env) : Prop :=
  is_Some (sdlInitError env) ∨ joysticks env < 1 ∨ openedController env = None.

(** The probes and messages of a failed start-up: what [sdl] was asked,
    the alert of [NewControllerMapper], the error it returned. *)
Definition failure (env : Env) : list Event * string * string :=
  match sdlInitError env with
  | Some err =>
      ([SdlInit], "Failed to initialize SDL: " +:+ err,
       "failed to init SDL: " +:+ err)
  | None =>
      if joysticks env <? 1 then
        ([SdlInit; NumJoysticks],
         "No game controller detected. Please connect a controller and try again.",
         "no controller detected")
      else
        ([SdlInit; NumJoysticks; GameControllerOpen],
         "Failed to open the game controller. Please reconnect the controller and try again.",
         "failed to open controller")
  end.

(** Start-up environments that fail in each of the three ways. *)
Definition noSdlEnv : Env :=
  {| sdlInitError := Some "No available video device"; joysticks := 0;
     openedController := None; osascript := λ _, true |}.
Definition noJoystickEnv : Env :=
  {| sdlInitError := None; joysticks := 0;
     openedController := None; osascript := λ _, false |}.
Definition noOpenEnv : Env :=
  {| sdlInitError := None; joysticks := 2;
     openedController := None; osascript := λ _, true |}.

(** D-pad left held and stick pushed right (X = 20000). *)
Definition leftAgainstRight : Snapshot :=
  withButton CONTROLLER_BUTTON_DPAD_LEFT
    (withAxis CONTROLLER_AXIS_LEFTX 20000 neutral).

(** * Vocabulary of the further properties *)

(** Every keyDown of the history is for a key the emitter does not hold
    at that point, and every keyUp for a key it holds. *)
Definition wellPaired (hist : list Event) : Prop :=
  ∀ before e after, hist = before ++ e :: after →
    match e with
    | KeyDown k => heldAfter before k = false
    | KeyUp k => heldAfter before k = true
    | _ => True
    end.

(** The key map mirrors a well paired history. *)
Definition pairedMirror (m : gmap string bool) (hist : list Event) : Prop :=
  mirrors m hist ∧ wellPaired hist.

(** A call to robotgo. *)
Definition isKeyCall (e : Event) : Prop := is_Some (eventKey e).

(** The key names of the tables of variant A ([buttonMap] and the two
    trigger keys) and of variant B (direction keys, [buttonKeyMap],
    [triggerKeyMap]). *)
Definition tableKeysA : list string :=
  VariantA.buttonMap.*2 ++ ["a"; "s"].
Definition tableKeysB : list string :=
  directionKeys ++ VariantB.buttonKeyMap.*2 ++ VariantB.triggerKeyMap.*2.

(** Variant A: a repeat of direction [d] is due at [now]: the test
    [timeSinceLast >= cm.initialDelay]. *)
Definition repeatDue (cm : VariantA.ControllerMapper) (now : Z) (d : string)
  : bool :=
  timeSub now (default zeroTime (VariantA.lastAnalogPress cm !! d))
    >=? VariantA.initialDelay cm.

(** Variant A: whether a direction key is held at the end of a pass, from
    the D-pad button reading 1, the stick being beyond the dead zone, the
    direction being marked active before the pass, and a repeat being
    due. *)
Definition heldAtEndA (dpad stick marked due : bool) : bool :=
  if stick then dpad || negb marked || due else dpad && negb marked.

(** Variant A: the repeat state is consistent: a direction has a recorded
    instant exactly when it is marked active, only the four directions
    are marked, and the delays are those set at start-up. *)
Definition repeatStateOk (cm : VariantA.ControllerMapper) : Prop :=
  (∀ d, is_Some (VariantA.lastAnalogPress cm !! d)
        ↔ index (VariantA.analogState cm) d = true) ∧
  (∀ d, index (VariantA.analogState cm) d = true → d ∈ directionKeys) ∧
  VariantA.initialDelay cm = 500 * Millisecond ∧
  VariantA.repeatDelay cm = 50 * Millisecond.

(** A pass that drains no quit signal. *)
Definition noQuitA (t : VariantA.Tick) : Prop :=
  ¬ quitSeen (VariantA.events t).
Definition noQuitB (t : VariantB.Tick) : Prop :=
  ¬ quitSeen (VariantB.events t).

(** A pass of variant A / B whose tables are visited in some order. *)
Definition wellOrderedA (t : VariantA.Tick) : Prop :=
  VariantA.buttonOrder t ≡ₚ VariantA.buttonMap.
Definition wellOrderedB (t : VariantB.Tick) : Prop :=
  VariantB.buttonOrder t ≡ₚ VariantB.buttonKeyMap ∧
  VariantB.triggerOrder t ≡ₚ VariantB.triggerKeyMap.

(** ** Further sample inputs *)

(** [buttonMap] visited with its first two entries exchanged. *)
Definition buttonMapSwapped : list (Z * string) :=
  (1, "space") :: (0, "shift") :: drop 2 VariantA.buttonMap.

(** A pass of variant A that visits [buttonMap] in that other order. *)
Definition passA' (s : Snapshot) (now : Z) : VariantA.Tick :=
  {| VariantA.events := []; VariantA.snap := s;
     VariantA.buttonOrder := buttonMapSwapped;
     VariantA.clock := clockAt now |}.

(** A pass of variant B that visits [triggerKeyMap] in the other order. *)
Definition passB' (s : Snapshot) : VariantB.Tick :=
  {| VariantB.events := []; VariantB.snap := s;
     VariantB.buttonOrder := VariantB.buttonKeyMap;
     VariantB.triggerOrder := [(5, "s"); (4, "a")] |}.

(** Cross and circle held, left trigger pulled. *)
Definition twoButtons : Snapshot :=
  withButton 0 (withButton 1 (withAxis 4 20000 neutral)).

(** ** The analog reading of the triggers (variant A) *)

(** [getTriggerValues]: the two trigger axes as they are read. *)
Definition getTriggerValues (s : Snapshot) : Z * Z :=
  let l2 := Axis s VariantA.L2_AXIS in
  let r2 := Axis s VariantA.R2_AXIS in
  (l2, r2).

(** ** Variant A: one direction in one pass *)

(** The reading of the stick for the direction [d], as [handleAnalogStick]
    passes it to the handler of [d]. *)
Definition stickHolds (s : Snapshot) (d : string) : bool :=
  if decide (d = "right") then Axis s CONTROLLER_AXIS_LEFTX >? 8000
  else if decide (d = "left") then Axis s CONTROLLER_AXIS_LEFTX <? - 8000
  else if decide (d = "down") then Axis s CONTROLLER_AXIS_LEFTY >? 8000
  else if decide (d = "up") then Axis s CONTROLLER_AXIS_LEFTY <? - 8000
  else false.



(** The calls about the key [k] among [calls], in their order. *)
Definition callsAbout (k : string) (calls : list Event) : list Event :=
  filter (λ e, eventKey e = Some k) calls.





(** No direction is marked active that the stick of [s] does not hold. *)
Definition marksWithin (s : Snapshot) (cm : VariantA.ControllerMapper)
  : Prop :=
  ∀ d, d ∈ directionKeys → stickHolds s d = false →
       index (VariantA.analogState cm) d = false.




(** D-pad left held, stick at rest. *)
Definition padLeft : Snapshot :=
  withButton CONTROLLER_BUTTON_DPAD_LEFT neutral.

(** * Properties *)

(** ** Running computations *)

Lemma run_bind {S A B} (c : M S A) (f : A → M S B) (s : S) :
  (c ≫= f) s =
  (resultOf (f (resultOf c s)) (stateOf c s),
   stateOf (f (resultOf c s)) (stateOf c s),
   callsOf c s ++ callsOf (f (resultOf c s)) (stateOf c s)).
Proof.
  unfold resultOf, stateOf, callsOf, mbind, M_bind.
  destruct (c s) as [[a s1] o1]; simpl.
  by destruct (f a s1) as [[b s2] o2].
Qed.

Lemma stateOf_bind {S A B} (c : M S A) (f : A → M S B) (s : S) :
  stateOf (c ≫= f) s = stateOf (f (resultOf c s)) (stateOf c s).
Proof. unfold stateOf at 1. by rewrite run_bind. Qed.

Lemma callsOf_bind {S A B} (c : M S A) (f : A → M S B) (s : S) :
  callsOf (c ≫= f) s = callsOf c s ++ callsOf (f (resultOf c s)) (stateOf c s).
Proof. unfold callsOf at 1. by rewrite run_bind. Qed.

Lemma resultOf_bind {S A B} (c : M S A) (f : A → M S B) (s : S) :
  resultOf (c ≫= f) s = resultOf (f (resultOf c s)) (stateOf c s).
Proof. unfold resultOf at 1. by rewrite run_bind. Qed.

Lemma stateOf_forEach_app {S A} (body : A → M S unit) (l1 l2 : list A) s :
  stateOf (forEach body (l1 ++ l2)) s =
  stateOf (forEach body l2) (stateOf (forEach body l1) s).
Proof.
  revert s. induction l1 as [|a l1 IH]; intros s; simpl; [done|].
  by rewrite !stateOf_bind, IH.
Qed.

Lemma callsOf_forEach_app {S A} (body : A → M S unit) (l1 l2 : list A) s :
  callsOf (forEach body (l1 ++ l2)) s =
  callsOf (forEach body l1) s ++
  callsOf (forEach body l2) (stateOf (forEach body l1) s).
Proof.
  revert s. induction l1 as [|a l1 IH]; intros s; simpl; [done|].
  by rewrite !callsOf_bind, !stateOf_bind, IH, app_assoc.
Qed.

(** ** Go maps *)

Lemma index_insert_true (m : gmap string bool) (k k' : string) :
  index (<[k := true]> m) k' = if decide (k = k') then true else index m k'.
Proof.
  unfold index. rewrite lookup_insert. by case_decide.
Qed.

Lemma index_insert (m : gmap string bool) (k k' : string) (b : bool) :
  index (<[k := b]> m) k' = if decide (k = k') then b else index m k'.
Proof.
  unfold index. rewrite lookup_insert. by case_decide.
Qed.

Lemma index_delete (m : gmap string bool) (k k' : string) :
  index (delete k m) k' = if decide (k = k') then false else index m k'.
Proof.
  unfold index. rewrite lookup_delete. by case_decide.
Qed.

Section KeysFacts.
Context {S : Type}.
Variable pk : S → gmap string bool.
Variable setpk : gmap string bool → S → S.
Hypothesis pk_set : ∀ m s, pk (setpk m s) = m.

Lemma pressKey_exec (key : string) (s : S) :
  exec (pressKey pk setpk key) s =
  if index (pk s) key then (s, [])
  else (setpk (<[key := true]> (pk s)) s, [KeyDown key]).
Proof.
  unfold exec, pressKey. rewrite stateOf_bind, callsOf_bind.
  change (resultOf get s) with s. change (stateOf get s) with s.
  by destruct (index (pk s) key).
Qed.

Lemma releaseKey_exec (key : string) (s : S) :
  exec (releaseKey pk setpk key) s =
  if index (pk s) key
  then (setpk (delete key (pk s)) s, [KeyUp key])
  else (s, []).
Proof.
  unfold exec, releaseKey. rewrite stateOf_bind, callsOf_bind.
  change (resultOf get s) with s. change (stateOf get s) with s.
  by destruct (index (pk s) key).
Qed.

End KeysFacts.

Lemma exec_forEach_single {S A} (body : A → M S unit) (a : A) (s : S) :
  exec (forEach body [a]) s = exec (body a) s.
Proof.
  unfold exec. simpl. rewrite stateOf_bind, callsOf_bind.
  change (stateOf (mret tt) ?x) with x.
  change (callsOf (mret tt) ?x) with (@nil Event). by rewrite app_nil_r.
Qed.

Lemma stateOf_forEach_single {S A} (body : A → M S unit) (a : A) (s : S) :
  stateOf (forEach body [a]) s = stateOf (body a) s.
Proof. exact (f_equal fst (exec_forEach_single body a s)). Qed.

Lemma omap_cons {A B} (f : A → option B) (x : A) (l : list A) :
  omap f (x :: l) =
  match f x with Some y => y :: omap f l | None => omap f l end.
Proof. reflexivity. Qed.

Lemma keyCall_ext (m1 m2 : gmap string bool) (ops : list (string * bool)) :
  (∀ k, k ∈ ops.*1 → index m1 k = index m2 k) →
  omap (keyCall m1) ops = omap (keyCall m2) ops.
Proof.
  induction ops as [|[k b] ops IH]; intros H; [done|].
  rewrite !omap_cons, IH by (intros; apply H; by apply list_elem_of_further).
  unfold keyCall. simpl. rewrite (H k) by apply list_elem_of_here. done.
Qed.

Section KeysFacts2.
Context {S : Type}.
Variable pk : S → gmap string bool.
Variable setpk : gmap string bool → S → S.
Hypothesis pk_set : ∀ m s, pk (setpk m s) = m.

Lemma setKey_exec (key : string) (b : bool) (s : S) :
  exec (setKey pk setpk key b) s =
  if Bool.eqb (index (pk s) key) b then (s, [])
  else (setpk (if b then <[key := true]> (pk s) else delete key (pk s)) s,
        [if b then KeyDown key else KeyUp key]).
Proof.
  unfold setKey. destruct b.
  - rewrite pressKey_exec. by destruct (index (pk s) key).
  - rewrite releaseKey_exec. by destruct (index (pk s) key).
Qed.

Lemma setKey_state (key : string) (b : bool) (s : S) :
  stateOf (setKey pk setpk key b) s =
  if Bool.eqb (index (pk s) key) b then s
  else setpk (if b then <[key := true]> (pk s) else delete key (pk s)) s.
Proof.
  pose proof (setKey_exec key b s) as H. unfold exec in H.
  destruct (Bool.eqb _ _); exact (f_equal fst H).
Qed.

Lemma setKey_calls (key : string) (b : bool) (s : S) :
  callsOf (setKey pk setpk key b) s = option_list (keyCall (pk s) (key, b)).
Proof.
  pose proof (setKey_exec key b s) as H. unfold exec, keyCall in *. simpl.
  destruct (Bool.eqb _ _); exact (f_equal snd H).
Qed.

Lemma setKey_index (key : string) (b : bool) (s : S) (k : string) :
  index (pk (stateOf (setKey pk setpk key b) s)) k =
  if decide (key = k) then b else index (pk s) k.
Proof using pk_set.
  rewrite setKey_state.
  destruct (Bool.eqb (index (pk s) key) b) eqn:E.
  - apply Bool.eqb_prop in E. case_decide; congruence.
  - rewrite pk_set. destruct b.
    + by rewrite index_insert_true.
    + by rewrite index_delete.
Qed.

Lemma setKeys_cons (key : string) (b : bool) (ops : list (string * bool)) :
  setKeys pk setpk ((key, b) :: ops) =
  (setKey pk setpk key b ;; setKeys pk setpk ops).
Proof. reflexivity. Qed.

Lemma setKeys_index_notin (ops : list (string * bool)) (s : S) (k : string) :
  k ∉ ops.*1 →
  index (pk (stateOf (setKeys pk setpk ops) s)) k = index (pk s) k.
Proof using pk_set.
  revert s. induction ops as [|[key b] ops IH]; intros s Hk; [done|].
  simpl in Hk. apply not_elem_of_cons in Hk as [Hne Hk].
  rewrite setKeys_cons, stateOf_bind.
  rewrite IH by done. rewrite setKey_index. by case_decide.
Qed.

Lemma setKeys_index_in (ops : list (string * bool)) (s : S) op :
  NoDup ops.*1 → op ∈ ops →
  index (pk (stateOf (setKeys pk setpk ops) s)) op.1 = op.2.
Proof using pk_set.
  revert s. induction ops as [|[key b] ops IH]; intros s Hnd Hin.
  { by apply elem_of_nil in Hin. }
  simpl in Hnd. apply NoDup_cons in Hnd as [Hnotin Hnd].
  rewrite setKeys_cons, stateOf_bind.
  apply elem_of_cons in Hin as [->|Hin].
  - simpl. rewrite setKeys_index_notin by done.
    rewrite setKey_index. by case_decide.
  - by apply IH.
Qed.

(** After a sequence of updates of distinct keys, all of them are in effect. *)
Lemma setKeys_settled (ops : list (string * bool)) (s : S) :
  NoDup ops.*1 → settled (pk (stateOf (setKeys pk setpk ops) s)) ops.
Proof using pk_set.
  intros Hnd. apply Forall_forall. intros op Hin. by apply setKeys_index_in.
Qed.

(** Updates that are already in effect do nothing at all. *)
Lemma setKeys_noop (ops : list (string * bool)) (s : S) :
  settled (pk s) ops → exec (setKeys pk setpk ops) s = (s, []).
Proof.
  induction 1 as [|[key b] ops Hk _ IH]; [done|].
  unfold exec in *. rewrite setKeys_cons, stateOf_bind, callsOf_bind.
  rewrite setKey_state, setKey_calls. unfold keyCall. simpl in *.
  rewrite Hk, Bool.eqb_reflx. simpl. done.
Qed.

(** The calls of a sequence of updates of distinct keys, read off the
    key map the sequence starts from. *)
Lemma setKeys_calls (ops : list (string * bool)) (s : S) :
  NoDup ops.*1 →
  callsOf (setKeys pk setpk ops) s = omap (keyCall (pk s)) ops.
Proof using pk_set.
  revert s. induction ops as [|[key b] ops IH]; intros s Hnd; [done|].
  simpl in Hnd. apply NoDup_cons in Hnd as [Hnotin Hnd].
  rewrite setKeys_cons, callsOf_bind.
  rewrite setKey_calls, IH by done.
  assert (omap (keyCall (pk (stateOf (setKey pk setpk key b) s))) ops
          = omap (keyCall (pk s)) ops) as Hrest.
  { apply keyCall_ext. intros k Hk. rewrite setKey_index.
    case_decide; [by subst|done]. }
  rewrite omap_cons, Hrest. by destruct (keyCall (pk s) (key, b)).
Qed.

(** Fields other than the key map are not touched. *)
Lemma setKey_frame {X} (g : S → X) (key : string) (b : bool) (s : S) :
  (∀ m s, g (setpk m s) = g s) →
  g (stateOf (setKey pk setpk key b) s) = g s.
Proof.
  intros Hg. rewrite setKey_state. by destruct (Bool.eqb _ _).
Qed.

Lemma setKeys_frame {X} (g : S → X) (ops : list (string * bool)) (s : S) :
  (∀ m s, g (setpk m s) = g s) →
  g (stateOf (setKeys pk setpk ops) s) = g s.
Proof.
  intros Hg. revert s. induction ops as [|[key b] ops IH]; intros s; [done|].
  rewrite setKeys_cons, stateOf_bind.
  by rewrite IH, setKey_frame.
Qed.

Lemma setKeys_app (ops1 ops2 : list (string * bool)) :
  ∀ s, exec (setKeys pk setpk (ops1 ++ ops2)) s =
       (stateOf (setKeys pk setpk ops2) (stateOf (setKeys pk setpk ops1) s),
        callsOf (setKeys pk setpk ops1) s ++
        callsOf (setKeys pk setpk ops2) (stateOf (setKeys pk setpk ops1) s)).
Proof.
  intros s. unfold exec, setKeys.
  by rewrite stateOf_forEach_app, callsOf_forEach_app.
Qed.

(** A change of the other fields commutes with the updates. *)
Lemma setKeys_commute (g : S → S) (ops : list (string * bool)) (s : S) :
  (∀ s, pk (g s) = pk s) → (∀ m s, g (setpk m s) = setpk m (g s)) →
  exec (setKeys pk setpk ops) (g s) =
  (g (stateOf (setKeys pk setpk ops) s), callsOf (setKeys pk setpk ops) s).
Proof.
  intros Hpk Hg. revert s. induction ops as [|[key b] ops IH]; intros s; [done|].
  unfold exec in *. rewrite setKeys_cons, !stateOf_bind, !callsOf_bind.
  rewrite !setKey_state, !setKey_calls, Hpk.
  destruct (Bool.eqb (index (pk s) key) b).
  - specialize (IH s). by injection IH as -> ->.
  - rewrite <- Hg. specialize (IH (setpk
      (if b then <[key:=true]> (pk s) else delete key (pk s)) s)).
    by injection IH as -> ->.
Qed.

Lemma settled_perm (m : gmap string bool) (ops ops' : list (string * bool)) :
  ops ≡ₚ ops' → settled m ops → settled m ops'.
Proof. unfold settled. by intros ->. Qed.

(** The clean-up loop over keys that are all held: one keyUp each, in the
    order of the visit, and exactly the visited keys leave the map. *)
Lemma releaseAll_exec (order : list string) (s : S) :
  NoDup order → (∀ k, k ∈ order → pk s !! k = Some true) →
  callsOf (releaseAll pk setpk order) s = KeyUp <$> order ∧
  ∀ k, pk (stateOf (releaseAll pk setpk order) s) !! k =
       if decide (k ∈ order) then None else pk s !! k.
Proof using pk_set.
  revert s. induction order as [|key order IH]; intros s Hnd Hheld.
  { split; [done|]. intros k. rewrite decide_False; [done|apply not_elem_of_nil]. }
  apply NoDup_cons in Hnd as [Hnotin Hnd].
  assert (pk s !! key = Some true) as Hkey by apply Hheld, list_elem_of_here.
  unfold releaseAll. simpl. fold (releaseAll pk setpk order).
  rewrite stateOf_bind, callsOf_bind.
  rewrite stateOf_bind, callsOf_bind.
  change (resultOf get s) with s. change (stateOf get s) with s.
  change (callsOf get s) with (@nil Event).
  rewrite decide_True by (by rewrite Hkey).
  pose proof (releaseKey_exec pk setpk key s) as E. unfold exec in E.
  unfold index in E. rewrite Hkey in E. simpl in E. injection E as -> ->.
  destruct (IH (setpk (delete key (pk s)) s) Hnd) as [Hc Hs].
  { intros k Hk. rewrite pk_set, lookup_delete_ne; [|by intros ->].
    by apply Hheld, list_elem_of_further. }
  split.
  - by rewrite Hc.
  - intros k. rewrite Hs, pk_set, lookup_delete.
    destruct (decide (k = key)) as [->|Hne].
    + rewrite (decide_True (P := key ∈ key :: order))
        by apply list_elem_of_here.
      by repeat case_decide.
    + rewrite (decide_False (P := key = k)) by done.
      destruct (decide (k ∈ order)) as [Hin|Hout].
      * by rewrite decide_True by (by apply list_elem_of_further).
      * rewrite decide_False; [done|]. rewrite elem_of_cons. tauto.
Qed.

(** Visiting the keys of the map in any order empties it. *)
Lemma releaseAll_all (order : list string) (s : S) :
  noFalse (pk s) → order ≡ₚ elements (dom (pk s)) →
  NoDup order ∧
  callsOf (releaseAll pk setpk order) s = KeyUp <$> order ∧
  pk (stateOf (releaseAll pk setpk order) s) = ∅.
Proof using pk_set.
  intros Hnf Hperm.
  assert (NoDup order) as Hnd by (rewrite Hperm; apply NoDup_elements).
  assert (∀ k, k ∈ order ↔ is_Some (pk s !! k)) as Hin.
  { intros k. by rewrite Hperm, elem_of_elements, elem_of_dom. }
  destruct (releaseAll_exec order s Hnd) as [Hc Hs].
  { intros k [[] Hk]%Hin; [done|]. by destruct (Hnf k). }
  split; [done|]. split; [done|].
  apply map_eq. intros k. rewrite Hs, lookup_empty.
  case_decide as Hk; [done|]. rewrite Hin in Hk.
  by apply eq_None_not_Some.
Qed.

End KeysFacts2.

(** *** Counting calls *)

Lemma keyDowns_cons (k : string) (e : Event) (l : list Event) :
  keyDowns k (e :: l) =
  ((if decide (e = KeyDown k) then 1 else 0) + keyDowns k l)%nat.
Proof.
  unfold keyDowns. rewrite filter_cons. by case_decide.
Qed.

Lemma keyUps_cons (k : string) (e : Event) (l : list Event) :
  keyUps k (e :: l) =
  ((if decide (e = KeyUp k) then 1 else 0) + keyUps k l)%nat.
Proof.
  unfold keyUps. rewrite filter_cons. by case_decide.
Qed.

Lemma keyDowns_app (k : string) (l1 l2 : list Event) :
  keyDowns k (l1 ++ l2) = (keyDowns k l1 + keyDowns k l2)%nat.
Proof. unfold keyDowns. by rewrite filter_app, length_app. Qed.

Lemma keyUps_app (k : string) (l1 l2 : list Event) :
  keyUps k (l1 ++ l2) = (keyUps k l1 + keyUps k l2)%nat.
Proof. unfold keyUps. by rewrite filter_app, length_app. Qed.

(** A sequence of updates of distinct keys issues one keyDown for a key
    driven to [true] that was not held, and none otherwise. *)
Lemma keyDowns_keyCall (m : gmap string bool) (ops : list (string * bool))
    (k : string) :
  NoDup ops.*1 →
  keyDowns k (omap (keyCall m) ops) =
  if bool_decide ((k, true) ∈ ops) && negb (index m k) then 1%nat else 0%nat.
Proof.
  induction ops as [|[k' b'] ops IH]; intros Hnd; [done|].
  apply NoDup_cons in Hnd as [Hnotin Hnd]. specialize (IH Hnd).
  rewrite omap_cons. unfold keyCall at 1. simpl.
  destruct (decide (k' = k)) as [->|Hne].
  - assert (bool_decide ((k, true) ∈ ops) = false) as Hout.
    { apply bool_decide_eq_false. intros Hin. apply Hnotin.
      by apply (list_elem_of_fmap_2 fst) in Hin. }
    rewrite Hout in IH. simpl in IH.
    assert (bool_decide ((k, true) ∈ (k, b') :: ops) = b') as ->.
    { destruct b'.
      - apply bool_decide_eq_true. apply list_elem_of_here.
      - apply bool_decide_eq_false. rewrite elem_of_cons.
        intros [?|Hin]; [done|].
        apply Hnotin. by apply (list_elem_of_fmap_2 fst) in Hin. }
    destruct b', (index m k); simpl; rewrite ?keyDowns_cons, ?IH; try done.
    by rewrite decide_True.
  - assert (bool_decide ((k, true) ∈ (k', b') :: ops)
            = bool_decide ((k, true) ∈ ops)) as ->.
    { apply bool_decide_ext. rewrite elem_of_cons. split; [|by right].
      intros [?|?]; [congruence|done]. }
    destruct (Bool.eqb (index m k') b'); [done|].
    rewrite keyDowns_cons, IH.
    rewrite decide_False; [done|]. destruct b'; congruence.
Qed.

Lemma keyUps_keyCall (m : gmap string bool) (ops : list (string * bool))
    (k : string) :
  NoDup ops.*1 →
  keyUps k (omap (keyCall m) ops) =
  if bool_decide ((k, false) ∈ ops) && index m k then 1%nat else 0%nat.
Proof.
  induction ops as [|[k' b'] ops IH]; intros Hnd; [done|].
  apply NoDup_cons in Hnd as [Hnotin Hnd]. specialize (IH Hnd).
  rewrite omap_cons. unfold keyCall at 1. simpl.
  destruct (decide (k' = k)) as [->|Hne].
  - assert (bool_decide ((k, false) ∈ ops) = false) as Hout.
    { apply bool_decide_eq_false. intros Hin. apply Hnotin.
      by apply (list_elem_of_fmap_2 fst) in Hin. }
    rewrite Hout in IH. simpl in IH.
    assert (bool_decide ((k, false) ∈ (k, b') :: ops) = negb b') as ->.
    { destruct b'.
      - apply bool_decide_eq_false. rewrite elem_of_cons.
        intros [?|Hin]; [done|].
        apply Hnotin. by apply (list_elem_of_fmap_2 fst) in Hin.
      - apply bool_decide_eq_true. apply list_elem_of_here. }
    destruct b', (index m k); simpl; rewrite ?keyUps_cons, ?IH; try done.
    by rewrite decide_True.
  - assert (bool_decide ((k, false) ∈ (k', b') :: ops)
            = bool_decide ((k, false) ∈ ops)) as ->.
    { apply bool_decide_ext. rewrite elem_of_cons. split; [|by right].
      intros [?|?]; [congruence|done]. }
    destruct (Bool.eqb (index m k') b'); [done|].
    rewrite keyUps_cons, IH.
    rewrite decide_False; [done|]. destruct b'; congruence.
Qed.

(** ** The key map mirrors the emitter *)

Lemma heldAfter_app (hist calls : list Event) (key : string) :
  heldAfter (hist ++ calls) key =
  foldl (λ held e,
    match e with
    | KeyDown k => if decide (k = key) then true else held
    | KeyUp k => if decide (k = key) then false else held
    | _ => held
    end) (heldAfter hist key) calls.
Proof. unfold heldAfter. by rewrite foldl_app. Qed.

Lemma heldAfter_snoc (hist : list Event) (e : Event) (key : string) :
  heldAfter (hist ++ [e]) key =
  match e with
  | KeyDown k => if decide (k = key) then true else heldAfter hist key
  | KeyUp k => if decide (k = key) then false else heldAfter hist key
  | _ => heldAfter hist key
  end.
Proof. by rewrite heldAfter_app. Qed.

(** The boolean reading of the history is the claim's wording. *)
Lemma heldAfter_toldDown (hist : list Event) (key : string) :
  heldAfter hist key = true ↔ toldDown hist key.
Proof.
  induction hist as [|e hist IH] using rev_ind.
  - split; [done|]. intros (before & after & H & _).
    by destruct before.
  - rewrite heldAfter_snoc. split.
    + intros H.
      assert (e = KeyDown key ∨ (e ≠ KeyUp key ∧ heldAfter hist key = true))
        as [->|[Hne Hh]].
      { destruct e; try (right; by split); case_decide; subst; auto;
          try done; right; split; try done; congruence. }
      * exists hist, []. split; [done|]. by apply not_elem_of_nil.
      * apply IH in Hh as (before & after & -> & Hno).
        exists before, (after ++ [e]). split; [by rewrite <- app_assoc|].
        rewrite elem_of_app, list_elem_of_singleton. intros [?|?]; auto.
    + intros (before & after & Heq & Hno).
      destruct after as [|a after _] using rev_ind.
      * apply app_inj_tail in Heq as [_ ->]. by rewrite decide_True.
      * rewrite app_comm_cons, app_assoc in Heq.
        apply app_inj_tail in Heq as [Hhist He]. subst hist a.
        assert (heldAfter (before ++ KeyDown key :: after) key = true) as Hh.
        { apply IH. exists before, after. split; [done|].
          intros Hin. apply Hno. apply elem_of_app. by left. }
        rewrite Hh. destruct e; try done.
        { by case_decide. }
        case_decide; [|done]. subst. exfalso. apply Hno.
        apply elem_of_app. right. by apply list_elem_of_singleton.
Qed.

Lemma mirrors_member (m : gmap string bool) (hist : list Event) (k : string) :
  mirrors m hist → (is_Some (m !! k) ↔ toldDown hist k).
Proof.
  intros [Htrue Hidx]. rewrite <- heldAfter_toldDown, <- Hidx.
  unfold index. specialize (Htrue k).
  destruct (m !! k) as [[]|]; simpl; split; done.
Qed.

Lemma mirrors_index (m : gmap string bool) (hist : list Event) (k : string) :
  mirrors m hist → (index m k = true ↔ is_Some (m !! k)).
Proof.
  intros [Htrue _]. unfold index. specialize (Htrue k).
  destruct (m !! k) as [[]|]; simpl; split; done.
Qed.

Lemma mirrors_nil : mirrors ∅ [].
Proof. split; intros k; by rewrite ?lookup_empty. Qed.

Lemma mirrors_invariant : KeyInvariant mirrors.
Proof.
  split.
  - intros m hist key [Htrue Hidx] E. split.
    + intros k. rewrite lookup_insert. case_decide; [done|apply Htrue].
    + intros k. rewrite index_insert_true, heldAfter_snoc, <- Hidx.
      by repeat case_decide.
  - intros m hist key [Htrue Hidx] E. split.
    + intros k. rewrite lookup_delete. case_decide; [done|apply Htrue].
    + intros k. rewrite index_delete, heldAfter_snoc, <- Hidx.
      by repeat case_decide.
  - intros m hist e He [Htrue Hidx]. split; [done|]. intros k.
    rewrite heldAfter_snoc, Hidx. by destruct e.
Qed.

Lemma noFalse_invariant : KeyInvariant (λ m _, noFalse m).
Proof.
  split.
  - intros m _ key H _ k. rewrite lookup_insert. case_decide; [done|apply H].
  - intros m _ key H _ k. rewrite lookup_delete. case_decide; [done|apply H].
  - done.
Qed.

Section Discipline.
Context {S : Type}.
Variable pk : S → gmap string bool.
Variable setpk : gmap string bool → S → S.
Hypothesis pk_set : ∀ m s, pk (setpk m s) = m.
Variable I : gmap string bool → list Event → Prop.
Hypothesis HI : KeyInvariant I.

Lemma preserves_ret {A} (a : A) : Preserves pk I (mret a : M S A).
Proof. intros s hist H. by rewrite app_nil_r. Qed.

Lemma preserves_bind {A B} (c : M S A) (f : A → M S B) :
  Preserves pk I c → (∀ a, Preserves pk I (f a)) → Preserves pk I (c ≫= f).
Proof.
  intros Hc Hf s hist H. rewrite stateOf_bind, callsOf_bind, app_assoc.
  by apply Hf, Hc.
Qed.

Lemma preserves_get : Preserves pk I (get : M S S).
Proof. intros s hist H. by rewrite app_nil_r. Qed.

Lemma preserves_modify (f : S → S) :
  (∀ s, pk (f s) = pk s) → Preserves pk I (modify f).
Proof.
  intros Hf s hist H. rewrite app_nil_r.
  change (stateOf (modify f) s) with (f s). by rewrite Hf.
Qed.

Lemma preserves_emit (e : Event) :
  eventKey e = None → Preserves pk I (emit e : M S unit).
Proof using HI. intros He s hist H. by apply (inv_other I HI). Qed.

Lemma preserves_pressKey (key : string) :
  Preserves pk I (pressKey pk setpk key).
Proof using pk_set HI.
  intros s hist H.
  pose proof (pressKey_exec pk setpk key s) as E. unfold exec in E.
  destruct (index (pk s) key) eqn:Ei; injection E as -> ->.
  { by rewrite app_nil_r. }
  rewrite pk_set. by apply (inv_insert I HI).
Qed.

Lemma preserves_releaseKey (key : string) :
  Preserves pk I (releaseKey pk setpk key).
Proof using pk_set HI.
  intros s hist H.
  pose proof (releaseKey_exec pk setpk key s) as E. unfold exec in E.
  destruct (index (pk s) key) eqn:Ei; injection E as -> ->.
  2: { by rewrite app_nil_r. }
  rewrite pk_set. by apply (inv_delete I HI).
Qed.

Lemma preserves_forEach {A} (body : A → M S unit) (order : list A) :
  (∀ a, Preserves pk I (body a)) → Preserves pk I (forEach body order).
Proof.
  intros Hb. induction order as [|a order IH]; simpl.
  - apply preserves_ret.
  - apply preserves_bind; auto.
Qed.

Lemma preserves_releaseAll (order : list string) :
  Preserves pk I (releaseAll pk setpk order).
Proof using pk_set HI.
  apply preserves_forEach. intros key.
  apply preserves_bind; [apply preserves_get|]. intros cm.
  case_decide; [apply preserves_releaseKey|apply preserves_ret].
Qed.

End Discipline.

(** Decompose a computation of the engine into the steps above. *)
Ltac preserve pkset HI :=
  repeat first
    [ apply preserves_ret
    | apply preserves_get
    | apply (preserves_pressKey _ _ pkset _ HI)
    | apply (preserves_releaseKey _ _ pkset _ HI)
    | apply (preserves_releaseAll _ _ pkset _ HI)
    | apply preserves_modify; intros ?; reflexivity
    | apply (preserves_emit _ _ HI); reflexivity
    | apply preserves_forEach; intros ?
    | apply preserves_bind; [|intros ?]
    | match goal with
      | |- Preserves _ _ (if ?b then _ else _) => destruct b
      | |- Preserves _ _ (let '(_, _) := ?p in _) => destruct p
      | |- Preserves _ _ (match ?x with _ => _ end) => destruct x
      end ].

Lemma forEach_fmap {S A B} (body : A → M S unit) (body' : B → M S unit)
    (h : A → B) :
  (∀ a s, body a s = body' (h a) s) →
  ∀ l s, forEach body l s = forEach body' (h <$> l) s.
Proof.
  intros H l. induction l as [|a l IH]; intros s; [done|].
  simpl. rewrite !run_bind.
  unfold resultOf, stateOf, callsOf. by rewrite H, IH.
Qed.

Lemma bind_ret_unit {S} (c : M S unit) (s : S) : (c ;; mret tt) s = c s.
Proof.
  rewrite run_bind. unfold resultOf, stateOf, callsOf.
  destruct (c s) as [[[] s1] o]. simpl. by rewrite app_nil_r.
Qed.

(** ** Variant A *)

Module AFacts.
Import VariantA.

Abbreviation setKeysA := (setKeys pressedKeys setPressedKeys).

Lemma pk_set_A (m : gmap string bool) (cm : ControllerMapper) :
  pressedKeys (setPressedKeys m cm) = m.
Proof. reflexivity. Qed.

Lemma handleButtons_levels_A (s : Snapshot) (order : list (Z * string)) cm :
  handleButtons s order cm = setKeysA (buttonLevels s order) cm.
Proof.
  unfold handleButtons, setKeys, buttonLevels.
  apply forEach_fmap. intros [button key] s'. simpl.
  by destruct (Button s button =? 1).
Qed.

Lemma handleTriggers_levels_A (s : Snapshot) cm :
  handleTriggers s cm = setKeysA (triggerLevelsA s) cm.
Proof.
  change (handleTriggers s) with
    (setKey pressedKeys setPressedKeys "a"
       (Axis s L2_AXIS >? TRIGGER_THRESHOLD) ;;
     setKey pressedKeys setPressedKeys "s"
       (Axis s R2_AXIS >? TRIGGER_THRESHOLD)).
  change (setKeysA (triggerLevelsA s)) with
    (setKey pressedKeys setPressedKeys "a"
       (Axis s L2_AXIS >? TRIGGER_THRESHOLD) ;;
     (setKey pressedKeys setPressedKeys "s"
       (Axis s R2_AXIS >? TRIGGER_THRESHOLD) ;; mret tt)).
  rewrite !(run_bind (setKey _ _ "a" _)).
  unfold resultOf, stateOf, callsOf. by rewrite !bind_ret_unit.
Qed.

(** *** [handleAnalogDirection], case by case *)

Lemma keyMap_direction (d : string) :
  d ∈ directionKeys → default "" (keyMap !! d) = d.
Proof.
  unfold directionKeys. rewrite !elem_of_cons, elem_of_nil.
  intros [->|[->|[->|[->|[]]]]]; reflexivity.
Qed.

(** Idle and not active: nothing happens. *)
Lemma handleAnalogDirection_idle now d cm :
  index (analogState cm) d = false →
  exec (handleAnalogDirection now d false) cm = (cm, []).
Proof.
  intros H. unfold exec, handleAnalogDirection.
  rewrite stateOf_bind, callsOf_bind.
  change (resultOf get cm) with cm. change (stateOf get cm) with cm.
  by rewrite H.
Qed.

(** Active and inside the delay: nothing happens. *)
Lemma handleAnalogDirection_wait now d cm :
  index (analogState cm) d = true →
  timeSub now (default zeroTime (lastAnalogPress cm !! d)) < initialDelay cm →
  exec (handleAnalogDirection now d true) cm = (cm, []).
Proof.
  intros H Hlt. unfold exec, handleAnalogDirection.
  rewrite stateOf_bind, callsOf_bind.
  change (resultOf get cm) with cm. change (stateOf get cm) with cm.
  rewrite H. simpl.
  destruct (Z.geb_spec (timeSub now (default zeroTime (lastAnalogPress cm !! d)))
              (initialDelay cm)); [lia|done].
Qed.

(** Idle to active: press, mark the direction, record the instant. *)
Lemma handleAnalogDirection_first now d cm :
  d ∈ directionKeys →
  index (analogState cm) d = false →
  exec (handleAnalogDirection now d true) cm =
  (setLastAnalogPress (<[d := now]> (lastAnalogPress cm))
     (setAnalogState (<[d := true]> (analogState cm))
        (stateOf (pressKey d) cm)),
   callsOf (pressKey d) cm).
Proof.
  intros Hd H. unfold exec, handleAnalogDirection.
  rewrite keyMap_direction by done.
  rewrite stateOf_bind, callsOf_bind.
  change (resultOf get cm) with cm. change (stateOf get cm) with cm.
  rewrite H. simpl. rewrite !stateOf_bind, !callsOf_bind. simpl.
  pose proof (pressKey_exec pressedKeys setPressedKeys d cm) as E.
  unfold exec in E. fold (pressKey d) in E.
  destruct (index (pressedKeys cm) d); injection E as E1 E2;
    rewrite E1, E2; by rewrite ?app_nil_r.
Qed.

(** Active and the delay elapsed: release, press, move the instant. *)
Lemma handleAnalogDirection_repeat now d cm :
  d ∈ directionKeys →
  index (analogState cm) d = true →
  initialDelay cm ≤ timeSub now (default zeroTime (lastAnalogPress cm !! d)) →
  exec (handleAnalogDirection now d true) cm =
  (setLastAnalogPress
     (<[d := timeAdd now (- initialDelay cm + repeatDelay cm)]>
        (lastAnalogPress cm))
     (setPressedKeys (<[d := true]> (pressedKeys cm)) cm),
   (if index (pressedKeys cm) d then [KeyUp d] else []) ++ [KeyDown d]).
Proof.
  intros Hd H Hge. unfold exec, handleAnalogDirection.
  rewrite keyMap_direction by done.
  rewrite stateOf_bind, callsOf_bind.
  change (resultOf get cm) with cm. change (stateOf get cm) with cm.
  rewrite H. simpl.
  destruct (Z.geb_spec (timeSub now (default zeroTime (lastAnalogPress cm !! d)))
              (initialDelay cm)); [|lia].
  rewrite !stateOf_bind, !callsOf_bind.
  pose proof (releaseKey_exec pressedKeys setPressedKeys d cm) as E.
  unfold exec in E. fold (releaseKey d) in E.
  destruct (index (pressedKeys cm) d) eqn:Ei; injection E as E1 E2;
    rewrite E1, E2.
  - pose proof (pressKey_exec pressedKeys setPressedKeys d
                  (setPressedKeys (delete d (pressedKeys cm)) cm)) as E.
    unfold exec in E. fold (pressKey d) in E. simpl in E.
    rewrite index_delete, decide_True in E by done.
    injection E as E3 E4. rewrite E3, E4. simpl.
    unfold setLastAnalogPress, setPressedKeys. simpl.
    by rewrite insert_delete_eq.
  - pose proof (pressKey_exec pressedKeys setPressedKeys d cm) as E.
    unfold exec in E. fold (pressKey d) in E. rewrite Ei in E.
    injection E as E3 E4. by rewrite E3, E4.
Qed.

(** Active to idle: release, clear the mark and the instant. *)
Lemma handleAnalogDirection_release now d cm :
  d ∈ directionKeys →
  index (analogState cm) d = true →
  exec (handleAnalogDirection now d false) cm =
  (setLastAnalogPress (delete d (lastAnalogPress cm))
     (setAnalogState (<[d := false]> (analogState cm))
        (stateOf (releaseKey d) cm)),
   callsOf (releaseKey d) cm).
Proof.
  intros Hd H. unfold exec, handleAnalogDirection.
  rewrite keyMap_direction by done.
  rewrite stateOf_bind, callsOf_bind.
  change (resultOf get cm) with cm. change (stateOf get cm) with cm.
  rewrite H. simpl. rewrite !stateOf_bind, !callsOf_bind. simpl.
  pose proof (releaseKey_exec pressedKeys setPressedKeys d cm) as E.
  unfold exec in E. fold (releaseKey d) in E.
  destruct (index (pressedKeys cm) d); injection E as E1 E2;
    rewrite E1, E2; by rewrite ?app_nil_r.
Qed.

(** *** What [handleAnalogDirection] leaves alone *)

Lemma handleAnalogDirection_cases now d b cm :
  d ∈ directionKeys →
  exec (handleAnalogDirection now d b) cm = (cm, []) ∨
  (∃ las ast, exec (handleAnalogDirection now d b) cm =
     (setLastAnalogPress las (setAnalogState ast (stateOf (pressKey d) cm)),
      callsOf (pressKey d) cm)) ∨
  (∃ las ast, exec (handleAnalogDirection now d b) cm =
     (setLastAnalogPress las (setAnalogState ast (stateOf (releaseKey d) cm)),
      callsOf (releaseKey d) cm)) ∨
  (∃ las, exec (handleAnalogDirection now d b) cm =
     (setLastAnalogPress las
        (setPressedKeys (<[d := true]> (pressedKeys cm)) cm),
      (if index (pressedKeys cm) d then [KeyUp d] else []) ++ [KeyDown d])).
Proof.
  intros Hd. destruct b, (index (analogState cm) d) eqn:E.
  - destruct (Z_lt_ge_dec
      (timeSub now (default zeroTime (lastAnalogPress cm !! d)))
      (initialDelay cm)).
    + left. by apply handleAnalogDirection_wait.
    + right; right; right. eexists.
      apply handleAnalogDirection_repeat; [done..|lia].
  - right; left. eexists _, _. by apply handleAnalogDirection_first.
  - right; right; left. eexists _, _. by apply handleAnalogDirection_release.
  - left. by apply handleAnalogDirection_idle.
Qed.

Lemma handleAnalogDirection_index now d b cm k :
  d ∈ directionKeys → k ≠ d →
  index (pressedKeys (stateOf (handleAnalogDirection now d b) cm)) k =
  index (pressedKeys cm) k.
Proof.
  intros Hd Hk.
  destruct (handleAnalogDirection_cases now d b cm Hd)
    as [E|[(las & ast & E)|[(las & ast & E)|(las & E)]]];
    apply (f_equal fst) in E; simpl in E; rewrite E; simpl.
  - done.
  - change (pressKey d) with (setKey pressedKeys setPressedKeys d true).
    rewrite (setKey_index _ _ pk_set_A). by rewrite decide_False.
  - change (releaseKey d) with (setKey pressedKeys setPressedKeys d false).
    rewrite (setKey_index _ _ pk_set_A). by rewrite decide_False.
  - rewrite index_insert_true. by rewrite decide_False.
Qed.

Lemma handleAnalogDirection_about now d b cm :
  d ∈ directionKeys →
  Forall (aboutKeys directionKeys)
    (callsOf (handleAnalogDirection now d b) cm).
Proof.
  intros Hd.
  assert (∀ e, eventKey e = Some d → aboutKeys directionKeys e) as Hab.
  { intros e He. by exists d. }
  destruct (handleAnalogDirection_cases now d b cm Hd)
    as [E|[(las & ast & E)|[(las & ast & E)|(las & E)]]];
    apply (f_equal snd) in E; simpl in E; rewrite E.
  - constructor.
  - change (pressKey d) with (setKey pressedKeys setPressedKeys d true).
    rewrite setKey_calls. destruct (keyCall _ _) as [e|] eqn:Ek; [|constructor].
    unfold keyCall in Ek. simpl in Ek. destruct (Bool.eqb _ _); [done|].
    injection Ek as <-. repeat constructor. by apply Hab.
  - change (releaseKey d) with (setKey pressedKeys setPressedKeys d false).
    rewrite setKey_calls. destruct (keyCall _ _) as [e|] eqn:Ek; [|constructor].
    unfold keyCall in Ek. simpl in Ek. destruct (Bool.eqb _ _); [done|].
    injection Ek as <-. repeat constructor. by apply Hab.
  - destruct (index (pressedKeys cm) d); repeat constructor; by apply Hab.
Qed.

(** *** [handleAnalogStick] *)

Lemma handleAnalogStick_index clk x y cm k :
  k ∉ directionKeys →
  index (pressedKeys (stateOf (handleAnalogStick clk x y) cm)) k =
  index (pressedKeys cm) k.
Proof.
  intros Hk. unfold directionKeys in Hk.
  rewrite !not_elem_of_cons in Hk. destruct Hk as (Hu & Hd & Hl & Hr & _).
  unfold handleAnalogStick. rewrite !stateOf_bind.
  rewrite !handleAnalogDirection_index; try done;
    unfold directionKeys; rewrite !elem_of_cons; auto.
Qed.

Lemma handleAnalogStick_about clk x y cm :
  Forall (aboutKeys directionKeys) (callsOf (handleAnalogStick clk x y) cm).
Proof.
  unfold handleAnalogStick. rewrite !callsOf_bind, !Forall_app.
  repeat split; apply handleAnalogDirection_about;
    unfold directionKeys; rewrite !elem_of_cons; auto.
Qed.

(** With the stick at rest and no direction marked active, the stick
    handler does nothing. *)
Lemma handleAnalogStick_rest clk x y cm :
  - 8000 ≤ x ≤ 8000 → - 8000 ≤ y ≤ 8000 →
  (∀ d, d ∈ directionKeys → index (analogState cm) d = false) →
  exec (handleAnalogStick clk x y) cm = (cm, []).
Proof.
  intros Hx Hy Hidle. unfold exec, handleAnalogStick.
  assert ((x >? deadzone) = false) as -> by (unfold deadzone; lia).
  assert ((x <? - deadzone) = false) as -> by (unfold deadzone; lia).
  assert ((y >? deadzone) = false) as -> by (unfold deadzone; lia).
  assert ((y <? - deadzone) = false) as -> by (unfold deadzone; lia).
  assert (∀ now d, d ∈ directionKeys →
            stateOf (handleAnalogDirection now d false) cm = cm ∧
            callsOf (handleAnalogDirection now d false) cm = []) as Hno.
  { intros now d Hd.
    pose proof (handleAnalogDirection_idle now d cm (Hidle d Hd)) as E.
    by injection E as -> ->. }
  assert (∀ d, d = "right" ∨ d = "left" ∨ d = "down" ∨ d = "up" →
            d ∈ directionKeys) as Hin.
  { intros d Hd. unfold directionKeys. rewrite !elem_of_cons. tauto. }
  destruct (Hno (nowRight clk) "right") as [R1 R2]; [apply Hin; auto|].
  destruct (Hno (nowLeft clk) "left") as [L1 L2]; [apply Hin; auto|].
  destruct (Hno (nowDown clk) "down") as [D1 D2]; [apply Hin; auto|].
  destruct (Hno (nowUp clk) "up") as [U1 U2]; [apply Hin; auto|].
  rewrite !stateOf_bind, !callsOf_bind.
  by rewrite R1, R2, L1, L2, D1, D2, U1, U2.
Qed.

(** *** One pass of the loop *)

Lemma tick_exec_A (t : Tick) cm :
  exec (tick t) cm =
  (stateOf (handleAnalogStick (clock t)
              (Axis (snap t) CONTROLLER_AXIS_LEFTX)
              (Axis (snap t) CONTROLLER_AXIS_LEFTY))
     (stateOf (setKeysA (levelsA (snap t) (buttonOrder t))) cm),
   callsOf (setKeysA (levelsA (snap t) (buttonOrder t))) cm ++
   callsOf (handleAnalogStick (clock t)
              (Axis (snap t) CONTROLLER_AXIS_LEFTX)
              (Axis (snap t) CONTROLLER_AXIS_LEFTY))
     (stateOf (setKeysA (levelsA (snap t) (buttonOrder t))) cm)).
Proof.
  unfold exec, tick, levelsA. rewrite !stateOf_bind, !callsOf_bind.
  pose proof (setKeys_app pressedKeys setPressedKeys
    (buttonLevels (snap t) (buttonOrder t)) (triggerLevelsA (snap t)) cm) as E.
  injection E as -> ->.
  unfold stateOf, callsOf.
  rewrite !handleButtons_levels_A, !handleTriggers_levels_A.
  by rewrite app_assoc.
Qed.

(** *** The levels of one pass *)

Lemma levelsA_perm (s : Snapshot) (order : list (Z * string)) :
  order ≡ₚ buttonMap → levelsA s order ≡ₚ levelsA s buttonMap.
Proof. intros H. unfold levelsA, buttonLevels. by rewrite H. Qed.

Lemma levelsA_keys (s : Snapshot) :
  (levelsA s buttonMap).*1 =
  ["shift"; "space"; "LCTRL"; "x"; "tab"; "k"; "esc"; "3"; "2"; "q"; "w";
   "up"; "down"; "left"; "right"; "a"; "s"].
Proof. reflexivity. Qed.

Lemma levelsA_NoDup (s : Snapshot) (order : list (Z * string)) :
  order ≡ₚ buttonMap → NoDup (levelsA s order).*1.
Proof.
  intros H. rewrite (levelsA_perm s order H), levelsA_keys.
  apply (bool_decide_unpack _). by vm_compute.
Qed.


Lemma tick_rest_settles (t : Tick) cm :
  stickCentred (snap t) →
  (∀ d, d ∈ directionKeys → index (analogState cm) d = false) →
  buttonOrder t ≡ₚ buttonMap →
  (∀ d, d ∈ directionKeys →
        index (analogState (stateOf (tick t) cm)) d = false) ∧
  settled (pressedKeys (stateOf (tick t) cm)) (levelsA (snap t) buttonMap).
Proof.
  intros [Hx Hy] Hidle Hperm.
  pose proof (tick_exec_A t cm) as E. injection E as -> _.
  set (s' := stateOf (setKeysA (levelsA (snap t) (buttonOrder t))) cm).
  assert (analogState s' = analogState cm) as Has
    by (by apply setKeys_frame).
  pose proof (handleAnalogStick_rest (clock t) _ _ s' Hx Hy) as E.
  rewrite Has in E. specialize (E Hidle). injection E as -> _.
  split; [by rewrite Has|].
  apply (settled_perm _ _ _ (levelsA_perm _ _ Hperm)).
  apply (setKeys_settled _ _ pk_set_A). by apply levelsA_NoDup.
Qed.

Lemma tick_othersSettled (t : Tick) cm :
  buttonOrder t ≡ₚ buttonMap → othersSettled (snap t) (stateOf (tick t) cm).
Proof.
  intros Hperm op Hin Hnot.
  pose proof (tick_exec_A t cm) as E. injection E as -> _.
  rewrite handleAnalogStick_index by done.
  apply (setKeys_index_in _ _ pk_set_A); [by apply levelsA_NoDup|].
  by rewrite (levelsA_perm _ _ Hperm).
Qed.


(** *** Every operation maintains a key invariant *)

Section Invariant.
Variable I : gmap string bool → list Event → Prop.
Hypothesis HI : KeyInvariant I.

Lemma preserves_handleAnalogDirection now d b :
  Preserves pressedKeys I (handleAnalogDirection now d b).
Proof using HI. unfold handleAnalogDirection. preserve pk_set_A HI. Qed.

Lemma preserves_handleAnalogStick clk x y :
  Preserves pressedKeys I (handleAnalogStick clk x y).
Proof using HI.
  unfold handleAnalogStick.
  do 3 (apply preserves_bind; [apply preserves_handleAnalogDirection|intros ?]).
  apply preserves_handleAnalogDirection.
Qed.

Lemma preserves_handleButtons_A s order :
  Preserves pressedKeys I (handleButtons s order).
Proof using HI. unfold handleButtons. preserve pk_set_A HI. Qed.

Lemma preserves_handleTriggers_A s :
  Preserves pressedKeys I (handleTriggers s).
Proof using HI. unfold handleTriggers. preserve pk_set_A HI. Qed.

Lemma preserves_tick_A t : Preserves pressedKeys I (tick t).
Proof using HI.
  unfold tick.
  apply preserves_bind; [apply preserves_handleButtons_A|intros ?].
  apply preserves_bind; [apply preserves_handleTriggers_A|intros ?].
  apply preserves_handleAnalogStick.
Qed.

Lemma preserves_loop_A ticks : Preserves pressedKeys I (loop ticks).
Proof using HI.
  induction ticks as [|t ticks IH]; simpl.
  - preserve pk_set_A HI.
  - apply preserves_bind; [apply preserves_get|intros cm].
    destruct (negb (running cm)); [apply preserves_ret|].
    destruct (existsb isQuit (events t)).
    + preserve pk_set_A HI.
    + apply preserves_bind; [apply preserves_tick_A|by intros ?].
Qed.

Lemma preserves_cleanup_A order : Preserves pressedKeys I (cleanup order).
Proof using HI. unfold cleanup. preserve pk_set_A HI. Qed.

Lemma preserves_Run_A ticks order : Preserves pressedKeys I (Run ticks order).
Proof using HI.
  unfold Run. apply preserves_bind; [apply preserves_loop_A|intros how].
  destruct how; try apply preserves_ret;
    (apply preserves_bind; [apply preserves_cleanup_A|intros ?; apply preserves_ret]).
Qed.

End Invariant.

(** The mark of a direction after its handler ran is the [isActive] it
    was called with; the other marks are untouched. *)
Lemma handleAnalogDirection_mark now d b cm d' :
  d ∈ directionKeys →
  index (analogState (stateOf (handleAnalogDirection now d b) cm)) d' =
  if decide (d = d') then b else index (analogState cm) d'.
Proof.
  intros Hd.
  destruct b, (index (analogState cm) d) eqn:E.
  - destruct (Z_lt_ge_dec
      (timeSub now (default zeroTime (lastAnalogPress cm !! d)))
      (initialDelay cm)) as [Hlt|Hge].
    + pose proof (handleAnalogDirection_wait now d cm E Hlt) as Ex.
      apply pair_equal_spec in Ex as [-> _]. case_decide; by subst.
    + pose proof (handleAnalogDirection_repeat now d cm Hd E) as Ex.
      apply pair_equal_spec in Ex as [-> _]; [|lia]. simpl.
      case_decide; by subst.
  - pose proof (handleAnalogDirection_first now d cm Hd E) as Ex.
    apply pair_equal_spec in Ex as [-> _]. simpl.
    by rewrite index_insert.
  - pose proof (handleAnalogDirection_release now d cm Hd E) as Ex.
    apply pair_equal_spec in Ex as [-> _]. simpl.
    by rewrite index_insert.
  - pose proof (handleAnalogDirection_idle now d cm E) as Ex.
    apply pair_equal_spec in Ex as [-> _]. case_decide; by subst.
Qed.

(** After the stick handler, each direction is marked active exactly when
    its axis is strictly beyond the dead zone on its side. *)
Lemma handleAnalogStick_marks clk x y cm :
  index (analogState (stateOf (handleAnalogStick clk x y) cm)) "right"
    = (x >? 8000) ∧
  index (analogState (stateOf (handleAnalogStick clk x y) cm)) "left"
    = (x <? - 8000) ∧
  index (analogState (stateOf (handleAnalogStick clk x y) cm)) "down"
    = (y >? 8000) ∧
  index (analogState (stateOf (handleAnalogStick clk x y) cm)) "up"
    = (y <? - 8000).
Proof.
  assert (∀ d, d = "right" ∨ d = "left" ∨ d = "down" ∨ d = "up" →
            d ∈ directionKeys) as Hin.
  { intros d Hd. unfold directionKeys. rewrite !elem_of_cons. tauto. }
  unfold handleAnalogStick. rewrite !stateOf_bind.
  repeat split;
    repeat (rewrite handleAnalogDirection_mark by (apply Hin; auto);
            case_decide; try done).
Qed.

(** *** The loop and the deferred clean-up *)

Lemma handleAnalogDirection_running now d b cm :
  d ∈ directionKeys →
  running (stateOf (handleAnalogDirection now d b) cm) = running cm.
Proof.
  intros Hd.
  destruct (handleAnalogDirection_cases now d b cm Hd)
    as [E|[(las & ast & E)|[(las & ast & E)|(las & E)]]];
    apply (f_equal fst) in E; simpl in E; rewrite E; simpl; try done.
  - by apply (setKey_frame pressedKeys setPressedKeys running d true).
  - by apply (setKey_frame pressedKeys setPressedKeys running d false).
Qed.

Lemma tick_running_A (t : Tick) cm :
  running (stateOf (tick t) cm) = running cm.
Proof.
  pose proof (tick_exec_A t cm) as E. injection E as -> _.
  unfold handleAnalogStick. rewrite !stateOf_bind.
  rewrite !handleAnalogDirection_running;
    try (unfold directionKeys; rewrite !elem_of_cons; by auto).
  by apply setKeys_frame.
Qed.

(** A quit signal makes the loop return. *)
Lemma loop_quit_A (ticks : list Tick) cm :
  running cm = true → Exists (λ t, quitSeen (events t)) ticks →
  resultOf (loop ticks) cm = Returned.
Proof.
  intros Hrun Hq. revert cm Hrun.
  induction Hq as [t ticks Hq|t ticks _ IH]; intros cm Hrun; simpl;
    rewrite resultOf_bind;
    change (resultOf get cm) with cm; change (stateOf get cm) with cm;
    rewrite Hrun; simpl.
  - unfold quitSeen in Hq. by rewrite Hq.
  - destruct (existsb isQuit (events t)); [done|].
    rewrite resultOf_bind. apply IH. by rewrite tick_running_A.
Qed.

(** Once the loop is left, [Run] performs the deferred clean-up on the
    state the loop ended in, and returns. *)
Lemma Run_exits_A (ticks : list Tick) (order : list string) cm :
  resultOf (loop ticks) cm ≠ StillPolling →
  Run ticks order cm =
  (true,
   stateOf (cleanup order) (stateOf (loop ticks) cm),
   callsOf (loop ticks) cm ++ callsOf (cleanup order) (stateOf (loop ticks) cm)).
Proof.
  intros Hexit. unfold Run. rewrite run_bind.
  destruct (resultOf (loop ticks) cm); try done;
    rewrite !resultOf_bind, !stateOf_bind, !callsOf_bind; simpl;
    by rewrite app_nil_r.
Qed.

Lemma cleanup_exec_A (order : list string) cm :
  noFalse (pressedKeys cm) → order ≡ₚ elements (dom (pressedKeys cm)) →
  NoDup order ∧
  callsOf (cleanup order) cm = (KeyUp <$> order) ++ [ControllerClose; SdlQuit] ∧
  pressedKeys (stateOf (cleanup order) cm) = ∅.
Proof.
  intros Hnf Hperm.
  destruct (releaseAll_all pressedKeys setPressedKeys pk_set_A order cm Hnf Hperm)
    as (Hnd & Hc & Hs).
  split; [done|]. unfold cleanup.
  rewrite !stateOf_bind, !callsOf_bind, Hc. split; [done|]. exact Hs.
Qed.

(** *** Repeat timing *)

Lemma timeSub_ge (t u c : Z) :
  minDuration < c ≤ maxDuration → (c ≤ timeSub t u ↔ c ≤ t - u).
Proof. unfold timeSub. lia. Qed.

Lemma delay_in_range : minDuration < 500 * Millisecond ≤ maxDuration.
Proof. by vm_compute. Qed.

Lemma hold_first now d cm :
  d ∈ directionKeys →
  index (analogState cm) d = false →
  initialDelay cm = 500 * Millisecond → repeatDelay cm = 50 * Millisecond →
  activeSince (stateOf (handleAnalogDirection now d true) cm) d now ∧
  callsOf (handleAnalogDirection now d true) cm =
    if index (pressedKeys cm) d then [] else [KeyDown d].
Proof.
  intros Hd Hidle Hi Hr.
  pose proof (handleAnalogDirection_first now d cm Hd Hidle) as E.
  injection E as -> ->.
  pose proof (pressKey_exec pressedKeys setPressedKeys d cm) as E.
  unfold exec in E. fold (pressKey d) in E.
  unfold activeSince.
  destruct (index (pressedKeys cm) d) eqn:Ei; injection E as -> ->; simpl;
    rewrite ?index_insert_true, ?lookup_insert_eq, ?decide_True by done;
    done.
Qed.

Lemma hold_wait now d cm last :
  activeSince cm d last → now - last < 500 * Millisecond →
  exec (handleAnalogDirection now d true) cm = (cm, []).
Proof.
  intros (Ha & _ & Hi & _ & Hl) Hlt.
  apply handleAnalogDirection_wait; [done|]. rewrite Hl, Hi. simpl.
  pose proof (timeSub_ge now last _ delay_in_range). lia.
Qed.

Lemma hold_repeat now d cm last :
  d ∈ directionKeys →
  activeSince cm d last → 500 * Millisecond ≤ now - last →
  activeSince (stateOf (handleAnalogDirection now d true) cm) d
    (now - 450 * Millisecond) ∧
  callsOf (handleAnalogDirection now d true) cm = [KeyUp d; KeyDown d].
Proof.
  intros Hd (Ha & Hp & Hi & Hr & Hl) Hge.
  pose proof (handleAnalogDirection_repeat now d cm Hd Ha) as E.
  rewrite Hl, Hi in E. simpl in E.
  rewrite (timeSub_ge now last _ delay_in_range) in E.
  specialize (E Hge). injection E as -> ->.
  rewrite Hp. split; [|done]. unfold activeSince. simpl.
  rewrite index_insert_true, lookup_insert_eq, decide_True by done.
  repeat split; try done.
  f_equal. unfold timeAdd. rewrite Hr. lia.
Qed.

Lemma mod5_succ (x : Z) :
  ((x + 1) mod 5 = 0 ∧ x mod 5 = 4) ∨
  ((x + 1) mod 5 = x mod 5 + 1 ∧ 0 ≤ x mod 5 < 4).
Proof.
  rewrite (Z.add_mod x 1 5) by done.
  pose proof (Z.mod_pos_bound x 5 eq_refl) as Hr.
  remember (x mod 5) as r eqn:Er. clear Er.
  assert (r = 0 ∨ r = 1 ∨ r = 2 ∨ r = 3 ∨ r = 4)
    as [->|[->|[->|[->| ->]]]] by lia; vm_compute; intuition congruence.
Qed.

(** Calls every 10 ms from a fresh mapper: the recorded instant. *)
Lemma hold10_state d (n : nat) :
  d ∈ directionKeys →
  activeSince (stateOf (holdAt d (every 10 (S n))) newMapper) d
    (if (Z.of_nat n <? 50) then 0
     else (10 * (Z.of_nat n - Z.of_nat n mod 5) - 450) * Millisecond).
Proof.
  intros Hd. induction n as [|n IH].
  - unfold holdAt, every. simpl. rewrite stateOf_bind.
    change (stateOf (mret tt) ?s) with s.
    by apply hold_first.
  - unfold holdAt, every in *. rewrite seq_S, fmap_app, stateOf_forEach_app.
    set (cm := stateOf (forEach _ _) newMapper) in *.
    change (seq (0 + S n) 1) with [S n]. rewrite list_fmap_singleton.
    rewrite stateOf_forEach_single. cbv beta.
    change (0 + S n)%nat with (S n).
    set (now := 10 * Millisecond * Z.of_nat (S n)).
    destruct (Z.ltb_spec (Z.of_nat n) 50) as [Hn|Hn].
    + destruct (Z.ltb_spec (Z.of_nat (S n)) 50) as [Hn'|Hn'].
      * pose proof (hold_wait now d cm 0 IH) as E.
        apply (f_equal fst) in E; [|unfold now, Millisecond; lia].
        simpl in E. by rewrite E.
      * destruct (hold_repeat now d cm 0 Hd IH) as [H _].
        { unfold now, Millisecond. lia. }
        assert (Z.of_nat (S n) = 50) as Hx by lia.
        replace ((10 * (Z.of_nat (S n) - Z.of_nat (S n) mod 5) - 450)
                 * Millisecond) with (now - 450 * Millisecond); [done|].
        unfold now. rewrite Hx. reflexivity.
    + destruct (Z.ltb_spec (Z.of_nat (S n)) 50) as [Hn'|Hn']; [lia|].
      assert (Z.of_nat (S n) = Z.of_nat n + 1) as Hx by lia.
      subst now. rewrite !Hx. clear Hx Hn'.
      remember (Z.of_nat n) as x eqn:Ex. clear Ex.
      set (now := 10 * Millisecond * (x + 1)).
      remember ((x + 1) mod 5) as r' eqn:Er'.
      remember (x mod 5) as r eqn:Er.
      destruct (mod5_succ x) as [[Hm Hr]|[Hm Hr]];
        rewrite <- Er', <- ?Er in Hm; rewrite <- Er in Hr; clear Er Er'.
      * destruct (hold_repeat now d cm _ Hd IH) as [H _].
        { unfold now, Millisecond. lia. }
        replace ((10 * (x + 1 - r') - 450) * Millisecond)
          with (now - 450 * Millisecond); [done|].
        unfold now, Millisecond. lia.
      * pose proof (hold_wait now d cm _ IH) as E.
        apply (f_equal fst) in E; [|unfold now, Millisecond; lia].
        simpl in E. rewrite E.
        replace (x + 1 - r') with (x - r) by lia.
        done.
Qed.

(** Calls every 10 ms from a fresh mapper: what the call at [10 * n] ms
    issues. *)
Lemma hold10_calls d (n : nat) :
  d ∈ directionKeys →
  callsOf (handleAnalogDirection (10 * Millisecond * Z.of_nat n) d true)
    (stateOf (holdAt d (every 10 n)) newMapper) =
  if (Z.of_nat n =? 0) then [KeyDown d]
  else if (50 <=? Z.of_nat n) && (Z.of_nat n mod 5 =? 0)
       then [KeyUp d; KeyDown d] else [].
Proof.
  intros Hd. destruct n as [|n].
  { change (stateOf (holdAt d (every 10 0)) newMapper) with newMapper.
    by destruct (hold_first (10 * Millisecond * Z.of_nat 0) d newMapper Hd)
      as [_ ->]. }
  pose proof (hold10_state d n Hd) as Hact.
  set (cm := stateOf (holdAt d (every 10 (S n))) newMapper) in *.
  assert (Z.of_nat (S n) = Z.of_nat n + 1) as Hx by lia.
  rewrite !Hx. clear Hx.
  remember (Z.of_nat n) as x eqn:Ex.
  assert (0 ≤ x) as Hx0 by lia. clear Ex.
  set (now := 10 * Millisecond * (x + 1)).
  destruct (Z.eqb_spec (x + 1) 0) as [?|_]; [lia|].
  destruct (Z.ltb_spec x 50) as [Hn|Hn].
  - destruct (Z.leb_spec 50 (x + 1)) as [Hn'|Hn'].
    + assert (x = 49) as -> by lia. simpl.
      by destruct (hold_repeat now d cm 0 Hd Hact) as [_ ->].
    + simpl. pose proof (hold_wait now d cm 0 Hact) as E.
      apply (f_equal snd) in E; [done|unfold now, Millisecond; lia].
  - destruct (Z.leb_spec 50 (x + 1)) as [_|?]; [|lia]. simpl.
    remember ((x + 1) mod 5) as r' eqn:Er'.
    remember (x mod 5) as r eqn:Er.
    destruct (mod5_succ x) as [[Hm Hr]|[Hm Hr]];
      rewrite <- Er', <- ?Er in Hm; rewrite <- Er in Hr; clear Er Er'.
    + subst r'. simpl.
      destruct (hold_repeat now d cm _ Hd Hact) as [_ ->]; [|done].
      unfold now, Millisecond. lia.
    + destruct (Z.eqb_spec r' 0) as [?|_]; [lia|].
      pose proof (hold_wait now d cm _ Hact) as E.
      apply (f_equal snd) in E; [done|unfold now, Millisecond; lia].
Qed.

End AFacts.

(** ** Variant B *)

Module BFacts.
Import VariantB.

Abbreviation setKeysB := (setKeys pressedKeys setPressedKeys).

Lemma pk_set_B (m : gmap string bool) (cm : ControllerMapper) :
  pressedKeys (setPressedKeys m cm) = m.
Proof. reflexivity. Qed.

(** *** The direction mask *)

Lemma hasDirection_lor (m b c : Z) :
  hasDirection (Z.lor m b) c = hasDirection m c || hasDirection b c.
Proof.
  unfold hasDirection. rewrite Z.land_lor_distr_l.
  destruct (Z.eqb_spec (Z.land m c) 0) as [Hm|Hm],
    (Z.eqb_spec (Z.land b c) 0) as [Hb|Hb]; simpl;
    destruct (Z.eqb_spec (Z.lor (Z.land m c) (Z.land b c)) 0) as [H|H];
    try done; try (apply Z.lor_eq_0_iff in H; tauto).
  exfalso. apply H. apply Z.lor_eq_0_iff. done.
Qed.

(** The stick block adds a bit exactly when the axis is strictly beyond
    the dead zone on that side. *)
Lemma stickDirection_bits (x y d : Z) :
  hasDirection (stickDirection x y d) DIR_UP
    = hasDirection d DIR_UP || (y <? - 8000) ∧
  hasDirection (stickDirection x y d) DIR_DOWN
    = hasDirection d DIR_DOWN || (8000 <? y) ∧
  hasDirection (stickDirection x y d) DIR_LEFT
    = hasDirection d DIR_LEFT || (x <? - 8000) ∧
  hasDirection (stickDirection x y d) DIR_RIGHT
    = hasDirection d DIR_RIGHT || (8000 <? x).
Proof.
  unfold stickDirection, analogDeadzone. rewrite !Z.gtb_ltb.
  change (- (8000)) with (-8000).
  destruct (Z.ltb_spec 8000 (Z.abs x)), (Z.ltb_spec 8000 (Z.abs y)),
    (Z.ltb_spec 8000 x), (Z.ltb_spec x (-8000)),
    (Z.ltb_spec 8000 y), (Z.ltb_spec y (-8000));
    try lia; simpl; rewrite ?hasDirection_lor;
    change (hasDirection DIR_UP DIR_UP) with true;
    change (hasDirection DIR_DOWN DIR_DOWN) with true;
    change (hasDirection DIR_LEFT DIR_LEFT) with true;
    change (hasDirection DIR_RIGHT DIR_RIGHT) with true;
    change (hasDirection DIR_UP DIR_DOWN) with false;
    change (hasDirection DIR_UP DIR_LEFT) with false;
    change (hasDirection DIR_UP DIR_RIGHT) with false;
    change (hasDirection DIR_DOWN DIR_UP) with false;
    change (hasDirection DIR_DOWN DIR_LEFT) with false;
    change (hasDirection DIR_DOWN DIR_RIGHT) with false;
    change (hasDirection DIR_LEFT DIR_UP) with false;
    change (hasDirection DIR_LEFT DIR_DOWN) with false;
    change (hasDirection DIR_LEFT DIR_RIGHT) with false;
    change (hasDirection DIR_RIGHT DIR_UP) with false;
    change (hasDirection DIR_RIGHT DIR_DOWN) with false;
    change (hasDirection DIR_RIGHT DIR_LEFT) with false;
    rewrite ?orb_false_r, ?orb_true_r; done.
Qed.

(** The D-pad block sets a bit exactly when the button reads 1. *)
Lemma dpadDirection_bits (s : Snapshot) :
  hasDirection (dpadDirection s) DIR_UP
    = (Button s CONTROLLER_BUTTON_DPAD_UP =? 1) ∧
  hasDirection (dpadDirection s) DIR_DOWN
    = (Button s CONTROLLER_BUTTON_DPAD_DOWN =? 1) ∧
  hasDirection (dpadDirection s) DIR_LEFT
    = (Button s CONTROLLER_BUTTON_DPAD_LEFT =? 1) ∧
  hasDirection (dpadDirection s) DIR_RIGHT
    = (Button s CONTROLLER_BUTTON_DPAD_RIGHT =? 1).
Proof.
  unfold dpadDirection.
  destruct (Button s CONTROLLER_BUTTON_DPAD_UP =? 1),
    (Button s CONTROLLER_BUTTON_DPAD_DOWN =? 1),
    (Button s CONTROLLER_BUTTON_DPAD_LEFT =? 1),
    (Button s CONTROLLER_BUTTON_DPAD_RIGHT =? 1); by vm_compute.
Qed.

(** The mask of a snapshot, bit by bit: D-pad button OR stick beyond the
    dead zone. *)
Lemma directionLevels_merge (s : Snapshot) :
  directionLevels (directionOf s) =
  [ ("up", (Button s CONTROLLER_BUTTON_DPAD_UP =? 1)
             || (Axis s CONTROLLER_AXIS_LEFTY <? - 8000));
    ("down", (Button s CONTROLLER_BUTTON_DPAD_DOWN =? 1)
             || (8000 <? Axis s CONTROLLER_AXIS_LEFTY));
    ("left", (Button s CONTROLLER_BUTTON_DPAD_LEFT =? 1)
             || (Axis s CONTROLLER_AXIS_LEFTX <? - 8000));
    ("right", (Button s CONTROLLER_BUTTON_DPAD_RIGHT =? 1)
             || (8000 <? Axis s CONTROLLER_AXIS_LEFTX)) ].
Proof.
  unfold directionLevels, directionOf.
  destruct (stickDirection_bits (Axis s CONTROLLER_AXIS_LEFTX)
              (Axis s CONTROLLER_AXIS_LEFTY) (dpadDirection s))
    as (Hu & Hd & Hl & Hr).
  destruct (dpadDirection_bits s) as (Du & Dd & Dl & Dr).
  unfold hasDirection in *. by rewrite Hu, Hd, Hl, Hr, Du, Dd, Dl, Dr.
Qed.

(** *** One pass of the loop *)

Lemma handleButtons_levels_B (s : Snapshot) (order : list (Z * string)) cm :
  handleButtons s order cm = setKeysB (buttonLevels s order) cm.
Proof.
  unfold handleButtons, setKeys, buttonLevels.
  apply forEach_fmap. intros [button key] s'. simpl.
  by destruct (Button s button =? 1).
Qed.

Lemma handleTriggers_levels_B (s : Snapshot) (order : list (Z * string)) cm :
  handleTriggers s order cm = setKeysB (triggerLevelsB s order) cm.
Proof.
  unfold handleTriggers, setKeys, triggerLevelsB.
  apply forEach_fmap. intros [axis key] s'. simpl.
  by destruct (Axis s axis >? triggerThreshold).
Qed.

Lemma handleDirectionalInputs_exec (s : Snapshot) cm :
  exec (handleDirectionalInputs s) cm =
  (setCurrentDirection (directionOf s)
     (stateOf (setKeysB (directionLevels (directionOf s))) cm),
   callsOf (setKeysB (directionLevels (directionOf s))) cm).
Proof.
  unfold exec, handleDirectionalInputs. fold (directionOf s).
  set (d := directionOf s).
  change (setKeysB (directionLevels d)) with
    (setKey pressedKeys setPressedKeys "up"
       (negb (Z.land d DIR_UP =? 0)) ;;
     (setKey pressedKeys setPressedKeys "down"
       (negb (Z.land d DIR_DOWN =? 0)) ;;
     (setKey pressedKeys setPressedKeys "left"
       (negb (Z.land d DIR_LEFT =? 0)) ;;
     (setKey pressedKeys setPressedKeys "right"
       (negb (Z.land d DIR_RIGHT =? 0)) ;; mret tt)))).
  change (if negb (Z.land d DIR_UP =? 0)
          then pressKey "up" else releaseKey "up")
    with (setKey pressedKeys setPressedKeys "up"
            (negb (Z.land d DIR_UP =? 0))).
  change (if negb (Z.land d DIR_DOWN =? 0)
          then pressKey "down" else releaseKey "down")
    with (setKey pressedKeys setPressedKeys "down"
            (negb (Z.land d DIR_DOWN =? 0))).
  change (if negb (Z.land d DIR_LEFT =? 0)
          then pressKey "left" else releaseKey "left")
    with (setKey pressedKeys setPressedKeys "left"
            (negb (Z.land d DIR_LEFT =? 0))).
  change (if negb (Z.land d DIR_RIGHT =? 0)
          then pressKey "right" else releaseKey "right")
    with (setKey pressedKeys setPressedKeys "right"
            (negb (Z.land d DIR_RIGHT =? 0))).
  rewrite !stateOf_bind, !callsOf_bind.
  change (callsOf (mret tt) ?x) with (@nil Event).
  change (callsOf (modify ?f) ?x) with (@nil Event).
  change (stateOf (mret tt) ?x) with x.
  change (stateOf (modify ?f) ?x) with (f x).
  done.
Qed.

(** After the direction block a direction key is held exactly when its
    D-pad button reads 1 or the stick is beyond the dead zone on its
    side, and the mask is stored. *)
Lemma handleDirectionalInputs_keys (s : Snapshot) cm :
  index (pressedKeys (stateOf (handleDirectionalInputs s) cm)) "up"
    = (Button s CONTROLLER_BUTTON_DPAD_UP =? 1)
      || (Axis s CONTROLLER_AXIS_LEFTY <? - 8000) ∧
  index (pressedKeys (stateOf (handleDirectionalInputs s) cm)) "down"
    = (Button s CONTROLLER_BUTTON_DPAD_DOWN =? 1)
      || (8000 <? Axis s CONTROLLER_AXIS_LEFTY) ∧
  index (pressedKeys (stateOf (handleDirectionalInputs s) cm)) "left"
    = (Button s CONTROLLER_BUTTON_DPAD_LEFT =? 1)
      || (Axis s CONTROLLER_AXIS_LEFTX <? - 8000) ∧
  index (pressedKeys (stateOf (handleDirectionalInputs s) cm)) "right"
    = (Button s CONTROLLER_BUTTON_DPAD_RIGHT =? 1)
      || (8000 <? Axis s CONTROLLER_AXIS_LEFTX) ∧
  currentDirection (stateOf (handleDirectionalInputs s) cm) = directionOf s.
Proof.
  pose proof (handleDirectionalInputs_exec s cm) as E.
  apply pair_equal_spec in E as [-> _]. simpl.
  pose proof (setKeys_settled pressedKeys setPressedKeys pk_set_B
    (directionLevels (directionOf s)) cm) as Hset.
  rewrite directionLevels_merge in *.
  specialize (Hset ltac:(apply (bool_decide_unpack _); by vm_compute)).
  apply Forall_cons in Hset as [Hu Hset].
  apply Forall_cons in Hset as [Hd Hset].
  apply Forall_cons in Hset as [Hl Hset].
  apply Forall_cons in Hset as [Hr _].
  done.
Qed.

Lemma exec_handleButtons (s : Snapshot) (order : list (Z * string)) cm :
  exec (handleButtons s order) cm = exec (setKeysB (buttonLevels s order)) cm.
Proof. unfold exec, stateOf, callsOf. by rewrite handleButtons_levels_B. Qed.

Lemma exec_handleTriggers (s : Snapshot) (order : list (Z * string)) cm :
  exec (handleTriggers s order) cm =
  exec (setKeysB (triggerLevelsB s order)) cm.
Proof. unfold exec, stateOf, callsOf. by rewrite handleTriggers_levels_B. Qed.

Lemma tick_exec_B (t : Tick) cm :
  exec (tick t) cm =
  (setCurrentDirection (directionOf (snap t))
     (stateOf (setKeysB
        (levelsB (snap t) (buttonOrder t) (triggerOrder t))) cm),
   callsOf (setKeysB
        (levelsB (snap t) (buttonOrder t) (triggerOrder t))) cm).
Proof.
  set (g := setCurrentDirection (directionOf (snap t))).
  set (dl := directionLevels (directionOf (snap t))).
  set (bl := buttonLevels (snap t) (buttonOrder t)).
  set (tl := triggerLevelsB (snap t) (triggerOrder t)).
  set (s1 := stateOf (setKeysB dl) cm).
  set (s2 := stateOf (setKeysB bl) s1).
  assert (exec (handleDirectionalInputs (snap t)) cm
          = (g s1, callsOf (setKeysB dl) cm)) as E1
    by apply handleDirectionalInputs_exec.
  assert (exec (handleButtons (snap t) (buttonOrder t)) (g s1)
          = (g s2, callsOf (setKeysB bl) s1)) as E2.
  { rewrite exec_handleButtons. by apply setKeys_commute. }
  assert (exec (handleTriggers (snap t) (triggerOrder t)) (g s2)
          = (g (stateOf (setKeysB tl) s2), callsOf (setKeysB tl) s2)) as E3.
  { rewrite exec_handleTriggers. by apply setKeys_commute. }
  assert (exec (setKeysB (levelsB (snap t) (buttonOrder t) (triggerOrder t)))
            cm
          = (stateOf (setKeysB tl) s2,
             callsOf (setKeysB dl) cm ++ callsOf (setKeysB bl) s1 ++
             callsOf (setKeysB tl) s2)) as E4.
  { unfold levelsB. fold dl bl tl. rewrite setKeys_app. fold s1.
    pose proof (setKeys_app pressedKeys setPressedKeys bl tl s1) as E.
    apply pair_equal_spec in E as [Ea Eb]. by rewrite Ea, Eb. }
  apply pair_equal_spec in E1 as [E1 E1'], E2 as [E2 E2'],
    E3 as [E3 E3'], E4 as [E4 E4'].
  unfold exec, tick. rewrite !stateOf_bind, !callsOf_bind.
  rewrite E1, E1', E2, E2', E3, E3', E4, E4'. done.
Qed.

(** *** The levels of one pass *)

Lemma levelsB_perm (s : Snapshot) (order torder : list (Z * string)) :
  order ≡ₚ buttonKeyMap → torder ≡ₚ triggerKeyMap →
  levelsB s order torder ≡ₚ levelsB s buttonKeyMap triggerKeyMap.
Proof.
  intros H1 H2. unfold levelsB, buttonLevels, triggerLevelsB.
  by rewrite H1, H2.
Qed.

Lemma levelsB_keys (s : Snapshot) :
  (levelsB s buttonKeyMap triggerKeyMap).*1 =
  ["up"; "down"; "left"; "right";
   "shift"; "space"; "lctrl"; "x"; "tab"; "k"; "esc"; "3"; "2"; "q"; "w";
   "a"; "s"].
Proof. reflexivity. Qed.

Lemma levelsB_NoDup (s : Snapshot) (order torder : list (Z * string)) :
  order ≡ₚ buttonKeyMap → torder ≡ₚ triggerKeyMap →
  NoDup (levelsB s order torder).*1.
Proof.
  intros H1 H2. rewrite (levelsB_perm s order torder H1 H2), levelsB_keys.
  apply (bool_decide_unpack _). by vm_compute.
Qed.

(** With every level in effect and the mask stored, a pass changes
    nothing and calls nothing. *)
Lemma tick_noop (t : Tick) cm :
  settled (pressedKeys cm)
    (levelsB (snap t) (buttonOrder t) (triggerOrder t)) →
  currentDirection cm = directionOf (snap t) →
  exec (tick t) cm = (cm, []).
Proof.
  intros Hset Hdir. rewrite tick_exec_B.
  pose proof (setKeys_noop pressedKeys setPressedKeys _ _ Hset) as E.
  injection E as -> ->. rewrite <- Hdir. by destruct cm.
Qed.

(** After a pass every level is in effect and the mask is stored. *)
Lemma tick_settles (t : Tick) cm :
  buttonOrder t ≡ₚ buttonKeyMap → triggerOrder t ≡ₚ triggerKeyMap →
  settled (pressedKeys (stateOf (tick t) cm))
    (levelsB (snap t) buttonKeyMap triggerKeyMap) ∧
  currentDirection (stateOf (tick t) cm) = directionOf (snap t).
Proof.
  intros H1 H2. pose proof (tick_exec_B t cm) as E. injection E as -> _.
  split; [|done]. simpl.
  apply (settled_perm _ _ _ (levelsB_perm _ _ _ H1 H2)).
  apply (setKeys_settled _ _ pk_set_B). by apply levelsB_NoDup.
Qed.

(** After a pass a direction key is held exactly when its D-pad button
    reads 1 or the stick is beyond the dead zone on its side. *)
Lemma tick_directions (t : Tick) cm :
  buttonOrder t ≡ₚ buttonKeyMap → triggerOrder t ≡ₚ triggerKeyMap →
  index (pressedKeys (stateOf (tick t) cm)) "up"
    = (Button (snap t) CONTROLLER_BUTTON_DPAD_UP =? 1)
      || (Axis (snap t) CONTROLLER_AXIS_LEFTY <? - 8000) ∧
  index (pressedKeys (stateOf (tick t) cm)) "down"
    = (Button (snap t) CONTROLLER_BUTTON_DPAD_DOWN =? 1)
      || (8000 <? Axis (snap t) CONTROLLER_AXIS_LEFTY) ∧
  index (pressedKeys (stateOf (tick t) cm)) "left"
    = (Button (snap t) CONTROLLER_BUTTON_DPAD_LEFT =? 1)
      || (Axis (snap t) CONTROLLER_AXIS_LEFTX <? - 8000) ∧
  index (pressedKeys (stateOf (tick t) cm)) "right"
    = (Button (snap t) CONTROLLER_BUTTON_DPAD_RIGHT =? 1)
      || (8000 <? Axis (snap t) CONTROLLER_AXIS_LEFTX).
Proof.
  intros H1 H2. destruct (tick_settles t cm H1 H2) as [Hset _].
  unfold settled, levelsB in Hset. rewrite directionLevels_merge in Hset.
  apply Forall_app in Hset as [Hset _].
  apply Forall_cons in Hset as [Hu Hset].
  apply Forall_cons in Hset as [Hd Hset].
  apply Forall_cons in Hset as [Hl Hset].
  apply Forall_cons in Hset as [Hr _].
  done.
Qed.

(** *** Every operation maintains a key invariant *)

Section Invariant.
Variable I : gmap string bool → list Event → Prop.
Hypothesis HI : KeyInvariant I.

Lemma preserves_handleDirectionalInputs s :
  Preserves pressedKeys I (handleDirectionalInputs s).
Proof using HI. unfold handleDirectionalInputs. preserve pk_set_B HI. Qed.

Lemma preserves_handleButtons_B s order :
  Preserves pressedKeys I (handleButtons s order).
Proof using HI. unfold handleButtons. preserve pk_set_B HI. Qed.

Lemma preserves_handleTriggers_B s order :
  Preserves pressedKeys I (handleTriggers s order).
Proof using HI. unfold handleTriggers. preserve pk_set_B HI. Qed.

Lemma preserves_tick_B t : Preserves pressedKeys I (tick t).
Proof using HI.
  unfold tick.
  apply preserves_bind; [apply preserves_handleDirectionalInputs|intros ?].
  apply preserves_bind; [apply preserves_handleButtons_B|intros ?].
  apply preserves_handleTriggers_B.
Qed.

Lemma preserves_loop_B ticks : Preserves pressedKeys I (loop ticks).
Proof using HI.
  induction ticks as [|t ticks IH]; simpl.
  - preserve pk_set_B HI.
  - apply preserves_bind; [apply preserves_get|intros cm].
    destruct (negb (running cm)); [apply preserves_ret|].
    destruct (existsb isQuit (events t)).
    + preserve pk_set_B HI.
    + apply preserves_bind; [apply preserves_tick_B|by intros ?].
Qed.

Lemma preserves_cleanup_B order : Preserves pressedKeys I (cleanup order).
Proof using HI. unfold cleanup. preserve pk_set_B HI. Qed.

Lemma preserves_Run_B ticks order : Preserves pressedKeys I (Run ticks order).
Proof using HI.
  unfold Run. apply preserves_bind; [apply preserves_loop_B|intros how].
  destruct how; try apply preserves_ret;
    (apply preserves_bind; [apply preserves_cleanup_B|intros ?; apply preserves_ret]).
Qed.

End Invariant.

(** *** The loop and the deferred clean-up *)

Lemma tick_running_B (t : Tick) cm :
  running (stateOf (tick t) cm) = running cm.
Proof.
  pose proof (tick_exec_B t cm) as E. injection E as -> _. simpl.
  by apply setKeys_frame.
Qed.

Lemma loop_quit_B (ticks : list Tick) cm :
  running cm = true → Exists (λ t, quitSeen (events t)) ticks →
  resultOf (loop ticks) cm = Returned.
Proof.
  intros Hrun Hq. revert cm Hrun.
  induction Hq as [t ticks Hq|t ticks _ IH]; intros cm Hrun; simpl;
    rewrite resultOf_bind;
    change (resultOf get cm) with cm; change (stateOf get cm) with cm;
    rewrite Hrun; simpl.
  - unfold quitSeen in Hq. by rewrite Hq.
  - destruct (existsb isQuit (events t)); [done|].
    rewrite resultOf_bind. apply IH. by rewrite tick_running_B.
Qed.

Lemma Run_exits_B (ticks : list Tick) (order : list string) cm :
  resultOf (loop ticks) cm ≠ StillPolling →
  Run ticks order cm =
  (true,
   stateOf (cleanup order) (stateOf (loop ticks) cm),
   callsOf (loop ticks) cm ++ callsOf (cleanup order) (stateOf (loop ticks) cm)).
Proof.
  intros Hexit. unfold Run. rewrite run_bind.
  destruct (resultOf (loop ticks) cm); try done;
    rewrite !resultOf_bind, !stateOf_bind, !callsOf_bind; simpl;
    by rewrite app_nil_r.
Qed.

Lemma cleanup_exec_B (order : list string) cm :
  noFalse (pressedKeys cm) → order ≡ₚ elements (dom (pressedKeys cm)) →
  NoDup order ∧
  callsOf (cleanup order) cm = (KeyUp <$> order) ++ [ControllerClose; SdlQuit] ∧
  pressedKeys (stateOf (cleanup order) cm) = ∅.
Proof.
  intros Hnf Hperm.
  destruct (releaseAll_all pressedKeys setPressedKeys pk_set_B order cm Hnf Hperm)
    as (Hnd & Hc & Hs).
  split; [done|]. unfold cleanup.
  rewrite !stateOf_bind, !callsOf_bind, Hc. split; [done|]. exact Hs.
Qed.

End BFacts.

(** * The claims *)

(** ** C1: idempotence over identical snapshots *)


Lemma idempotent_B cm (t1 : VariantB.Tick) (later : list VariantB.Tick) :
  sameInputB t1 t1 → Forall (sameInputB t1) later →
  exec (forEach VariantB.tick later) (stateOf (VariantB.tick t1) cm)
  = (stateOf (VariantB.tick t1) cm, []).
Proof.
  intros (_ & Hb & Ht) Hlater.
  destruct (BFacts.tick_settles t1 cm Hb Ht) as [Hset Hdir].
  set (s1 := stateOf (VariantB.tick t1) cm) in *. clearbody s1.
  induction Hlater as [|t later (Hs & Hb' & Ht') _ IH]; [done|].
  unfold exec in *. simpl. rewrite stateOf_bind, callsOf_bind.
  assert (exec (VariantB.tick t) s1 = (s1, [])) as E.
  { apply BFacts.tick_noop; rewrite Hs; [|done].
    eapply settled_perm; [|exact Hset].
    symmetry. by apply BFacts.levelsB_perm. }
  apply pair_equal_spec in E as [-> ->]. exact IH.
Qed.



(** The amended statement of C1 rests on the pass-by-pass laws of
    variant A and is proved with them, further down. *)

(** ** C2: the shutdown sequence *)

(** C2.  In both variants, whenever the polling loop is left (by the
    return on a quit signal or by its condition), [Run] returns after the
    deferred clean-up: one keyUp per key held at that moment, in the order
    [range] visits them and without repetition, then the controller is
    closed, then SDL is shut down, and no key stays in the set.  A quit
    signal among the drained events makes the loop return. *)
Theorem C2_shutdown_releases_held_keys :
  (∀ cm (ticks : list VariantA.Tick) (order : list string),
     noFalse (VariantA.pressedKeys cm) →
     resultOf (VariantA.loop ticks) cm ≠ VariantA.StillPolling →
     order ≡ₚ elements (dom (VariantA.pressedKeys
                               (stateOf (VariantA.loop ticks) cm))) →
     resultOf (VariantA.Run ticks order) cm = true ∧
     callsOf (VariantA.Run ticks order) cm =
       callsOf (VariantA.loop ticks) cm ++ (KeyUp <$> order) ++
       [ControllerClose; SdlQuit] ∧
     NoDup order ∧
     VariantA.pressedKeys (stateOf (VariantA.Run ticks order) cm) = ∅) ∧
  (∀ cm (ticks : list VariantA.Tick),
     VariantA.running cm = true →
     Exists (λ t, quitSeen (VariantA.events t)) ticks →
     resultOf (VariantA.loop ticks) cm = VariantA.Returned) ∧
  (∀ cm (ticks : list VariantB.Tick) (order : list string),
     noFalse (VariantB.pressedKeys cm) →
     resultOf (VariantB.loop ticks) cm ≠ VariantB.StillPolling →
     order ≡ₚ elements (dom (VariantB.pressedKeys
                               (stateOf (VariantB.loop ticks) cm))) →
     resultOf (VariantB.Run ticks order) cm = true ∧
     callsOf (VariantB.Run ticks order) cm =
       callsOf (VariantB.loop ticks) cm ++ (KeyUp <$> order) ++
       [ControllerClose; SdlQuit] ∧
     NoDup order ∧
     VariantB.pressedKeys (stateOf (VariantB.Run ticks order) cm) = ∅) ∧
  (∀ cm (ticks : list VariantB.Tick),
     VariantB.running cm = true →
     Exists (λ t, quitSeen (VariantB.events t)) ticks →
     resultOf (VariantB.loop ticks) cm = VariantB.Returned).
Proof.
  split; [|split; [intros cm ticks; apply AFacts.loop_quit_A|
                   split; [|intros cm ticks; apply BFacts.loop_quit_B]]].
  - intros cm ticks order Hnf Hexit Hperm.
    pose proof (AFacts.preserves_loop_A _ noFalse_invariant ticks cm [] Hnf)
      as Hnf'.
    destruct (AFacts.cleanup_exec_A order _ Hnf' Hperm) as (Hnd & Hc & Hs).
    unfold resultOf, stateOf, callsOf.
    rewrite (AFacts.Run_exits_A ticks order cm Hexit). simpl.
    by rewrite Hc, Hs.
  - intros cm ticks order Hnf Hexit Hperm.
    pose proof (BFacts.preserves_loop_B _ noFalse_invariant ticks cm [] Hnf)
      as Hnf'.
    destruct (BFacts.cleanup_exec_B order _ Hnf' Hperm) as (Hnd & Hc & Hs).
    unfold resultOf, stateOf, callsOf.
    rewrite (BFacts.Run_exits_B ticks order cm Hexit). simpl.
    by rewrite Hc, Hs.
Qed.

Lemma C2_witness :
  (resultOf (VariantA.Run [passA (withButton 0 neutral) 0; quitA] ["shift"])
     VariantA.newMapper = true ∧
   callsOf (VariantA.Run [passA (withButton 0 neutral) 0; quitA] ["shift"])
     VariantA.newMapper =
     callsOf (VariantA.loop [passA (withButton 0 neutral) 0; quitA])
       VariantA.newMapper ++ (KeyUp <$> ["shift"]) ++
     [ControllerClose; SdlQuit] ∧
   NoDup ["shift"] ∧
   VariantA.pressedKeys
     (stateOf (VariantA.Run [passA (withButton 0 neutral) 0; quitA] ["shift"])
        VariantA.newMapper) = ∅) ∧
  resultOf (VariantA.loop [passA neutral 0; quitA]) VariantA.newMapper
    = VariantA.Returned ∧
  (resultOf (VariantB.Run [passB (withButton 0 neutral); quitB] ["shift"])
     VariantB.newMapper = true ∧
   callsOf (VariantB.Run [passB (withButton 0 neutral); quitB] ["shift"])
     VariantB.newMapper =
     callsOf (VariantB.loop [passB (withButton 0 neutral); quitB])
       VariantB.newMapper ++ (KeyUp <$> ["shift"]) ++
     [ControllerClose; SdlQuit] ∧
   NoDup ["shift"] ∧
   VariantB.pressedKeys
     (stateOf (VariantB.Run [passB (withButton 0 neutral); quitB] ["shift"])
        VariantB.newMapper) = ∅) ∧
  resultOf (VariantB.loop [passB neutral; quitB]) VariantB.newMapper
    = VariantB.Returned.
Proof.
  destruct C2_shutdown_releases_held_keys as (HA & HAq & HB & HBq).
  split; [|split; [|split]].
  - apply HA.
    + intros k. vm_compute. discriminate.
    + vm_compute. discriminate.
    + vm_compute. reflexivity.
  - apply HAq.
    + reflexivity.
    + apply Exists_cons_tl, Exists_cons_hd. reflexivity.
  - apply HB.
    + intros k. vm_compute. discriminate.
    + vm_compute. discriminate.
    + vm_compute. reflexivity.
  - apply HBq.
    + reflexivity.
    + apply Exists_cons_tl, Exists_cons_hd. reflexivity.
Defined.

(** ** C3: repeat timing of variant A *)


(** The amended statement of C3 rests on the pass-by-pass laws of
    variant A and is proved with them, further down. *)

(** ** C4: D-pad and stick claiming directions *)

(** Variant B meets the claim: when the D-pad and the stick claim the same
    direction, a pass from a mapper that does not hold the key issues
    exactly one keyDown for it; when they claim opposing directions, both
    keys are held after the pass; and further passes over the same
    snapshot change nothing. *)
Lemma direction_merge_B :
  (∀ cm (t : VariantB.Tick),
     sameInputB t t →
     index (VariantB.pressedKeys cm) "up" = false →
     Button (VariantB.snap t) CONTROLLER_BUTTON_DPAD_UP = 1 →
     Axis (VariantB.snap t) CONTROLLER_AXIS_LEFTY < - 8000 →
     keyDowns "up" (callsOf (VariantB.tick t) cm) = 1%nat) ∧
  (∀ cm (t : VariantB.Tick) (later : list VariantB.Tick),
     sameInputB t t → Forall (sameInputB t) later →
     Button (VariantB.snap t) CONTROLLER_BUTTON_DPAD_UP = 1 →
     8000 < Axis (VariantB.snap t) CONTROLLER_AXIS_LEFTY →
     index (VariantB.pressedKeys (stateOf (VariantB.tick t) cm)) "up" = true ∧
     index (VariantB.pressedKeys (stateOf (VariantB.tick t) cm)) "down" = true ∧
     exec (forEach VariantB.tick later) (stateOf (VariantB.tick t) cm)
     = (stateOf (VariantB.tick t) cm, [])).
Proof.
  split.
  - intros cm t (_ & Hb & Ht) Hup Hpad Hy.
    pose proof (BFacts.tick_exec_B t cm) as E.
    apply pair_equal_spec in E as [_ ->].
    rewrite (setKeys_calls _ _ BFacts.pk_set_B)
      by (by apply BFacts.levelsB_NoDup).
    rewrite keyDowns_keyCall by (by apply BFacts.levelsB_NoDup).
    rewrite Hup, bool_decide_eq_true_2; [done|].
    unfold levelsB. rewrite BFacts.directionLevels_merge, Hpad.
    apply elem_of_app. left. apply list_elem_of_here.
  - intros cm t later Hsame Hlater Hpad Hy.
    destruct Hsame as (Hs & Hb & Ht).
    destruct (BFacts.tick_directions t cm Hb Ht) as (Hu & Hd & _).
    rewrite Hu, Hd, Hpad.
    assert ((8000 <? Axis (VariantB.snap t) CONTROLLER_AXIS_LEFTY) = true)
      as -> by lia.
    rewrite orb_true_r. repeat split.
    by apply idempotent_B.
Qed.

(** C4 fails in variant A on opposing directions.  With D-pad up held and
    the stick pushed down, the first pass presses both keys, and the next
    pass over the same snapshot, 10 ms later, releases "down" in the
    button loop (button 12 is mapped to "down" and reads released): "up"
    alone stays held, although the stick still claims "down". *)
Theorem C4_variantA_opposing_directions :
  callsOf (VariantA.tick (passA upAgainstDown 0)) VariantA.newMapper
  = [KeyDown "up"; KeyDown "down"] ∧
  callsOf (VariantA.tick (passA upAgainstDown (10 * Millisecond)))
    (stateOf (VariantA.tick (passA upAgainstDown 0)) VariantA.newMapper)
  = [KeyUp "down"] ∧
  map_to_list (VariantA.pressedKeys
    (stateOf (forEach VariantA.tick
                [passA upAgainstDown 0;
                 passA upAgainstDown (10 * Millisecond)])
       VariantA.newMapper))
  = [("up", true)] ∧
  index (VariantA.analogState
    (stateOf (forEach VariantA.tick
                [passA upAgainstDown 0;
                 passA upAgainstDown (10 * Millisecond)])
       VariantA.newMapper)) "down" = true.
Proof. repeat split; by vm_compute. Qed.

(** ** C5: the stick pushed left *)

(** Variant B meets the claim: from a fresh mapper the first pass over
    the snapshot issues keyDown("left") and nothing else, and further
    passes over it issue nothing. *)
Lemma stick_left_B (later : list VariantB.Tick) :
  Forall (sameInputB (passB stickLeft)) later →
  callsOf (VariantB.tick (passB stickLeft)) VariantB.newMapper
  = [KeyDown "left"] ∧
  callsOf (forEach VariantB.tick later)
    (stateOf (VariantB.tick (passB stickLeft)) VariantB.newMapper) = [].
Proof.
  intros Hlater. split; [by vm_compute|].
  assert (sameInputB (passB stickLeft) (passB stickLeft)) as Hsame
    by (split; [reflexivity|split; reflexivity]).
  pose proof (idempotent_B VariantB.newMapper _ later Hsame Hlater) as E.
  by apply pair_equal_spec in E as [_ ->].
Qed.

(** C5 fails in variant A.  With the stick held at X = -20000, Y = 0 and
    every button released, the first pass issues keyDown("left"), and the
    second pass over the same snapshot, 10 ms later and well inside the
    500 ms delay, issues keyUp("left"): the button loop finds button 13,
    mapped to "left", released.  The direction stays marked active, so
    the key is not pressed again before the repeat fires. *)
Theorem C5_variantA_stick_left_released :
  callsOf (VariantA.tick (passA stickLeft 0)) VariantA.newMapper
  = [KeyDown "left"] ∧
  callsOf (VariantA.tick (passA stickLeft (10 * Millisecond)))
    (stateOf (VariantA.tick (passA stickLeft 0)) VariantA.newMapper)
  = [KeyUp "left"] ∧
  callsOf (forEach VariantA.tick (passA stickLeft <$> every 10 51))
    VariantA.newMapper
  = [KeyDown "left"; KeyUp "left"; KeyDown "left"].
Proof. repeat split; by vm_compute. Qed.

(** ** C6: the key set mirrors the emitter *)

Lemma preserves_doA (I : gmap string bool → list Event → Prop) (op : OpA) :
  KeyInvariant I → Preserves VariantA.pressedKeys I (doA op).
Proof.
  intros HI. destruct op; simpl.
  - apply (preserves_pressKey _ _ AFacts.pk_set_A _ HI).
  - apply (preserves_releaseKey _ _ AFacts.pk_set_A _ HI).
  - by apply AFacts.preserves_handleAnalogDirection.
  - by apply AFacts.preserves_handleAnalogStick.
  - by apply AFacts.preserves_handleButtons_A.
  - by apply AFacts.preserves_handleTriggers_A.
  - by apply AFacts.preserves_tick_A.
  - by apply AFacts.preserves_cleanup_A.
  - apply preserves_bind; [by apply AFacts.preserves_Run_A|].
    intros _. apply preserves_ret.
Qed.

Lemma preserves_doB (I : gmap string bool → list Event → Prop) (op : OpB) :
  KeyInvariant I → Preserves VariantB.pressedKeys I (doB op).
Proof.
  intros HI. destruct op; simpl.
  - apply (preserves_pressKey _ _ BFacts.pk_set_B _ HI).
  - apply (preserves_releaseKey _ _ BFacts.pk_set_B _ HI).
  - by apply BFacts.preserves_handleDirectionalInputs.
  - by apply BFacts.preserves_handleButtons_B.
  - by apply BFacts.preserves_handleTriggers_B.
  - by apply BFacts.preserves_tick_B.
  - by apply BFacts.preserves_cleanup_B.
  - apply preserves_bind; [by apply BFacts.preserves_Run_B|].
    intros _. apply preserves_ret.
Qed.

(** C6.  In both variants [pressKey] calls keyDown exactly when the key
    does not read true in the set, and then inserts it; [releaseKey] calls
    keyUp exactly when the key reads true, and then deletes it.  After any
    sequence of engine operations on the mapper built at start-up, a key
    reads true exactly when it is a member of the set, and it is a member
    of the set if and only if the emitter has been told keyDown for it and
    has not since been told keyUp. *)
Theorem C6_pressed_keys_mirror_emitter :
  (∀ (key : string) cm,
     exec (VariantA.pressKey key) cm =
       (if index (VariantA.pressedKeys cm) key then (cm, [])
        else (VariantA.setPressedKeys
                (<[key := true]> (VariantA.pressedKeys cm)) cm,
              [KeyDown key])) ∧
     exec (VariantA.releaseKey key) cm =
       (if index (VariantA.pressedKeys cm) key
        then (VariantA.setPressedKeys
                (delete key (VariantA.pressedKeys cm)) cm,
              [KeyUp key])
        else (cm, []))) ∧
  (∀ (key : string) cm,
     exec (VariantB.pressKey key) cm =
       (if index (VariantB.pressedKeys cm) key then (cm, [])
        else (VariantB.setPressedKeys
                (<[key := true]> (VariantB.pressedKeys cm)) cm,
              [KeyDown key])) ∧
     exec (VariantB.releaseKey key) cm =
       (if index (VariantB.pressedKeys cm) key
        then (VariantB.setPressedKeys
                (delete key (VariantB.pressedKeys cm)) cm,
              [KeyUp key])
        else (cm, []))) ∧
  (∀ (ops : list OpA) (key : string),
     (index (VariantA.pressedKeys
               (stateOf (forEach doA ops) VariantA.newMapper)) key = true
      ↔ is_Some (VariantA.pressedKeys
                   (stateOf (forEach doA ops) VariantA.newMapper) !! key)) ∧
     (is_Some (VariantA.pressedKeys
                 (stateOf (forEach doA ops) VariantA.newMapper) !! key)
      ↔ toldDown (callsOf (forEach doA ops) VariantA.newMapper) key)) ∧
  (∀ (ops : list OpB) (key : string),
     (index (VariantB.pressedKeys
               (stateOf (forEach doB ops) VariantB.newMapper)) key = true
      ↔ is_Some (VariantB.pressedKeys
                   (stateOf (forEach doB ops) VariantB.newMapper) !! key)) ∧
     (is_Some (VariantB.pressedKeys
                 (stateOf (forEach doB ops) VariantB.newMapper) !! key)
      ↔ toldDown (callsOf (forEach doB ops) VariantB.newMapper) key)).
Proof.
  split; [|split; [|split]].
  - intros key cm. split.
    + apply (pressKey_exec VariantA.pressedKeys VariantA.setPressedKeys).
    + apply (releaseKey_exec VariantA.pressedKeys VariantA.setPressedKeys).
  - intros key cm. split.
    + apply (pressKey_exec VariantB.pressedKeys VariantB.setPressedKeys).
    + apply (releaseKey_exec VariantB.pressedKeys VariantB.setPressedKeys).
  - intros ops key.
    pose proof (preserves_forEach VariantA.pressedKeys mirrors doA ops
                  (λ op, preserves_doA mirrors op mirrors_invariant)
                  VariantA.newMapper [] mirrors_nil) as Hm.
    split; [by eapply mirrors_index|by apply mirrors_member].
  - intros ops key.
    pose proof (preserves_forEach VariantB.pressedKeys mirrors doB ops
                  (λ op, preserves_doB mirrors op mirrors_invariant)
                  VariantB.newMapper [] mirrors_nil) as Hm.
    split; [by eapply mirrors_index|by apply mirrors_member].
Qed.

(** ** C7: the dead zone boundary *)

(** C7.  In both variants a stick axis is active only strictly beyond
    8000 in magnitude, for all four directions.  Variant A: after
    [handleAnalogStick] a direction is marked active exactly when its axis
    is strictly beyond the dead zone on its side, and from a fresh mapper
    exactly those directions get a keyDown.  Variant B: the stick block
    adds a direction's bit exactly under the same comparison, and after
    the direction block a direction key is held exactly when its D-pad
    button reads 1 or the comparison holds.  At the boundary: 8000 and
    -8000 are not active, 8001 and -8001 are. *)
Theorem C7_deadzone_boundary :
  (∀ clk (x y : Z) cm,
     index (VariantA.analogState
              (stateOf (VariantA.handleAnalogStick clk x y) cm)) "right"
       = (x >? 8000) ∧
     index (VariantA.analogState
              (stateOf (VariantA.handleAnalogStick clk x y) cm)) "left"
       = (x <? - 8000) ∧
     index (VariantA.analogState
              (stateOf (VariantA.handleAnalogStick clk x y) cm)) "down"
       = (y >? 8000) ∧
     index (VariantA.analogState
              (stateOf (VariantA.handleAnalogStick clk x y) cm)) "up"
       = (y <? - 8000)) ∧
  (∀ clk (x y : Z),
     callsOf (VariantA.handleAnalogStick clk x y) VariantA.newMapper =
       (if x >? 8000 then [KeyDown "right"] else []) ++
       (if x <? - 8000 then [KeyDown "left"] else []) ++
       (if y >? 8000 then [KeyDown "down"] else []) ++
       (if y <? - 8000 then [KeyDown "up"] else [])) ∧
  (∀ clk,
     callsOf (VariantA.handleAnalogStick clk 8000 8000) VariantA.newMapper
       = [] ∧
     callsOf (VariantA.handleAnalogStick clk (-8000) (-8000))
       VariantA.newMapper = [] ∧
     callsOf (VariantA.handleAnalogStick clk 8001 8001) VariantA.newMapper
       = [KeyDown "right"; KeyDown "down"] ∧
     callsOf (VariantA.handleAnalogStick clk (-8001) (-8001))
       VariantA.newMapper = [KeyDown "left"; KeyDown "up"]) ∧
  (∀ (x y d : Z),
     hasDirection (VariantB.stickDirection x y d) VariantB.DIR_UP
       = hasDirection d VariantB.DIR_UP || (y <? - 8000) ∧
     hasDirection (VariantB.stickDirection x y d) VariantB.DIR_DOWN
       = hasDirection d VariantB.DIR_DOWN || (8000 <? y) ∧
     hasDirection (VariantB.stickDirection x y d) VariantB.DIR_LEFT
       = hasDirection d VariantB.DIR_LEFT || (x <? - 8000) ∧
     hasDirection (VariantB.stickDirection x y d) VariantB.DIR_RIGHT
       = hasDirection d VariantB.DIR_RIGHT || (8000 <? x)) ∧
  (∀ (s : Snapshot) cm,
     index (VariantB.pressedKeys
              (stateOf (VariantB.handleDirectionalInputs s) cm)) "up"
       = (Button s CONTROLLER_BUTTON_DPAD_UP =? 1)
         || (Axis s CONTROLLER_AXIS_LEFTY <? - 8000) ∧
     index (VariantB.pressedKeys
              (stateOf (VariantB.handleDirectionalInputs s) cm)) "down"
       = (Button s CONTROLLER_BUTTON_DPAD_DOWN =? 1)
         || (8000 <? Axis s CONTROLLER_AXIS_LEFTY) ∧
     index (VariantB.pressedKeys
              (stateOf (VariantB.handleDirectionalInputs s) cm)) "left"
       = (Button s CONTROLLER_BUTTON_DPAD_LEFT =? 1)
         || (Axis s CONTROLLER_AXIS_LEFTX <? - 8000) ∧
     index (VariantB.pressedKeys
              (stateOf (VariantB.handleDirectionalInputs s) cm)) "right"
       = (Button s CONTROLLER_BUTTON_DPAD_RIGHT =? 1)
         || (8000 <? Axis s CONTROLLER_AXIS_LEFTX)) ∧
  (callsOf (VariantB.handleDirectionalInputs
              (withAxis CONTROLLER_AXIS_LEFTX 8000
                 (withAxis CONTROLLER_AXIS_LEFTY (-8000) neutral)))
     VariantB.newMapper = [] ∧
   callsOf (VariantB.handleDirectionalInputs
              (withAxis CONTROLLER_AXIS_LEFTX 8001
                 (withAxis CONTROLLER_AXIS_LEFTY (-8001) neutral)))
     VariantB.newMapper = [KeyDown "up"; KeyDown "right"] ∧
   callsOf (VariantB.handleDirectionalInputs
              (withAxis CONTROLLER_AXIS_LEFTX (-8000)
                 (withAxis CONTROLLER_AXIS_LEFTY 8000 neutral)))
     VariantB.newMapper = [] ∧
   callsOf (VariantB.handleDirectionalInputs
              (withAxis CONTROLLER_AXIS_LEFTX (-8001)
                 (withAxis CONTROLLER_AXIS_LEFTY 8001 neutral)))
     VariantB.newMapper = [KeyDown "down"; KeyDown "left"]).
Proof.
  split; [|split; [|split; [|split; [|split]]]].
  - intros clk x y cm. apply AFacts.handleAnalogStick_marks.
  - intros clk x y. unfold VariantA.handleAnalogStick.
    change VariantA.deadzone with 8000.
    change (Z.opp 8000) with (-8000).
    destruct (x >? 8000), (x <? - 8000), (y >? 8000), (y <? - 8000);
      by vm_compute.
  - intros clk. repeat split; by vm_compute.
  - intros x y d. apply BFacts.stickDirection_bits.
  - intros s cm.
    destruct (BFacts.handleDirectionalInputs_keys s cm)
      as (Hu & Hd & Hl & Hr & _).
    done.
  - repeat split; by vm_compute.
Qed.

(** ** C8: the triggers *)

(** C8.  In both variants each trigger key is driven to the level "axis
    strictly above 16383" through the press and release rule: the calls
    of the trigger block are those of the two level updates
    ("a" for axis 4, "s" for axis 5), and afterwards each key is held
    exactly when its axis is above the threshold.  From a fresh mapper a
    pass with the left trigger at 20000 issues keyDown("a") and the next
    pass with the trigger back at 0 issues keyUp("a"); the right trigger
    does the same with "s". *)
Theorem C8_triggers :
  (∀ (s : Snapshot) cm,
     callsOf (VariantA.handleTriggers s) cm =
       omap (keyCall (VariantA.pressedKeys cm))
         [("a", Axis s 4 >? 16383); ("s", Axis s 5 >? 16383)] ∧
     index (VariantA.pressedKeys (stateOf (VariantA.handleTriggers s) cm)) "a"
       = (Axis s 4 >? 16383) ∧
     index (VariantA.pressedKeys (stateOf (VariantA.handleTriggers s) cm)) "s"
       = (Axis s 5 >? 16383)) ∧
  (∀ (s : Snapshot) (order : list (Z * string)) cm,
     order ≡ₚ VariantB.triggerKeyMap →
     callsOf (VariantB.handleTriggers s order) cm =
       omap (keyCall (VariantB.pressedKeys cm))
         ((λ entry, (entry.2, Axis s entry.1 >? 16383)) <$> order) ∧
     index (VariantB.pressedKeys
              (stateOf (VariantB.handleTriggers s order) cm)) "a"
       = (Axis s 4 >? 16383) ∧
     index (VariantB.pressedKeys
              (stateOf (VariantB.handleTriggers s order) cm)) "s"
       = (Axis s 5 >? 16383)) ∧
  (callsOf (VariantA.tick (passA (withAxis 4 20000 neutral) 0))
     VariantA.newMapper = [KeyDown "a"] ∧
   callsOf (VariantA.tick (passA neutral (10 * Millisecond)))
     (stateOf (VariantA.tick (passA (withAxis 4 20000 neutral) 0))
        VariantA.newMapper) = [KeyUp "a"] ∧
   callsOf (VariantA.tick (passA (withAxis 5 20000 neutral) 0))
     VariantA.newMapper = [KeyDown "s"] ∧
   callsOf (VariantA.tick (passA neutral (10 * Millisecond)))
     (stateOf (VariantA.tick (passA (withAxis 5 20000 neutral) 0))
        VariantA.newMapper) = [KeyUp "s"]) ∧
  (callsOf (VariantB.tick (passB (withAxis 4 20000 neutral)))
     VariantB.newMapper = [KeyDown "a"] ∧
   callsOf (VariantB.tick (passB neutral))
     (stateOf (VariantB.tick (passB (withAxis 4 20000 neutral)))
        VariantB.newMapper) = [KeyUp "a"] ∧
   callsOf (VariantB.tick (passB (withAxis 5 20000 neutral)))
     VariantB.newMapper = [KeyDown "s"] ∧
   callsOf (VariantB.tick (passB neutral))
     (stateOf (VariantB.tick (passB (withAxis 5 20000 neutral)))
        VariantB.newMapper) = [KeyUp "s"]).
Proof.
  split; [|split; [|split]].
  - intros s cm.
    assert (NoDup (triggerLevelsA s).*1) as Hnd
      by (apply (bool_decide_unpack _); by vm_compute).
    unfold stateOf, callsOf. rewrite AFacts.handleTriggers_levels_A.
    fold (stateOf (setKeys VariantA.pressedKeys VariantA.setPressedKeys
                     (triggerLevelsA s)) cm).
    fold (callsOf (setKeys VariantA.pressedKeys VariantA.setPressedKeys
                     (triggerLevelsA s)) cm).
    split; [by apply (setKeys_calls _ _ AFacts.pk_set_A)|].
    pose proof (setKeys_settled _ _ AFacts.pk_set_A (triggerLevelsA s) cm Hnd)
      as Hset.
    apply Forall_cons in Hset as [Ha Hset].
    apply Forall_cons in Hset as [Hs _]. done.
  - intros s order cm Hperm.
    assert (triggerLevelsB s order ≡ₚ
            triggerLevelsB s VariantB.triggerKeyMap) as Hperm'
      by (unfold triggerLevelsB; by rewrite Hperm).
    assert (NoDup (triggerLevelsB s order).*1) as Hnd.
    { rewrite Hperm'. apply (bool_decide_unpack _). by vm_compute. }
    unfold stateOf, callsOf. rewrite BFacts.handleTriggers_levels_B.
    fold (stateOf (setKeys VariantB.pressedKeys VariantB.setPressedKeys
                     (triggerLevelsB s order)) cm).
    fold (callsOf (setKeys VariantB.pressedKeys VariantB.setPressedKeys
                     (triggerLevelsB s order)) cm).
    split; [by apply (setKeys_calls _ _ BFacts.pk_set_B)|].
    pose proof (setKeys_settled _ _ BFacts.pk_set_B
                  (triggerLevelsB s order) cm Hnd) as Hset.
    apply (settled_perm _ _ _ Hperm') in Hset.
    apply Forall_cons in Hset as [Ha Hset].
    apply Forall_cons in Hset as [Hs _]. done.
  - repeat split; by vm_compute.
  - repeat split; by vm_compute.
Qed.

Lemma C8_witness :
  callsOf (VariantB.handleTriggers (withAxis 4 20000 neutral)
             [(5, "s"); (4, "a")]) VariantB.newMapper =
    omap (keyCall (VariantB.pressedKeys VariantB.newMapper))
      ((λ entry, (entry.2, Axis (withAxis 4 20000 neutral) entry.1 >? 16383))
         <$> [(5, "s"); (4, "a")]) ∧
  index (VariantB.pressedKeys
           (stateOf (VariantB.handleTriggers (withAxis 4 20000 neutral)
                       [(5, "s"); (4, "a")]) VariantB.newMapper)) "a"
    = (Axis (withAxis 4 20000 neutral) 4 >? 16383) ∧
  index (VariantB.pressedKeys
           (stateOf (VariantB.handleTriggers (withAxis 4 20000 neutral)
                       [(5, "s"); (4, "a")]) VariantB.newMapper)) "s"
    = (Axis (withAxis 4 20000 neutral) 5 >? 16383).
Proof.
  destruct C8_triggers as (_ & HB & _).
  apply HB. apply perm_swap.
Defined.

(** ** C9: start-up failures and exit status *)

Section ProcessFacts.
Context {S Tick : Type}.
Variable newMapper : S.
Variable Run : list Tick → list string → M S bool.

(** A failed start-up: the probes, two alerts, the fatal log, status 1;
    the inputs of the loop are not consulted. *)
Lemma main_fails (env : Env) (ticks : list Tick) (order : list string) :
  startUpFails env →
  main newMapper Run env ticks order tt =
  (Some 1, tt,
   (failure env).1.1 ++
   [ShowAlert (failure env).1.2;
    ShowAlert ("Failed to initialize controller mapper: " +:+ (failure env).2);
    LogFatal ("Failed to initialize controller mapper: " +:+ (failure env).2)]).
Proof.
  intros Hfail. unfold main, NewControllerMapper, failure.
  destruct (sdlInitError env) as [err|] eqn:Einit;
    [by cbv -[String.append]|].
  destruct (Z.ltb_spec (joysticks env) 1) as [Hj|Hj];
    [by cbv -[String.append]|].
  destruct (openedController env) as [name|] eqn:Eopen;
    [|by cbv -[String.append]].
  destruct Hfail as [[? ?]|[?|?]]; [congruence|lia|congruence].
Qed.

(** A successful start-up enters [Run] on the new mapper; the exit status
    is 0 once [Run] has returned. *)
Lemma main_starts (env : Env) (ticks : list Tick) (order : list string)
    (name : string) :
  sdlInitError env = None → 1 ≤ joysticks env →
  openedController env = Some name →
  main newMapper Run env ticks order tt =
  (if resultOf (Run ticks order) newMapper then Some 0 else None, tt,
   [SdlInit; NumJoysticks; GameControllerOpen;
    Printf ("Controller detected: " +:+ name);
    Printf "MGS controller mapper started."] ++
   callsOf (Run ticks order) newMapper).
Proof.
  intros Einit Hj Eopen. unfold main, NewControllerMapper.
  rewrite Einit, Eopen.
  destruct (Z.ltb_spec (joysticks env) 1) as [?|_]; [lia|].
  unfold resultOf, callsOf.
  cbv -[String.append app].
  destruct (Run ticks order newMapper) as [[[] s'] out];
    by rewrite ?app_nil_r.
Qed.

End ProcessFacts.

Lemma Run_returns_A (ticks : list VariantA.Tick) (order : list string) :
  Exists (λ t, quitSeen (VariantA.events t)) ticks →
  resultOf (VariantA.Run ticks order) VariantA.newMapper = true.
Proof.
  intros Hq. unfold resultOf. rewrite AFacts.Run_exits_A; [done|].
  by rewrite AFacts.loop_quit_A.
Qed.

Lemma Run_returns_B (ticks : list VariantB.Tick) (order : list string) :
  Exists (λ t, quitSeen (VariantB.events t)) ticks →
  resultOf (VariantB.Run ticks order) VariantB.newMapper = true.
Proof.
  intros Hq. unfold resultOf. rewrite BFacts.Run_exits_B; [done|].
  by rewrite BFacts.loop_quit_B.
Qed.

(** C9.  In both variants, when SDL fails to initialise, no joystick is
    detected or the controller cannot be opened, [main] probes SDL once,
    shows the alert of [NewControllerMapper] and its own alert (whatever
    osascript answers), logs the fatal error and exits with status 1; no
    step is repeated and the polling loop is never entered: the inputs of
    the loop play no part.  When start-up succeeds and a quit signal is
    drained, [Run] returns and the exit status is 0. *)
Theorem C9_start_up_failures_and_exit_status :
  (∀ (env : Env) (ticks : list VariantA.Tick) (order : list string),
     startUpFails env →
     VariantA.main env ticks order tt =
     (Some 1, tt,
      (failure env).1.1 ++
      [ShowAlert (failure env).1.2;
       ShowAlert
         ("Failed to initialize controller mapper: " +:+ (failure env).2);
       LogFatal
         ("Failed to initialize controller mapper: " +:+ (failure env).2)])) ∧
  (∀ (env : Env) (ticks : list VariantA.Tick) (order : list string)
     (name : string),
     sdlInitError env = None → 1 ≤ joysticks env →
     openedController env = Some name →
     Exists (λ t, quitSeen (VariantA.events t)) ticks →
     resultOf (VariantA.main env ticks order) tt = Some 0) ∧
  (∀ (env : Env) (ticks : list VariantB.Tick) (order : list string),
     startUpFails env →
     VariantB.main env ticks order tt =
     (Some 1, tt,
      (failure env).1.1 ++
      [ShowAlert (failure env).1.2;
       ShowAlert
         ("Failed to initialize controller mapper: " +:+ (failure env).2);
       LogFatal
         ("Failed to initialize controller mapper: " +:+ (failure env).2)])) ∧
  (∀ (env : Env) (ticks : list VariantB.Tick) (order : list string)
     (name : string),
     sdlInitError env = None → 1 ≤ joysticks env →
     openedController env = Some name →
     Exists (λ t, quitSeen (VariantB.events t)) ticks →
     resultOf (VariantB.main env ticks order) tt = Some 0).
Proof.
  split; [|split; [|split]].
  - intros env ticks order. apply main_fails.
  - intros env ticks order name Einit Hj Eopen Hq.
    unfold resultOf, VariantA.main.
    rewrite (main_starts _ _ env ticks order name Einit Hj Eopen). simpl.
    by rewrite Run_returns_A.
  - intros env ticks order. apply main_fails.
  - intros env ticks order name Einit Hj Eopen Hq.
    unfold resultOf, VariantB.main.
    rewrite (main_starts _ _ env ticks order name Einit Hj Eopen). simpl.
    by rewrite Run_returns_B.
Qed.

Lemma C9_witness :
  (VariantA.main noSdlEnv [passA neutral 0] [] tt =
   (Some 1, tt,
    [SdlInit;
     ShowAlert "Failed to initialize SDL: No available video device";
     ShowAlert "Failed to initialize controller mapper: failed to init SDL: No available video device";
     LogFatal "Failed to initialize controller mapper: failed to init SDL: No available video device"]) ∧
   VariantA.main noJoystickEnv [passA neutral 0] [] tt =
   (Some 1, tt,
    [SdlInit; NumJoysticks;
     ShowAlert "No game controller detected. Please connect a controller and try again.";
     ShowAlert "Failed to initialize controller mapper: no controller detected";
     LogFatal "Failed to initialize controller mapper: no controller detected"]) ∧
   VariantA.main noOpenEnv [passA neutral 0] [] tt =
   (Some 1, tt,
    [SdlInit; NumJoysticks; GameControllerOpen;
     ShowAlert "Failed to open the game controller. Please reconnect the controller and try again.";
     ShowAlert "Failed to initialize controller mapper: failed to open controller";
     LogFatal "Failed to initialize controller mapper: failed to open controller"])) ∧
  resultOf (VariantA.main goodEnv [passA neutral 0; quitA] []) tt = Some 0 ∧
  VariantB.main noJoystickEnv [passB neutral] [] tt =
  (Some 1, tt,
   [SdlInit; NumJoysticks;
    ShowAlert "No game controller detected. Please connect a controller and try again.";
    ShowAlert "Failed to initialize controller mapper: no controller detected";
    LogFatal "Failed to initialize controller mapper: no controller detected"]) ∧
  resultOf (VariantB.main goodEnv [passB neutral; quitB] []) tt = Some 0.
Proof.
  destruct C9_start_up_failures_and_exit_status as (HA & HA0 & HB & HB0).
  split; [split; [|split]|split; [|split]].
  - apply (HA noSdlEnv). left. vm_compute. eexists. reflexivity.
  - apply (HA noJoystickEnv). right. left. vm_compute. reflexivity.
  - apply (HA noOpenEnv). right. right. reflexivity.
  - apply (HA0 goodEnv _ _ "Wireless Controller").
    + reflexivity.
    + vm_compute. discriminate.
    + reflexivity.
    + apply Exists_cons_tl, Exists_cons_hd. reflexivity.
  - apply (HB noJoystickEnv). right. left. vm_compute. reflexivity.
  - apply (HB0 goodEnv _ _ "Wireless Controller").
    + reflexivity.
    + vm_compute. discriminate.
    + reflexivity.
    + apply Exists_cons_tl, Exists_cons_hd. reflexivity.
Defined.

(** ** C10: the stick claims at most one direction per axis *)

(** C10, as stated, fails on its last clause.  With D-pad left held and
    the stick pushed right, the direction block holds both "left" and
    "right" although the D-pad asserts only "left": the other key of the
    pair comes from the stick. *)
Lemma C10_counterexample :
  index (VariantB.pressedKeys
           (stateOf (VariantB.handleDirectionalInputs leftAgainstRight)
              VariantB.newMapper)) "left" = true ∧
  index (VariantB.pressedKeys
           (stateOf (VariantB.handleDirectionalInputs leftAgainstRight)
              VariantB.newMapper)) "right" = true ∧
  Button leftAgainstRight CONTROLLER_BUTTON_DPAD_LEFT = 1 ∧
  Button leftAgainstRight CONTROLLER_BUTTON_DPAD_RIGHT = 0 ∧
  hasDirection
    (VariantB.stickDirection (Axis leftAgainstRight CONTROLLER_AXIS_LEFTX)
       (Axis leftAgainstRight CONTROLLER_AXIS_LEFTY) VariantB.DIR_NONE)
    VariantB.DIR_RIGHT = true.
Proof. repeat split; by vm_compute. Qed.

(** C10, amended.  In variant B the stick block alone never sets both
    bits of an opposing pair, and after the direction block both keys of
    an opposing pair are held only if the D-pad asserts at least one of
    the two. *)
Theorem C10_stick_directions_exclusive :
  (∀ (x y : Z),
     hasDirection (VariantB.stickDirection x y VariantB.DIR_NONE)
       VariantB.DIR_LEFT &&
     hasDirection (VariantB.stickDirection x y VariantB.DIR_NONE)
       VariantB.DIR_RIGHT = false ∧
     hasDirection (VariantB.stickDirection x y VariantB.DIR_NONE)
       VariantB.DIR_UP &&
     hasDirection (VariantB.stickDirection x y VariantB.DIR_NONE)
       VariantB.DIR_DOWN = false) ∧
  (∀ (s : Snapshot) cm,
     index (VariantB.pressedKeys
              (stateOf (VariantB.handleDirectionalInputs s) cm)) "left"
       = true →
     index (VariantB.pressedKeys
              (stateOf (VariantB.handleDirectionalInputs s) cm)) "right"
       = true →
     Button s CONTROLLER_BUTTON_DPAD_LEFT = 1 ∨
     Button s CONTROLLER_BUTTON_DPAD_RIGHT = 1) ∧
  (∀ (s : Snapshot) cm,
     index (VariantB.pressedKeys
              (stateOf (VariantB.handleDirectionalInputs s) cm)) "up"
       = true →
     index (VariantB.pressedKeys
              (stateOf (VariantB.handleDirectionalInputs s) cm)) "down"
       = true →
     Button s CONTROLLER_BUTTON_DPAD_UP = 1 ∨
     Button s CONTROLLER_BUTTON_DPAD_DOWN = 1).
Proof.
  split; [|split].
  - intros x y.
    destruct (BFacts.stickDirection_bits x y VariantB.DIR_NONE)
      as (-> & -> & -> & ->).
    change (hasDirection VariantB.DIR_NONE ?b) with false. simpl.
    split; lia.
  - intros s cm.
    destruct (BFacts.handleDirectionalInputs_keys s cm)
      as (_ & _ & -> & -> & _).
    intros Hl Hr. apply orb_true_iff in Hl, Hr. lia.
  - intros s cm.
    destruct (BFacts.handleDirectionalInputs_keys s cm)
      as (-> & -> & _).
    intros Hu Hd. apply orb_true_iff in Hu, Hd. lia.
Qed.

Lemma C10_witness :
  Button leftAgainstRight CONTROLLER_BUTTON_DPAD_LEFT = 1 ∨
  Button leftAgainstRight CONTROLLER_BUTTON_DPAD_RIGHT = 1.
Proof.
  destruct C10_stick_directions_exclusive as (_ & H & _).
  apply (H leftAgainstRight VariantB.newMapper).
  - vm_compute. reflexivity.
  - vm_compute. reflexivity.
Defined.

(** * Further properties *)

(** The digital reading of the triggers is the analog reading compared
    with the threshold. *)
Lemma areTriggersPressed_getTriggerValues (s : Snapshot) :
  VariantA.areTriggersPressed s
  = ((getTriggerValues s).1 >? VariantA.TRIGGER_THRESHOLD,
     (getTriggerValues s).2 >? VariantA.TRIGGER_THRESHOLD).
Proof. reflexivity. Qed.


(** ** The emitter never sees a redundant call *)

Lemma snoc_split {A} (before after hist : list A) (e x : A) :
  before ++ e :: after = hist ++ [x] →
  (after = [] ∧ before = hist ∧ e = x) ∨
  (∃ after', after = after' ++ [x] ∧ hist = before ++ e :: after').
Proof.
  intros H. destruct after as [|a after' _] using rev_ind.
  - left. apply app_inj_tail in H as [-> ->]. done.
  - right. exists after'. rewrite app_comm_cons, app_assoc in H.
    apply app_inj_tail in H as [-> ->]. done.
Qed.

Lemma wellPaired_snoc (hist : list Event) (e : Event) :
  wellPaired hist →
  match e with
  | KeyDown k => heldAfter hist k = false
  | KeyUp k => heldAfter hist k = true
  | _ => True
  end →
  wellPaired (hist ++ [e]).
Proof.
  intros Hw He before e' after Heq. symmetry in Heq.
  apply snoc_split in Heq as [(-> & -> & ->)|(after' & -> & ->)]; [done|].
  by apply (Hw before e' after').
Qed.

Lemma pairedMirror_invariant : KeyInvariant pairedMirror.
Proof.
  split.
  - intros m hist k [Hm Hw] Hidx. split.
    + by apply (inv_insert _ mirrors_invariant).
    + apply wellPaired_snoc; [done|]. destruct Hm as [_ Hm]. by rewrite <- Hm.
  - intros m hist k [Hm Hw] Hidx. split.
    + by apply (inv_delete _ mirrors_invariant).
    + apply wellPaired_snoc; [done|]. destruct Hm as [_ Hm]. by rewrite <- Hm.
  - intros m hist e He [Hm Hw]. split.
    + by apply (inv_other _ mirrors_invariant).
    + apply wellPaired_snoc; [done|]. by destruct e.
Qed.

Lemma pairedMirror_nil : pairedMirror ∅ [].
Proof.
  split; [apply mirrors_nil|]. intros before e after H. by destruct before.
Qed.

Lemma noFalse_empty : noFalse ∅.
Proof. intros k. by rewrite lookup_empty. Qed.

(** In a well paired history the keyDowns of a key exceed its keyUps by
    one while the emitter holds it, and equal them otherwise. *)
Lemma wellPaired_balance (hist : list Event) (k : string) :
  wellPaired hist →
  keyDowns k hist =
  (keyUps k hist + if heldAfter hist k then 1 else 0)%nat.
Proof.
  induction hist as [|e hist IH] using rev_ind; intros Hw; [done|].
  assert (wellPaired hist) as Hw'.
  { intros before e' after ->. apply (Hw before e' (after ++ [e])).
    by rewrite <- app_assoc. }
  specialize (IH Hw').
  pose proof (Hw hist e [] eq_refl) as He.
  rewrite keyDowns_app, keyUps_app, heldAfter_snoc, IH.
  rewrite keyDowns_cons, keyUps_cons.
  change (keyDowns k []) with 0%nat. change (keyUps k []) with 0%nat.
  destruct e as [k'|k'| | | | | | | |]; try (repeat case_decide; try done; lia).
  - destruct (decide (k' = k)) as [->|Hne].
    + rewrite He. rewrite !decide_True by done.
      rewrite decide_False by done. lia.
    + rewrite !decide_False by congruence. lia.
  - destruct (decide (k' = k)) as [->|Hne].
    + rewrite He. rewrite decide_False by done.
      rewrite !decide_True by done. lia.
    + rewrite !decide_False by congruence. lia.
Qed.

(** In both variants, whatever operations of the engine are run on the
    mapper built at start-up, the emitter is never told keyDown for a key
    it already holds nor keyUp for a key it does not hold. *)
Theorem calls_never_redundant :
  (∀ ops : list OpA,
     wellPaired (callsOf (forEach doA ops) VariantA.newMapper)) ∧
  (∀ ops : list OpB,
     wellPaired (callsOf (forEach doB ops) VariantB.newMapper)).
Proof.
  split; intros ops.
  - apply (preserves_forEach VariantA.pressedKeys pairedMirror doA ops
             (λ op, preserves_doA pairedMirror op pairedMirror_invariant)
             VariantA.newMapper [] pairedMirror_nil).
  - apply (preserves_forEach VariantB.pressedKeys pairedMirror doB ops
             (λ op, preserves_doB pairedMirror op pairedMirror_invariant)
             VariantB.newMapper [] pairedMirror_nil).
Qed.

(** In both variants, once [Run] has returned after a quit signal, the
    emitter holds no key, and for every key it was told keyUp exactly as
    often as keyDown. *)
Theorem no_key_left_down :
  (∀ (ticks : list VariantA.Tick) (order : list string) (k : string),
     Exists (λ t, quitSeen (VariantA.events t)) ticks →
     order ≡ₚ elements (dom (VariantA.pressedKeys
                               (stateOf (VariantA.loop ticks)
                                  VariantA.newMapper))) →
     heldAfter (callsOf (VariantA.Run ticks order) VariantA.newMapper) k
       = false ∧
     keyDowns k (callsOf (VariantA.Run ticks order) VariantA.newMapper)
       = keyUps k (callsOf (VariantA.Run ticks order) VariantA.newMapper)) ∧
  (∀ (ticks : list VariantB.Tick) (order : list string) (k : string),
     Exists (λ t, quitSeen (VariantB.events t)) ticks →
     order ≡ₚ elements (dom (VariantB.pressedKeys
                               (stateOf (VariantB.loop ticks)
                                  VariantB.newMapper))) →
     heldAfter (callsOf (VariantB.Run ticks order) VariantB.newMapper) k
       = false ∧
     keyDowns k (callsOf (VariantB.Run ticks order) VariantB.newMapper)
       = keyUps k (callsOf (VariantB.Run ticks order) VariantB.newMapper)).
Proof.
  split.
  - intros ticks order k Hq Hperm.
    pose proof (AFacts.preserves_Run_A pairedMirror pairedMirror_invariant
                  ticks order VariantA.newMapper [] pairedMirror_nil)
      as [[_ Hm] Hw].
    simpl in Hm, Hw.
    assert (VariantA.pressedKeys
              (stateOf (VariantA.Run ticks order) VariantA.newMapper) = ∅)
      as Hempty.
    { assert (resultOf (VariantA.loop ticks) VariantA.newMapper
              ≠ VariantA.StillPolling) as Hexit
        by (by rewrite AFacts.loop_quit_A).
      pose proof (AFacts.preserves_loop_A _ noFalse_invariant ticks
                    VariantA.newMapper [] noFalse_empty)
        as Hnf.
      destruct (AFacts.cleanup_exec_A order _ Hnf Hperm) as (_ & _ & Hs).
      unfold stateOf at 1. by rewrite (AFacts.Run_exits_A _ _ _ Hexit). }
    assert (heldAfter (callsOf (VariantA.Run ticks order) VariantA.newMapper)
              k = false) as Hheld.
    { rewrite <- Hm, Hempty. done. }
    split; [done|]. rewrite (wellPaired_balance _ k Hw), Hheld. lia.
  - intros ticks order k Hq Hperm.
    pose proof (BFacts.preserves_Run_B pairedMirror pairedMirror_invariant
                  ticks order VariantB.newMapper [] pairedMirror_nil)
      as [[_ Hm] Hw].
    simpl in Hm, Hw.
    assert (VariantB.pressedKeys
              (stateOf (VariantB.Run ticks order) VariantB.newMapper) = ∅)
      as Hempty.
    { assert (resultOf (VariantB.loop ticks) VariantB.newMapper
              ≠ VariantB.StillPolling) as Hexit
        by (by rewrite BFacts.loop_quit_B).
      pose proof (BFacts.preserves_loop_B _ noFalse_invariant ticks
                    VariantB.newMapper [] noFalse_empty)
        as Hnf.
      destruct (BFacts.cleanup_exec_B order _ Hnf Hperm) as (_ & _ & Hs).
      unfold stateOf at 1. by rewrite (BFacts.Run_exits_B _ _ _ Hexit). }
    assert (heldAfter (callsOf (VariantB.Run ticks order) VariantB.newMapper)
              k = false) as Hheld.
    { rewrite <- Hm, Hempty. done. }
    split; [done|]. rewrite (wellPaired_balance _ k Hw), Hheld. lia.
Qed.

(** ** The polling loop *)

Lemma setKeys_keyCalls {S} (pk : S → gmap string bool)
    (setpk : gmap string bool → S → S) (ops : list (string * bool)) (s : S) :
  Forall isKeyCall (callsOf (setKeys pk setpk ops) s).
Proof.
  revert s. induction ops as [|[k b] ops IH]; intros s; [constructor|].
  rewrite setKeys_cons, callsOf_bind. apply Forall_app. split; [|apply IH].
  rewrite setKey_calls. unfold keyCall. simpl.
  destruct (Bool.eqb _ _); [constructor|].
  apply Forall_cons. split; [|constructor].
  destruct b; by eexists.
Qed.

Lemma run_eta {S A} (c : M S A) (s : S) :
  (resultOf c s, stateOf c s, callsOf c s) = c s.
Proof. unfold resultOf, stateOf, callsOf. by destruct (c s) as [[? ?] ?]. Qed.

Lemma run_proj {S A} (c : M S A) (s : S) (r : A) (s' : S) (o : list Event) :
  c s = (r, s', o) → resultOf c s = r ∧ stateOf c s = s' ∧ callsOf c s = o.
Proof. unfold resultOf, stateOf, callsOf. by intros ->. Qed.

Lemma tick_keyCalls_A (t : VariantA.Tick) cm :
  Forall isKeyCall (callsOf (VariantA.tick t) cm).
Proof.
  pose proof (AFacts.tick_exec_A t cm) as E.
  apply pair_equal_spec in E as [_ ->]. apply Forall_app. split.
  - apply setKeys_keyCalls.
  - eapply Forall_impl; [apply AFacts.handleAnalogStick_about|].
    intros e (k & Hk & _). unfold isKeyCall. by rewrite Hk.
Qed.

Lemma tick_keyCalls_B (t : VariantB.Tick) cm :
  Forall isKeyCall (callsOf (VariantB.tick t) cm).
Proof.
  pose proof (BFacts.tick_exec_B t cm) as E.
  apply pair_equal_spec in E as [_ ->]. apply setKeys_keyCalls.
Qed.

Lemma passes_keyCalls_A (ticks : list VariantA.Tick) cm :
  Forall isKeyCall (callsOf (forEach VariantA.tick ticks) cm).
Proof.
  revert cm. induction ticks as [|t ticks IH]; intros cm; [constructor|].
  simpl. rewrite callsOf_bind. apply Forall_app.
  split; [apply tick_keyCalls_A|apply IH].
Qed.

Lemma passes_keyCalls_B (ticks : list VariantB.Tick) cm :
  Forall isKeyCall (callsOf (forEach VariantB.tick ticks) cm).
Proof.
  revert cm. induction ticks as [|t ticks IH]; intros cm; [constructor|].
  simpl. rewrite callsOf_bind. apply Forall_app.
  split; [apply tick_keyCalls_B|apply IH].
Qed.

Lemma passes_running_A (ticks : list VariantA.Tick) cm :
  VariantA.running (stateOf (forEach VariantA.tick ticks) cm)
  = VariantA.running cm.
Proof.
  revert cm. induction ticks as [|t ticks IH]; intros cm; [done|].
  simpl. by rewrite stateOf_bind, IH, AFacts.tick_running_A.
Qed.

Lemma passes_running_B (ticks : list VariantB.Tick) cm :
  VariantB.running (stateOf (forEach VariantB.tick ticks) cm)
  = VariantB.running cm.
Proof.
  revert cm. induction ticks as [|t ticks IH]; intros cm; [done|].
  simpl. by rewrite stateOf_bind, IH, BFacts.tick_running_B.
Qed.

Lemma loop_head_A (ticks : list VariantA.Tick) cm :
  VariantA.running cm = true →
  VariantA.loop ticks cm =
  match ticks with
  | [] => (VariantA.StillPolling, cm, [])
  | t :: rest =>
      if existsb isQuit (VariantA.events t)
      then (VariantA.Returned, VariantA.setRunning false cm, [])
      else (VariantA.tick t ;; VariantA.loop rest) cm
  end.
Proof.
  intros Hrun. destruct ticks as [|t rest]; simpl; rewrite run_bind;
    change (resultOf get cm) with cm; change (stateOf get cm) with cm;
    change (callsOf get cm) with (@nil Event); rewrite Hrun; simpl;
    [done|].
  destruct (existsb isQuit (VariantA.events t)); [done|apply run_eta].
Qed.

Lemma loop_head_B (ticks : list VariantB.Tick) cm :
  VariantB.running cm = true →
  VariantB.loop ticks cm =
  match ticks with
  | [] => (VariantB.StillPolling, cm, [])
  | t :: rest =>
      if existsb isQuit (VariantB.events t)
      then (VariantB.Returned, VariantB.setRunning false cm, [])
      else (VariantB.tick t ;; VariantB.loop rest) cm
  end.
Proof.
  intros Hrun. destruct ticks as [|t rest]; simpl; rewrite run_bind;
    change (resultOf get cm) with cm; change (stateOf get cm) with cm;
    change (callsOf get cm) with (@nil Event); rewrite Hrun; simpl;
    [done|].
  destruct (existsb isQuit (VariantB.events t)); [done|apply run_eta].
Qed.

Lemma loop_no_quit_A (ticks : list VariantA.Tick) cm :
  VariantA.running cm = true → Forall noQuitA ticks →
  VariantA.loop ticks cm =
  (VariantA.StillPolling, stateOf (forEach VariantA.tick ticks) cm,
   callsOf (forEach VariantA.tick ticks) cm).
Proof.
  intros Hrun Hnq. revert cm Hrun.
  induction Hnq as [|t rest Hq _ IH]; intros cm Hrun;
    rewrite loop_head_A by done; [done|].
  unfold noQuitA, quitSeen in Hq.
  destruct (existsb isQuit (VariantA.events t)); [done|].
  assert (VariantA.running (stateOf (VariantA.tick t) cm) = true) as Hrun'
    by (by rewrite AFacts.tick_running_A).
  pose proof (IH _ Hrun') as E.
  destruct (run_proj _ _ _ _ _ E) as (E1 & E2 & E3).
  rewrite run_bind. cbv beta. rewrite E1, E2, E3.
  simpl. by rewrite stateOf_bind, callsOf_bind.
Qed.

Lemma loop_no_quit_B (ticks : list VariantB.Tick) cm :
  VariantB.running cm = true → Forall noQuitB ticks →
  VariantB.loop ticks cm =
  (VariantB.StillPolling, stateOf (forEach VariantB.tick ticks) cm,
   callsOf (forEach VariantB.tick ticks) cm).
Proof.
  intros Hrun Hnq. revert cm Hrun.
  induction Hnq as [|t rest Hq _ IH]; intros cm Hrun;
    rewrite loop_head_B by done; [done|].
  unfold noQuitB, quitSeen in Hq.
  destruct (existsb isQuit (VariantB.events t)); [done|].
  assert (VariantB.running (stateOf (VariantB.tick t) cm) = true) as Hrun'
    by (by rewrite BFacts.tick_running_B).
  pose proof (IH _ Hrun') as E.
  destruct (run_proj _ _ _ _ _ E) as (E1 & E2 & E3).
  rewrite run_bind. cbv beta. rewrite E1, E2, E3.
  simpl. by rewrite stateOf_bind, callsOf_bind.
Qed.

Lemma loop_until_quit_A (before rest : list VariantA.Tick)
    (q : VariantA.Tick) cm :
  VariantA.running cm = true → Forall noQuitA before →
  quitSeen (VariantA.events q) →
  VariantA.loop (before ++ q :: rest) cm =
  (VariantA.Returned,
   VariantA.setRunning false (stateOf (forEach VariantA.tick before) cm),
   callsOf (forEach VariantA.tick before) cm).
Proof.
  intros Hrun Hnq Hq. revert cm Hrun.
  induction Hnq as [|t before Ht _ IH]; intros cm Hrun; simpl app;
    rewrite loop_head_A by done.
  - unfold quitSeen in Hq. by rewrite Hq.
  - unfold noQuitA, quitSeen in Ht.
    destruct (existsb isQuit (VariantA.events t)); [done|].
    assert (VariantA.running (stateOf (VariantA.tick t) cm) = true) as Hrun'
      by (by rewrite AFacts.tick_running_A).
    pose proof (IH _ Hrun') as E.
    destruct (run_proj _ _ _ _ _ E) as (E1 & E2 & E3).
    rewrite run_bind. cbv beta. rewrite E1, E2, E3.
    simpl. by rewrite stateOf_bind, callsOf_bind.
Qed.

Lemma loop_until_quit_B (before rest : list VariantB.Tick)
    (q : VariantB.Tick) cm :
  VariantB.running cm = true → Forall noQuitB before →
  quitSeen (VariantB.events q) →
  VariantB.loop (before ++ q :: rest) cm =
  (VariantB.Returned,
   VariantB.setRunning false (stateOf (forEach VariantB.tick before) cm),
   callsOf (forEach VariantB.tick before) cm).
Proof.
  intros Hrun Hnq Hq. revert cm Hrun.
  induction Hnq as [|t before Ht _ IH]; intros cm Hrun; simpl app;
    rewrite loop_head_B by done.
  - unfold quitSeen in Hq. by rewrite Hq.
  - unfold noQuitB, quitSeen in Ht.
    destruct (existsb isQuit (VariantB.events t)); [done|].
    assert (VariantB.running (stateOf (VariantB.tick t) cm) = true) as Hrun'
      by (by rewrite BFacts.tick_running_B).
    pose proof (IH _ Hrun') as E.
    destruct (run_proj _ _ _ _ _ E) as (E1 & E2 & E3).
    rewrite run_bind. cbv beta. rewrite E1, E2, E3.
    simpl. by rewrite stateOf_bind, callsOf_bind.
Qed.

(** In both variants, as long as no pass drains a quit signal, [Run] does
    not return: it has performed the passes in turn, [running] is still
    set, and its calls are key calls only, never [controller.Close] or
    [sdl.Quit]. *)
Theorem polling_continues_without_quit :
  (∀ (ticks : list VariantA.Tick) (order : list string) cm,
     VariantA.running cm = true → Forall noQuitA ticks →
     VariantA.Run ticks order cm =
       (false, stateOf (forEach VariantA.tick ticks) cm,
        callsOf (forEach VariantA.tick ticks) cm) ∧
     VariantA.running (stateOf (VariantA.Run ticks order) cm) = true ∧
     Forall isKeyCall (callsOf (VariantA.Run ticks order) cm)) ∧
  (∀ (ticks : list VariantB.Tick) (order : list string) cm,
     VariantB.running cm = true → Forall noQuitB ticks →
     VariantB.Run ticks order cm =
       (false, stateOf (forEach VariantB.tick ticks) cm,
        callsOf (forEach VariantB.tick ticks) cm) ∧
     VariantB.running (stateOf (VariantB.Run ticks order) cm) = true ∧
     Forall isKeyCall (callsOf (VariantB.Run ticks order) cm)).
Proof.
  split.
  - intros ticks order cm Hrun Hnq.
    assert (VariantA.Run ticks order cm =
            (false, stateOf (forEach VariantA.tick ticks) cm,
             callsOf (forEach VariantA.tick ticks) cm)) as E.
    { unfold VariantA.Run. rewrite run_bind.
      destruct (run_proj _ _ _ _ _ (loop_no_quit_A ticks cm Hrun Hnq))
        as (E1 & E2 & E3).
      rewrite E1, E2, E3. simpl. by rewrite app_nil_r. }
    split; [done|].
    destruct (run_proj _ _ _ _ _ E) as (_ & -> & ->).
    split; [by rewrite passes_running_A|apply passes_keyCalls_A].
  - intros ticks order cm Hrun Hnq.
    assert (VariantB.Run ticks order cm =
            (false, stateOf (forEach VariantB.tick ticks) cm,
             callsOf (forEach VariantB.tick ticks) cm)) as E.
    { unfold VariantB.Run. rewrite run_bind.
      destruct (run_proj _ _ _ _ _ (loop_no_quit_B ticks cm Hrun Hnq))
        as (E1 & E2 & E3).
      rewrite E1, E2, E3. simpl. by rewrite app_nil_r. }
    split; [done|].
    destruct (run_proj _ _ _ _ _ E) as (_ & -> & ->).
    split; [by rewrite passes_running_B|apply passes_keyCalls_B].
Qed.

(** In both variants the first pass that drains a quit signal ends the
    loop at once: the controller is not sampled on that pass, the inputs
    that follow are never read, [running] is cleared, and the clean-up
    runs on the state left by the passes before it. *)
Theorem quit_ends_the_loop :
  (∀ (before rest : list VariantA.Tick) (q : VariantA.Tick)
     (order : list string) cm,
     VariantA.running cm = true → Forall noQuitA before →
     quitSeen (VariantA.events q) →
     VariantA.Run (before ++ q :: rest) order cm =
     (true,
      stateOf (VariantA.cleanup order)
        (VariantA.setRunning false
           (stateOf (forEach VariantA.tick before) cm)),
      callsOf (forEach VariantA.tick before) cm ++
      callsOf (VariantA.cleanup order)
        (VariantA.setRunning false
           (stateOf (forEach VariantA.tick before) cm)))) ∧
  (∀ (before rest : list VariantB.Tick) (q : VariantB.Tick)
     (order : list string) cm,
     VariantB.running cm = true → Forall noQuitB before →
     quitSeen (VariantB.events q) →
     VariantB.Run (before ++ q :: rest) order cm =
     (true,
      stateOf (VariantB.cleanup order)
        (VariantB.setRunning false
           (stateOf (forEach VariantB.tick before) cm)),
      callsOf (forEach VariantB.tick before) cm ++
      callsOf (VariantB.cleanup order)
        (VariantB.setRunning false
           (stateOf (forEach VariantB.tick before) cm)))).
Proof.
  split.
  - intros before rest q order cm Hrun Hnq Hq.
    destruct (run_proj _ _ _ _ _
                (loop_until_quit_A before rest q cm Hrun Hnq Hq))
      as (E1 & E2 & E3).
    rewrite AFacts.Run_exits_A by (by rewrite E1).
    by rewrite E2, E3.
  - intros before rest q order cm Hrun Hnq Hq.
    destruct (run_proj _ _ _ _ _
                (loop_until_quit_B before rest q cm Hrun Hnq Hq))
      as (E1 & E2 & E3).
    rewrite BFacts.Run_exits_B by (by rewrite E1).
    by rewrite E2, E3.
Qed.

(** ** Level-triggered updates, key by key *)

Section KeysFacts3.
Context {S : Type}.
Variable pk : S → gmap string bool.
Variable setpk : gmap string bool → S → S.
Hypothesis pk_set : ∀ m s, pk (setpk m s) = m.
Hypothesis set_pk : ∀ s, setpk (pk s) s = s.
Hypothesis set_set : ∀ m m' s, setpk m (setpk m' s) = setpk m s.

Lemma setKey_lookup_ne (key : string) (b : bool) (s : S) (k : string) :
  key ≠ k → pk (stateOf (setKey pk setpk key b) s) !! k = pk s !! k.
Proof using pk_set.
  intros Hne. rewrite setKey_state. destruct (Bool.eqb _ _); [done|].
  rewrite pk_set. destruct b.
  - by rewrite lookup_insert_ne.
  - by rewrite lookup_delete_ne.
Qed.

Lemma setKey_lookup_eq (key : string) (b : bool) (s : S) :
  pk (stateOf (setKey pk setpk key b) s) !! key =
  if b then Some true
  else if index (pk s) key then None else pk s !! key.
Proof using pk_set.
  rewrite setKey_state. destruct (Bool.eqb (index (pk s) key) b) eqn:E.
  - apply Bool.eqb_prop in E. subst b. unfold index.
    destruct (pk s !! key) as [[]|]; done.
  - rewrite pk_set. destruct b.
    + by rewrite lookup_insert_eq.
    + rewrite lookup_delete_eq. by destruct (index (pk s) key).
Qed.

Lemma setKeys_lookup_notin (ops : list (string * bool)) (s : S) (k : string) :
  k ∉ ops.*1 → pk (stateOf (setKeys pk setpk ops) s) !! k = pk s !! k.
Proof using pk_set.
  revert s. induction ops as [|[key b] ops IH]; intros s Hk; [done|].
  simpl in Hk. apply not_elem_of_cons in Hk as [Hne Hk].
  rewrite setKeys_cons, stateOf_bind, IH by done.
  by apply setKey_lookup_ne.
Qed.

Lemma setKeys_lookup_in (ops : list (string * bool)) (s : S) (k : string)
    (b : bool) :
  NoDup ops.*1 → (k, b) ∈ ops →
  pk (stateOf (setKeys pk setpk ops) s) !! k =
  if b then Some true
  else if index (pk s) k then None else pk s !! k.
Proof using pk_set.
  revert s. induction ops as [|[key b'] ops IH]; intros s Hnd Hin.
  { by apply elem_of_nil in Hin. }
  simpl in Hnd. apply NoDup_cons in Hnd as [Hnotin Hnd].
  rewrite setKeys_cons, stateOf_bind.
  apply elem_of_cons in Hin as [[= -> ->]|Hin].
  - rewrite setKeys_lookup_notin by done. apply setKey_lookup_eq.
  - assert (key ≠ k) as Hne.
    { intros ->. apply Hnotin. by apply (list_elem_of_fmap_2 fst) in Hin. }
    rewrite (IH _ Hnd Hin). unfold index.
    by rewrite !setKey_lookup_ne.
Qed.

(** The state after the updates differs from the initial one in the key
    map only. *)
Lemma setKeys_state_form (ops : list (string * bool)) (s : S) :
  stateOf (setKeys pk setpk ops) s =
  setpk (pk (stateOf (setKeys pk setpk ops) s)) s.
Proof using pk_set set_pk set_set.
  revert s. induction ops as [|[key b] ops IH]; intros s.
  { by rewrite set_pk. }
  rewrite setKeys_cons, stateOf_bind.
  set (s1 := stateOf (setKey pk setpk key b) s).
  assert (s1 = setpk (pk s1) s) as E1.
  { unfold s1. rewrite setKey_state. destruct (Bool.eqb _ _).
    - by rewrite set_pk.
    - by rewrite pk_set. }
  rewrite IH at 1. rewrite E1 at 2. by rewrite set_set.
Qed.

(** Updates of distinct keys commute: visiting them in another order
    gives the same state and the same calls in another order. *)
Lemma setKeys_perm (ops ops' : list (string * bool)) (s : S) :
  NoDup ops.*1 → ops ≡ₚ ops' →
  stateOf (setKeys pk setpk ops) s = stateOf (setKeys pk setpk ops') s ∧
  callsOf (setKeys pk setpk ops) s ≡ₚ callsOf (setKeys pk setpk ops') s.
Proof using pk_set set_pk set_set.
  intros Hnd Hperm.
  assert (NoDup ops'.*1) as Hnd' by (by rewrite <- Hperm).
  split.
  - rewrite (setKeys_state_form ops), (setKeys_state_form ops'). f_equal.
    apply map_eq. intros k.
    destruct (decide (k ∈ ops.*1)) as [Hin|Hout].
    + apply list_elem_of_fmap in Hin as ([k' b] & -> & Hin). simpl.
      rewrite (setKeys_lookup_in ops s k' b Hnd Hin).
      rewrite (setKeys_lookup_in ops' s k' b Hnd'); [done|].
      by rewrite <- Hperm.
    + rewrite !setKeys_lookup_notin; [done| |done]. by rewrite <- Hperm.
  - rewrite !setKeys_calls by done. by rewrite Hperm.
Qed.

(** The calls of a sequence of updates of distinct keys, counted per key:
    one keyDown when the key is driven to held and was not, one keyUp when
    it is driven to released and was held, nothing else. *)
Lemma setKeys_counts (ops : list (string * bool)) (s : S) (k : string)
    (b : bool) :
  NoDup ops.*1 → (k, b) ∈ ops →
  keyDowns k (callsOf (setKeys pk setpk ops) s)
    = (if b && negb (index (pk s) k) then 1 else 0)%nat ∧
  keyUps k (callsOf (setKeys pk setpk ops) s)
    = (if negb b && index (pk s) k then 1 else 0)%nat.
Proof using pk_set.
  intros Hnd Hin. rewrite setKeys_calls by done.
  rewrite keyDowns_keyCall, keyUps_keyCall by done.
  assert (∀ b', bool_decide ((k, b') ∈ ops) = bool_decide (b' = b)) as Hdec.
  { intros b'. apply bool_decide_ext. split; [|by intros ->].
    intros Hin'. destruct (decide (b' = b)) as [|Hne]; [done|]. exfalso.
    clear -Hnd Hin Hin' Hne. induction ops as [|[k0 b0] ops IH].
    { by apply elem_of_nil in Hin. }
    simpl in Hnd. apply NoDup_cons in Hnd as [Hnotin Hnd].
    apply elem_of_cons in Hin as [[= <- <-]|Hin],
      Hin' as [[= ?]|Hin']; try done.
    - apply Hnotin. by apply (list_elem_of_fmap_2 fst) in Hin'.
    - subst. apply Hnotin. by apply (list_elem_of_fmap_2 fst) in Hin.
    - by apply IH. }
  rewrite !Hdec. by destruct b.
Qed.

(** Every call of a sequence of updates is about one of its keys. *)
Lemma setKeys_about (ops : list (string * bool)) (s : S) :
  Forall (aboutKeys ops.*1) (callsOf (setKeys pk setpk ops) s).
Proof.
  revert s. induction ops as [|[k b] ops IH]; intros s; [constructor|].
  rewrite setKeys_cons, callsOf_bind. apply Forall_app. split.
  - rewrite setKey_calls. unfold keyCall. simpl.
    destruct (Bool.eqb _ _); [constructor|].
    apply Forall_cons. split; [|constructor].
    exists k. split; [by destruct b|apply list_elem_of_here].
  - eapply Forall_impl; [apply IH|].
    intros e (k' & Hk & Hin). exists k'. split; [done|].
    by apply list_elem_of_further.
Qed.

End KeysFacts3.

(** ** Variant B, pass by pass *)

Lemma set_pk_B (cm : VariantB.ControllerMapper) :
  VariantB.setPressedKeys (VariantB.pressedKeys cm) cm = cm.
Proof. by destruct cm. Qed.

Lemma set_set_B (m m' : gmap string bool) (cm : VariantB.ControllerMapper) :
  VariantB.setPressedKeys m (VariantB.setPressedKeys m' cm)
  = VariantB.setPressedKeys m cm.
Proof. reflexivity. Qed.

Lemma levelsB_table_keys (s : Snapshot) : (levelsB s VariantB.buttonKeyMap
  VariantB.triggerKeyMap).*1 = tableKeysB.
Proof. reflexivity. Qed.

Lemma levelsB_keys_perm (s : Snapshot) (order torder : list (Z * string)) :
  order ≡ₚ VariantB.buttonKeyMap → torder ≡ₚ VariantB.triggerKeyMap →
  (levelsB s order torder).*1 ≡ₚ tableKeysB.
Proof.
  intros H1 H2. by rewrite (BFacts.levelsB_perm s order torder H1 H2).
Qed.

(** Variant B is level-triggered: whatever the state before a pass, after
    it every key of [buttonKeyMap] is held exactly when its button reads
    1, every key of [triggerKeyMap] exactly when its axis is above 16383,
    every direction key exactly when its D-pad button reads 1 or the
    stick is beyond the dead zone on its side, and the mask of the
    snapshot is stored. *)
Theorem pass_mirrors_controller_B (t : VariantB.Tick) cm :
  wellOrderedB t →
  (∀ (button : Z) (key : string),
     (button, key) ∈ VariantB.buttonKeyMap →
     index (VariantB.pressedKeys (stateOf (VariantB.tick t) cm)) key
     = (Button (VariantB.snap t) button =? 1)) ∧
  (∀ (axis : Z) (key : string),
     (axis, key) ∈ VariantB.triggerKeyMap →
     index (VariantB.pressedKeys (stateOf (VariantB.tick t) cm)) key
     = (Axis (VariantB.snap t) axis >? 16383)) ∧
  index (VariantB.pressedKeys (stateOf (VariantB.tick t) cm)) "up"
    = (Button (VariantB.snap t) CONTROLLER_BUTTON_DPAD_UP =? 1)
      || (Axis (VariantB.snap t) CONTROLLER_AXIS_LEFTY <? - 8000) ∧
  index (VariantB.pressedKeys (stateOf (VariantB.tick t) cm)) "down"
    = (Button (VariantB.snap t) CONTROLLER_BUTTON_DPAD_DOWN =? 1)
      || (8000 <? Axis (VariantB.snap t) CONTROLLER_AXIS_LEFTY) ∧
  index (VariantB.pressedKeys (stateOf (VariantB.tick t) cm)) "left"
    = (Button (VariantB.snap t) CONTROLLER_BUTTON_DPAD_LEFT =? 1)
      || (Axis (VariantB.snap t) CONTROLLER_AXIS_LEFTX <? - 8000) ∧
  index (VariantB.pressedKeys (stateOf (VariantB.tick t) cm)) "right"
    = (Button (VariantB.snap t) CONTROLLER_BUTTON_DPAD_RIGHT =? 1)
      || (8000 <? Axis (VariantB.snap t) CONTROLLER_AXIS_LEFTX) ∧
  VariantB.currentDirection (stateOf (VariantB.tick t) cm)
    = directionOf (VariantB.snap t).
Proof.
  intros [Hb Ht].
  destruct (BFacts.tick_settles t cm Hb Ht) as [Hset Hdir].
  destruct (BFacts.tick_directions t cm Hb Ht) as (Hu & Hd & Hl & Hr).
  unfold settled, levelsB in Hset. rewrite !Forall_app in Hset.
  destruct Hset as (_ & Hbs & Hts). rewrite Forall_forall in Hbs, Hts.
  repeat split; try done.
  - intros button key Hin.
    apply (Hbs (key, Button (VariantB.snap t) button =? 1)).
    unfold buttonLevels.
    by apply (list_elem_of_fmap_2
      (λ entry : Z * string,
         (entry.2, Button (VariantB.snap t) entry.1 =? 1)) _ (button, key)).
  - intros axis key Hin.
    apply (Hts (key, Axis (VariantB.snap t) axis >? 16383)).
    unfold triggerLevelsB.
    by apply (list_elem_of_fmap_2
      (λ entry : Z * string,
         (entry.2, Axis (VariantB.snap t) entry.1
                   >? VariantB.triggerThreshold)) _ (axis, key)).
Qed.

(** Variant B is edge-triggered towards the emitter: in one pass, for a
    key of its tables driven to the level [b], there is exactly one
    keyDown when [b] is true and the key was not held, exactly one keyUp
    when [b] is false and the key was held, and no call about the key
    otherwise. *)
Theorem pass_calls_on_edges_B (t : VariantB.Tick) cm (k : string) (b : bool) :
  wellOrderedB t →
  (k, b) ∈ levelsB (VariantB.snap t) VariantB.buttonKeyMap
             VariantB.triggerKeyMap →
  keyDowns k (callsOf (VariantB.tick t) cm)
    = (if b && negb (index (VariantB.pressedKeys cm) k) then 1 else 0)%nat ∧
  keyUps k (callsOf (VariantB.tick t) cm)
    = (if negb b && index (VariantB.pressedKeys cm) k then 1 else 0)%nat.
Proof.
  intros [Hb Ht] Hin.
  pose proof (BFacts.tick_exec_B t cm) as E.
  apply pair_equal_spec in E as [_ ->].
  apply (setKeys_counts _ _ BFacts.pk_set_B).
  - by apply BFacts.levelsB_NoDup.
  - by rewrite (BFacts.levelsB_perm _ _ _ Hb Ht).
Qed.

(** Variant B never touches a key outside its tables: a pass leaves the
    entry of such a key as it was and makes no call about it; so, from the
    mapper built at start-up, only keys of the tables are ever held. *)
Theorem pass_keeps_to_its_tables_B :
  (∀ (t : VariantB.Tick) cm (k : string),
     wellOrderedB t → k ∉ tableKeysB →
     VariantB.pressedKeys (stateOf (VariantB.tick t) cm) !! k
       = VariantB.pressedKeys cm !! k ∧
     Forall (λ e, eventKey e ≠ Some k) (callsOf (VariantB.tick t) cm)) ∧
  (∀ (ticks : list VariantB.Tick) (k : string),
     Forall wellOrderedB ticks →
     is_Some (VariantB.pressedKeys
                (stateOf (forEach VariantB.tick ticks) VariantB.newMapper)
              !! k) →
     k ∈ tableKeysB).
Proof.
  assert (∀ (t : VariantB.Tick) cm (k : string),
     wellOrderedB t → k ∉ tableKeysB →
     VariantB.pressedKeys (stateOf (VariantB.tick t) cm) !! k
       = VariantB.pressedKeys cm !! k ∧
     Forall (λ e, eventKey e ≠ Some k) (callsOf (VariantB.tick t) cm)) as H1.
  { intros t cm k [Hb Ht] Hk.
    pose proof (BFacts.tick_exec_B t cm) as E.
    apply pair_equal_spec in E as [-> ->]. simpl.
    assert (k ∉ (levelsB (VariantB.snap t) (VariantB.buttonOrder t)
                   (VariantB.triggerOrder t)).*1) as Hk'
      by (by rewrite (levelsB_keys_perm _ _ _ Hb Ht)).
    split.
    - by apply (setKeys_lookup_notin _ _ BFacts.pk_set_B).
    - eapply Forall_impl; [apply setKeys_about|].
      intros e (k' & He & Hin) Hek. congruence. }
  split; [exact H1|].
  intros ticks k. induction ticks as [|t ticks IH] using rev_ind; intros Hord.
  { simpl. rewrite lookup_empty. by intros [? ?]. }
  apply Forall_app in Hord as [Hord Ht]. apply Forall_cons in Ht as [Ht _].
  specialize (IH Hord).
  rewrite stateOf_forEach_app, stateOf_forEach_single. intros Hsome.
  destruct (decide (k ∈ tableKeysB)) as [|Hout]; [done|].
  apply IH. by rewrite <- (proj1 (H1 t _ k Ht Hout)).
Qed.

(** In variant B the order in which [range] visits the button and trigger
    tables does not matter to the outcome of a pass: the state after the
    pass is the same, and the calls are the same up to their order. *)
Theorem visiting_order_is_immaterial_B (t1 t2 : VariantB.Tick) cm :
  VariantB.snap t2 = VariantB.snap t1 →
  wellOrderedB t1 → wellOrderedB t2 →
  stateOf (VariantB.tick t1) cm = stateOf (VariantB.tick t2) cm ∧
  callsOf (VariantB.tick t1) cm ≡ₚ callsOf (VariantB.tick t2) cm.
Proof.
  intros Hs [Hb1 Ht1] [Hb2 Ht2].
  pose proof (BFacts.tick_exec_B t1 cm) as E1.
  pose proof (BFacts.tick_exec_B t2 cm) as E2.
  apply pair_equal_spec in E1 as [-> ->], E2 as [-> ->]. rewrite Hs.
  destruct (setKeys_perm _ _ BFacts.pk_set_B set_pk_B set_set_B
    (levelsB (VariantB.snap t1) (VariantB.buttonOrder t1)
       (VariantB.triggerOrder t1))
    (levelsB (VariantB.snap t1) (VariantB.buttonOrder t2)
       (VariantB.triggerOrder t2)) cm) as [-> Hc].
  - by apply BFacts.levelsB_NoDup.
  - rewrite (BFacts.levelsB_perm _ _ _ Hb1 Ht1).
    by rewrite (BFacts.levelsB_perm _ _ _ Hb2 Ht2).
  - done.
Qed.

(** In variant B the direction mask only uses its four low bits, and the
    mask stored by an earlier pass is never read: a pass gives the same
    state and the same calls whatever mask the mapper held. *)
Theorem direction_mask_is_write_only_B :
  (∀ s : Snapshot, 0 ≤ directionOf s ≤ 15) ∧
  (∀ (t : VariantB.Tick) (d : Z) cm,
     exec (VariantB.tick t) (VariantB.setCurrentDirection d cm)
     = exec (VariantB.tick t) cm).
Proof.
  split.
  - intros s. unfold directionOf, VariantB.stickDirection,
      VariantB.dpadDirection.
    repeat match goal with
           | |- context [if ?b then _ else _] => destruct b
           end; by vm_compute.
  - intros t d cm. rewrite !BFacts.tick_exec_B.
    pose proof (setKeys_commute VariantB.pressedKeys VariantB.setPressedKeys
      (VariantB.setCurrentDirection d)
      (levelsB (VariantB.snap t) (VariantB.buttonOrder t)
         (VariantB.triggerOrder t)) cm) as E.
    apply pair_equal_spec in E as [-> ->]; done.
Qed.

(** ** Variant A, pass by pass *)

Lemma set_pk_A (cm : VariantA.ControllerMapper) :
  VariantA.setPressedKeys (VariantA.pressedKeys cm) cm = cm.
Proof. by destruct cm. Qed.

Lemma set_set_A (m m' : gmap string bool) (cm : VariantA.ControllerMapper) :
  VariantA.setPressedKeys m (VariantA.setPressedKeys m' cm)
  = VariantA.setPressedKeys m cm.
Proof. reflexivity. Qed.

Lemma directionKeys_cases (d : string) :
  d ∈ directionKeys ↔ d = "up" ∨ d = "down" ∨ d = "left" ∨ d = "right".
Proof.
  unfold directionKeys. rewrite !elem_of_cons, elem_of_nil. tauto.
Qed.

(** What the handler of one direction does to the repeat state of the
    others, and to the delays: nothing. *)
Lemma handleAnalogDirection_frame now d a cm :
  d ∈ directionKeys →
  VariantA.initialDelay (stateOf (VariantA.handleAnalogDirection now d a) cm)
    = VariantA.initialDelay cm ∧
  VariantA.repeatDelay (stateOf (VariantA.handleAnalogDirection now d a) cm)
    = VariantA.repeatDelay cm ∧
  ∀ d', d' ≠ d →
    VariantA.lastAnalogPress
      (stateOf (VariantA.handleAnalogDirection now d a) cm) !! d'
    = VariantA.lastAnalogPress cm !! d'.
Proof.
  intros Hd.
  assert (∀ v, VariantA.initialDelay
            (stateOf (setKey VariantA.pressedKeys VariantA.setPressedKeys d v)
               cm) = VariantA.initialDelay cm) as Hi
    by (intros; by apply setKey_frame).
  assert (∀ v, VariantA.repeatDelay
            (stateOf (setKey VariantA.pressedKeys VariantA.setPressedKeys d v)
               cm) = VariantA.repeatDelay cm) as Hr
    by (intros; by apply setKey_frame).
  destruct a, (index (VariantA.analogState cm) d) eqn:E.
  - destruct (Z_lt_ge_dec
      (timeSub now (default zeroTime (VariantA.lastAnalogPress cm !! d)))
      (VariantA.initialDelay cm)) as [Hlt|Hge].
    + pose proof (AFacts.handleAnalogDirection_wait now d cm E Hlt) as Ex.
      apply pair_equal_spec in Ex as [-> _]. done.
    + pose proof (AFacts.handleAnalogDirection_repeat now d cm Hd E) as Ex.
      apply pair_equal_spec in Ex as [-> _]; [|lia]. simpl.
      repeat split. intros d' Hne. by rewrite lookup_insert_ne.
  - pose proof (AFacts.handleAnalogDirection_first now d cm Hd E) as Ex.
    apply pair_equal_spec in Ex as [-> _]. simpl.
    split; [apply (Hi true)|]. split; [apply (Hr true)|].
    intros d' Hne. by rewrite lookup_insert_ne.
  - pose proof (AFacts.handleAnalogDirection_release now d cm Hd E) as Ex.
    apply pair_equal_spec in Ex as [-> _]. simpl.
    split; [apply (Hi false)|]. split; [apply (Hr false)|].
    intros d' Hne. by rewrite lookup_delete_ne.
  - pose proof (AFacts.handleAnalogDirection_idle now d cm E) as Ex.
    apply pair_equal_spec in Ex as [-> _]. done.
Qed.

(** The recorded instant of the handled direction: present after an
    active call, absent after an inactive one, provided it was present
    exactly when the direction was marked. *)
Lemma handleAnalogDirection_stamp now d a cm :
  d ∈ directionKeys →
  (is_Some (VariantA.lastAnalogPress cm !! d)
   ↔ index (VariantA.analogState cm) d = true) →
  (is_Some (VariantA.lastAnalogPress
              (stateOf (VariantA.handleAnalogDirection now d a) cm) !! d)
   ↔ a = true).
Proof.
  intros Hd Hok.
  destruct a, (index (VariantA.analogState cm) d) eqn:E.
  - destruct (Z_lt_ge_dec
      (timeSub now (default zeroTime (VariantA.lastAnalogPress cm !! d)))
      (VariantA.initialDelay cm)) as [Hlt|Hge].
    + pose proof (AFacts.handleAnalogDirection_wait now d cm E Hlt) as Ex.
      apply pair_equal_spec in Ex as [-> _]. tauto.
    + pose proof (AFacts.handleAnalogDirection_repeat now d cm Hd E) as Ex.
      apply pair_equal_spec in Ex as [-> _]; [|lia]. simpl.
      rewrite lookup_insert_eq. split; [done|by eexists].
  - pose proof (AFacts.handleAnalogDirection_first now d cm Hd E) as Ex.
    apply pair_equal_spec in Ex as [-> _]. simpl.
    rewrite lookup_insert_eq. split; [done|by eexists].
  - pose proof (AFacts.handleAnalogDirection_release now d cm Hd E) as Ex.
    apply pair_equal_spec in Ex as [-> _]. simpl.
    rewrite lookup_delete_eq. split; [by intros [? ?]|done].
  - pose proof (AFacts.handleAnalogDirection_idle now d cm E) as Ex.
    apply pair_equal_spec in Ex as [-> _].
    split; [|done]. intros H%Hok. done.
Qed.

Lemma handleAnalogDirection_ok now d a cm :
  d ∈ directionKeys → repeatStateOk cm →
  repeatStateOk (stateOf (VariantA.handleAnalogDirection now d a) cm).
Proof.
  intros Hd (Hst & Hmk & Hi & Hr).
  destruct (handleAnalogDirection_frame now d a cm Hd) as (Fi & Fr & Fl).
  repeat split.
  - rewrite AFacts.handleAnalogDirection_mark by done.
    destruct (decide (d = d0)) as [<-|Hne].
    + by apply handleAnalogDirection_stamp.
    + rewrite Fl by done. apply Hst.
  - rewrite AFacts.handleAnalogDirection_mark by done.
    destruct (decide (d = d0)) as [<-|Hne].
    + by apply handleAnalogDirection_stamp.
    + rewrite Fl by done. apply Hst.
  - intros d'. rewrite AFacts.handleAnalogDirection_mark by done.
    case_decide; [by subst|apply Hmk].
  - by rewrite Fi.
  - by rewrite Fr.
Qed.

Lemma handleAnalogStick_ok clk x y cm :
  repeatStateOk cm →
  repeatStateOk (stateOf (VariantA.handleAnalogStick clk x y) cm).
Proof.
  intros Hok. unfold VariantA.handleAnalogStick. rewrite !stateOf_bind.
  repeat apply handleAnalogDirection_ok; try done;
    apply directionKeys_cases; auto.
Qed.

Lemma tick_ok_A (t : VariantA.Tick) cm :
  repeatStateOk cm → repeatStateOk (stateOf (VariantA.tick t) cm).
Proof.
  intros Hok. pose proof (AFacts.tick_exec_A t cm) as E.
  apply pair_equal_spec in E as [-> _].
  apply handleAnalogStick_ok.
  destruct Hok as (Hst & Hmk & Hi & Hr).
  unfold repeatStateOk.
  rewrite !(setKeys_frame VariantA.pressedKeys VariantA.setPressedKeys
              VariantA.analogState) by done.
  rewrite !(setKeys_frame VariantA.pressedKeys VariantA.setPressedKeys
              VariantA.lastAnalogPress) by done.
  rewrite !(setKeys_frame VariantA.pressedKeys VariantA.setPressedKeys
              VariantA.initialDelay) by done.
  rewrite !(setKeys_frame VariantA.pressedKeys VariantA.setPressedKeys
              VariantA.repeatDelay) by done.
  done.
Qed.

(** In variant A, after any sequence of passes from the mapper built at
    start-up, a direction has a recorded press instant exactly when it is
    marked active (so the zero time is never read for a marked
    direction), only the four directions are ever marked, and the delays
    are still 500 ms and 50 ms. *)
Theorem repeat_state_stays_consistent (ticks : list VariantA.Tick) :
  repeatStateOk (stateOf (forEach VariantA.tick ticks) VariantA.newMapper).
Proof.
  induction ticks as [|t ticks IH] using rev_ind.
  - split; [|split; [|split]]; try done.
    intros d. split; [|done]. intros [x H].
    change ((∅ : gmap string Z) !! d = Some x) in H.
    by rewrite lookup_empty in H.
  - rewrite stateOf_forEach_app, stateOf_forEach_single. by apply tick_ok_A.
Qed.

Lemma levelsA_table_keys (s : Snapshot) :
  (levelsA s VariantA.buttonMap).*1 = tableKeysA.
Proof. reflexivity. Qed.

Lemma directionKeys_in_tableA (d : string) :
  d ∈ directionKeys → d ∈ tableKeysA.
Proof.
  intros [->|[->|[->| ->]]]%directionKeys_cases;
    apply (bool_decide_unpack _); by vm_compute.
Qed.

Lemma handleAnalogDirection_lookup now d a cm (k : string) :
  d ∈ directionKeys → k ≠ d →
  VariantA.pressedKeys
    (stateOf (VariantA.handleAnalogDirection now d a) cm) !! k
  = VariantA.pressedKeys cm !! k.
Proof.
  intros Hd Hk.
  destruct (AFacts.handleAnalogDirection_cases now d a cm Hd)
    as [E|[(las & ast & E)|[(las & ast & E)|(las & E)]]];
    apply (f_equal fst) in E; simpl in E; rewrite E; simpl.
  - done.
  - change (VariantA.pressKey d)
      with (setKey VariantA.pressedKeys VariantA.setPressedKeys d true).
    by rewrite (setKey_lookup_ne _ _ AFacts.pk_set_A).
  - change (VariantA.releaseKey d)
      with (setKey VariantA.pressedKeys VariantA.setPressedKeys d false).
    by rewrite (setKey_lookup_ne _ _ AFacts.pk_set_A).
  - by rewrite lookup_insert_ne.
Qed.

Lemma handleAnalogStick_lookup clk x y cm (k : string) :
  k ∉ directionKeys →
  VariantA.pressedKeys (stateOf (VariantA.handleAnalogStick clk x y) cm) !! k
  = VariantA.pressedKeys cm !! k.
Proof.
  intros Hk. unfold VariantA.handleAnalogStick. rewrite !stateOf_bind.
  rewrite !handleAnalogDirection_lookup; try done;
    try (apply directionKeys_cases; by auto);
    intros ->; apply Hk; apply directionKeys_cases; auto.
Qed.

(** In variant A, whatever the state before a pass, after it every key of
    buttons 0 to 10 is held exactly when its button reads 1, and "a" and
    "s" exactly when their trigger axis is above 16383.  The direction
    keys follow their D-pad buttons in the same way when the stick rests
    in the dead zone and no direction is marked active. *)
Theorem pass_mirrors_buttons_A (t : VariantA.Tick) cm :
  wellOrderedA t →
  (∀ (button : Z) (key : string),
     (button, key) ∈ VariantA.buttonMap → key ∉ directionKeys →
     index (VariantA.pressedKeys (stateOf (VariantA.tick t) cm)) key
     = (Button (VariantA.snap t) button =? 1)) ∧
  index (VariantA.pressedKeys (stateOf (VariantA.tick t) cm)) "a"
    = (Axis (VariantA.snap t) 4 >? 16383) ∧
  index (VariantA.pressedKeys (stateOf (VariantA.tick t) cm)) "s"
    = (Axis (VariantA.snap t) 5 >? 16383) ∧
  (stickCentred (VariantA.snap t) →
   (∀ d, d ∈ directionKeys → index (VariantA.analogState cm) d = false) →
   ∀ (button : Z) (key : string),
     (button, key) ∈ VariantA.buttonMap →
     index (VariantA.pressedKeys (stateOf (VariantA.tick t) cm)) key
     = (Button (VariantA.snap t) button =? 1)).
Proof.
  intros Hperm. pose proof (AFacts.tick_othersSettled t cm Hperm) as Hset.
  assert (∀ (button : Z) (key : string),
            (button, key) ∈ VariantA.buttonMap →
            (key, Button (VariantA.snap t) button =? 1)
            ∈ levelsA (VariantA.snap t) VariantA.buttonMap) as Hin.
  { intros button key H. unfold levelsA. apply elem_of_app. left.
    by apply (list_elem_of_fmap_2
      (λ entry : Z * string,
         (entry.2, Button (VariantA.snap t) entry.1 =? 1)) _ (button, key)). }
  split; [|split; [|split]].
  - intros button key H Hnd. by apply (Hset _ (Hin _ _ H)).
  - apply (Hset ("a", Axis (VariantA.snap t) 4 >? 16383)).
    + unfold levelsA. apply elem_of_app. right. apply list_elem_of_here.
    + intros H%directionKeys_cases. by destruct H as [?|[?|[?|?]]].
  - apply (Hset ("s", Axis (VariantA.snap t) 5 >? 16383)).
    + unfold levelsA. apply elem_of_app. right.
      apply list_elem_of_further, list_elem_of_here.
    + intros H%directionKeys_cases. by destruct H as [?|[?|[?|?]]].
  - intros Hrest Hidle button key H.
    destruct (AFacts.tick_rest_settles t cm Hrest Hidle Hperm) as [_ Hs].
    unfold settled in Hs. rewrite Forall_forall in Hs.
    apply (Hs _ (Hin _ _ H)).
Qed.

(** Variant A never touches a key outside its tables: a pass leaves the
    entry of such a key as it was and makes no call about it; so, from the
    mapper built at start-up, only keys of the tables are ever held. *)
Theorem pass_keeps_to_its_tables_A :
  (∀ (t : VariantA.Tick) cm (k : string),
     wellOrderedA t → k ∉ tableKeysA →
     VariantA.pressedKeys (stateOf (VariantA.tick t) cm) !! k
       = VariantA.pressedKeys cm !! k ∧
     Forall (λ e, eventKey e ≠ Some k) (callsOf (VariantA.tick t) cm)) ∧
  (∀ (ticks : list VariantA.Tick) (k : string),
     Forall wellOrderedA ticks →
     is_Some (VariantA.pressedKeys
                (stateOf (forEach VariantA.tick ticks) VariantA.newMapper)
              !! k) →
     k ∈ tableKeysA).
Proof.
  assert (∀ (t : VariantA.Tick) cm (k : string),
     wellOrderedA t → k ∉ tableKeysA →
     VariantA.pressedKeys (stateOf (VariantA.tick t) cm) !! k
       = VariantA.pressedKeys cm !! k ∧
     Forall (λ e, eventKey e ≠ Some k) (callsOf (VariantA.tick t) cm)) as H1.
  { intros t cm k Hb Hk.
    assert (k ∉ directionKeys) as Hkd
      by (intros H; by apply Hk, directionKeys_in_tableA).
    pose proof (AFacts.tick_exec_A t cm) as E.
    apply pair_equal_spec in E as [-> ->].
    assert (k ∉ (levelsA (VariantA.snap t) (VariantA.buttonOrder t)).*1)
      as Hk'.
    { rewrite (AFacts.levelsA_perm _ _ Hb). by rewrite levelsA_table_keys. }
    split.
    - rewrite handleAnalogStick_lookup by done.
      by apply (setKeys_lookup_notin _ _ AFacts.pk_set_A).
    - apply Forall_app. split.
      + eapply Forall_impl; [apply setKeys_about|].
        intros e (k' & He & Hin) Hek. congruence.
      + eapply Forall_impl; [apply AFacts.handleAnalogStick_about|].
        intros e (k' & He & Hin) Hek. congruence. }
  split; [exact H1|].
  intros ticks k. induction ticks as [|t ticks IH] using rev_ind; intros Hord.
  { simpl. rewrite lookup_empty. by intros [? ?]. }
  apply Forall_app in Hord as [Hord Ht]. apply Forall_cons in Ht as [Ht _].
  specialize (IH Hord).
  rewrite stateOf_forEach_app, stateOf_forEach_single. intros Hsome.
  destruct (decide (k ∈ tableKeysA)) as [|Hout]; [done|].
  apply IH. by rewrite <- (proj1 (H1 t _ k Ht Hout)).
Qed.

(** In variant A the order in which [range] visits [buttonMap] does not
    matter to the outcome of a pass: with the same snapshot and clock the
    state after the pass is the same, and the calls are the same up to
    their order. *)
Theorem visiting_order_is_immaterial_A (t1 t2 : VariantA.Tick) cm :
  VariantA.snap t2 = VariantA.snap t1 →
  VariantA.clock t2 = VariantA.clock t1 →
  wellOrderedA t1 → wellOrderedA t2 →
  stateOf (VariantA.tick t1) cm = stateOf (VariantA.tick t2) cm ∧
  callsOf (VariantA.tick t1) cm ≡ₚ callsOf (VariantA.tick t2) cm.
Proof.
  intros Hs Hc Hb1 Hb2.
  pose proof (AFacts.tick_exec_A t1 cm) as E1.
  pose proof (AFacts.tick_exec_A t2 cm) as E2.
  apply pair_equal_spec in E1 as [-> ->], E2 as [-> ->]. rewrite Hs, Hc.
  destruct (setKeys_perm _ _ AFacts.pk_set_A set_pk_A set_set_A
    (levelsA (VariantA.snap t1) (VariantA.buttonOrder t1))
    (levelsA (VariantA.snap t1) (VariantA.buttonOrder t2)) cm) as [-> Hp].
  - by apply AFacts.levelsA_NoDup.
  - rewrite (AFacts.levelsA_perm _ _ Hb1).
    by rewrite (AFacts.levelsA_perm _ _ Hb2).
  - split; [done|]. by rewrite Hp.
Qed.

(** *** The direction keys of variant A *)

Lemma repeatDue_frame now d a cm (n : Z) (d' : string) :
  d ∈ directionKeys → d' ≠ d →
  repeatDue (stateOf (VariantA.handleAnalogDirection now d a) cm) n d'
  = repeatDue cm n d'.
Proof.
  intros Hd Hne.
  destruct (handleAnalogDirection_frame now d a cm Hd) as (Fi & _ & Fl).
  unfold repeatDue. by rewrite Fi, Fl.
Qed.

(** The key of the handled direction after its handler ran. *)
Lemma handleAnalogDirection_key now d a cm :
  d ∈ directionKeys →
  index (VariantA.pressedKeys
           (stateOf (VariantA.handleAnalogDirection now d a) cm)) d
  = heldAtEndA (index (VariantA.pressedKeys cm) d) a
      (index (VariantA.analogState cm) d) (repeatDue cm now d).
Proof.
  intros Hd. unfold heldAtEndA, repeatDue.
  destruct a, (index (VariantA.analogState cm) d) eqn:E; simpl.
  - destruct (Z.geb_spec
      (timeSub now (default zeroTime (VariantA.lastAnalogPress cm !! d)))
      (VariantA.initialDelay cm)) as [Hge|Hlt].
    + pose proof (AFacts.handleAnalogDirection_repeat now d cm Hd E Hge) as Ex.
      apply pair_equal_spec in Ex as [-> _]. simpl.
      rewrite index_insert, decide_True by done. by rewrite orb_true_r.
    + pose proof (AFacts.handleAnalogDirection_wait now d cm E Hlt) as Ex.
      apply pair_equal_spec in Ex as [-> _]. by rewrite !orb_false_r.
  - pose proof (AFacts.handleAnalogDirection_first now d cm Hd E) as Ex.
    apply pair_equal_spec in Ex as [-> _]. simpl.
    change (VariantA.pressKey d)
      with (setKey VariantA.pressedKeys VariantA.setPressedKeys d true).
    rewrite (setKey_index _ _ AFacts.pk_set_A), decide_True by done.
    by rewrite orb_true_r.
  - pose proof (AFacts.handleAnalogDirection_release now d cm Hd E) as Ex.
    apply pair_equal_spec in Ex as [-> _]. simpl.
    change (VariantA.releaseKey d)
      with (setKey VariantA.pressedKeys VariantA.setPressedKeys d false).
    rewrite (setKey_index _ _ AFacts.pk_set_A), decide_True by done.
    by rewrite andb_false_r.
  - pose proof (AFacts.handleAnalogDirection_idle now d cm E) as Ex.
    apply pair_equal_spec in Ex as [-> _]. by rewrite andb_true_r.
Qed.

Lemma handleAnalogStick_keys clk x y cm :
  index (VariantA.pressedKeys
           (stateOf (VariantA.handleAnalogStick clk x y) cm)) "right"
    = heldAtEndA (index (VariantA.pressedKeys cm) "right") (x >? 8000)
        (index (VariantA.analogState cm) "right")
        (repeatDue cm (VariantA.nowRight clk) "right") ∧
  index (VariantA.pressedKeys
           (stateOf (VariantA.handleAnalogStick clk x y) cm)) "left"
    = heldAtEndA (index (VariantA.pressedKeys cm) "left") (x <? - 8000)
        (index (VariantA.analogState cm) "left")
        (repeatDue cm (VariantA.nowLeft clk) "left") ∧
  index (VariantA.pressedKeys
           (stateOf (VariantA.handleAnalogStick clk x y) cm)) "down"
    = heldAtEndA (index (VariantA.pressedKeys cm) "down") (y >? 8000)
        (index (VariantA.analogState cm) "down")
        (repeatDue cm (VariantA.nowDown clk) "down") ∧
  index (VariantA.pressedKeys
           (stateOf (VariantA.handleAnalogStick clk x y) cm)) "up"
    = heldAtEndA (index (VariantA.pressedKeys cm) "up") (y <? - 8000)
        (index (VariantA.analogState cm) "up")
        (repeatDue cm (VariantA.nowUp clk) "up").
Proof.
  assert (∀ d, d = "up" ∨ d = "down" ∨ d = "left" ∨ d = "right" →
            d ∈ directionKeys) as Hin
    by (intros d; apply directionKeys_cases).
  unfold VariantA.handleAnalogStick. rewrite !stateOf_bind.
  repeat split;
    rewrite ?AFacts.handleAnalogDirection_index by (auto || done);
    rewrite handleAnalogDirection_key by auto;
    rewrite ?AFacts.handleAnalogDirection_index by (auto || done);
    rewrite ?AFacts.handleAnalogDirection_mark by auto;
    rewrite ?repeatDue_frame by (auto || done);
    repeat (rewrite decide_False by done); done.
Qed.

(** In variant A, whether a direction key is held at the end of a pass.
    With the stick beyond the dead zone on that side, the key is held if
    the D-pad button reads 1, or the direction was not yet marked active
    (the handler presses it), or a repeat is due (the handler re-pulses
    it); with the stick inside the dead zone, it is held if the D-pad
    button reads 1 and the direction was not marked active (otherwise the
    handler releases it).  In particular a direction held by the stick
    alone is not held at the end of a pass that neither starts it nor
    repeats it. *)
Theorem direction_keys_after_a_pass_A (t : VariantA.Tick) cm :
  wellOrderedA t →
  index (VariantA.pressedKeys (stateOf (VariantA.tick t) cm)) "up"
    = heldAtEndA (Button (VariantA.snap t) CONTROLLER_BUTTON_DPAD_UP =? 1)
        (Axis (VariantA.snap t) CONTROLLER_AXIS_LEFTY <? - 8000)
        (index (VariantA.analogState cm) "up")
        (repeatDue cm (VariantA.nowUp (VariantA.clock t)) "up") ∧
  index (VariantA.pressedKeys (stateOf (VariantA.tick t) cm)) "down"
    = heldAtEndA (Button (VariantA.snap t) CONTROLLER_BUTTON_DPAD_DOWN =? 1)
        (Axis (VariantA.snap t) CONTROLLER_AXIS_LEFTY >? 8000)
        (index (VariantA.analogState cm) "down")
        (repeatDue cm (VariantA.nowDown (VariantA.clock t)) "down") ∧
  index (VariantA.pressedKeys (stateOf (VariantA.tick t) cm)) "left"
    = heldAtEndA (Button (VariantA.snap t) CONTROLLER_BUTTON_DPAD_LEFT =? 1)
        (Axis (VariantA.snap t) CONTROLLER_AXIS_LEFTX <? - 8000)
        (index (VariantA.analogState cm) "left")
        (repeatDue cm (VariantA.nowLeft (VariantA.clock t)) "left") ∧
  index (VariantA.pressedKeys (stateOf (VariantA.tick t) cm)) "right"
    = heldAtEndA (Button (VariantA.snap t) CONTROLLER_BUTTON_DPAD_RIGHT =? 1)
        (Axis (VariantA.snap t) CONTROLLER_AXIS_LEFTX >? 8000)
        (index (VariantA.analogState cm) "right")
        (repeatDue cm (VariantA.nowRight (VariantA.clock t)) "right").
Proof.
  intros Hperm. pose proof (AFacts.tick_exec_A t cm) as E.
  apply pair_equal_spec in E as [-> _].
  set (s' := stateOf (setKeys VariantA.pressedKeys VariantA.setPressedKeys
                        (levelsA (VariantA.snap t) (VariantA.buttonOrder t)))
               cm).
  assert (VariantA.analogState s' = VariantA.analogState cm) as Has
    by (by apply setKeys_frame).
  assert (∀ n d, repeatDue s' n d = repeatDue cm n d) as Hdue.
  { intros n d. unfold repeatDue, s'.
    rewrite (setKeys_frame _ _ VariantA.lastAnalogPress) by done.
    by rewrite (setKeys_frame _ _ VariantA.initialDelay) by done. }
  assert (∀ (button : Z) (key : string),
            (button, key) ∈ VariantA.buttonMap →
            index (VariantA.pressedKeys s') key
            = (Button (VariantA.snap t) button =? 1)) as Hlvl.
  { intros button key Hin.
    apply (setKeys_index_in _ _ AFacts.pk_set_A _ cm
             (key, Button (VariantA.snap t) button =? 1)).
    - by apply AFacts.levelsA_NoDup.
    - rewrite (AFacts.levelsA_perm _ _ Hperm). unfold levelsA.
      apply elem_of_app. left.
      by apply (list_elem_of_fmap_2
        (λ entry : Z * string,
           (entry.2, Button (VariantA.snap t) entry.1 =? 1)) _
        (button, key)). }
  clearbody s'.
  assert (index (VariantA.pressedKeys s') "up"
          = (Button (VariantA.snap t) CONTROLLER_BUTTON_DPAD_UP =? 1)) as Lu.
  { apply Hlvl. do 11 apply list_elem_of_further. apply list_elem_of_here. }
  assert (index (VariantA.pressedKeys s') "down"
          = (Button (VariantA.snap t) CONTROLLER_BUTTON_DPAD_DOWN =? 1)) as Ld.
  { apply Hlvl. do 12 apply list_elem_of_further. apply list_elem_of_here. }
  assert (index (VariantA.pressedKeys s') "left"
          = (Button (VariantA.snap t) CONTROLLER_BUTTON_DPAD_LEFT =? 1)) as Ll.
  { apply Hlvl. do 13 apply list_elem_of_further. apply list_elem_of_here. }
  assert (index (VariantA.pressedKeys s') "right"
          = (Button (VariantA.snap t) CONTROLLER_BUTTON_DPAD_RIGHT =? 1))
    as Lr.
  { apply Hlvl. do 14 apply list_elem_of_further. apply list_elem_of_here. }
  destruct (handleAnalogStick_keys (VariantA.clock t)
              (Axis (VariantA.snap t) CONTROLLER_AXIS_LEFTX)
              (Axis (VariantA.snap t) CONTROLLER_AXIS_LEFTY) s')
    as (Hr & Hl & Hd & Hu).
  rewrite Hr, Hl, Hd, Hu, Has, !Hdue, Lu, Ld, Ll, Lr.
  done.
Qed.

(** Calls that are all about the keys [ks] hold no call about another
    key. *)
Lemma about_others_keyDowns (ks : list string) (calls : list Event)
    (k : string) :
  Forall (aboutKeys ks) calls → k ∉ ks → keyDowns k calls = 0%nat.
Proof.
  intros Hab Hk. induction Hab as [|e l (k' & He & Hin') _ IH]; [done|].
  rewrite keyDowns_cons, IH. rewrite decide_False; [done|].
  intros ->. simpl in He. congruence.
Qed.

Lemma about_others_keyUps (ks : list string) (calls : list Event)
    (k : string) :
  Forall (aboutKeys ks) calls → k ∉ ks → keyUps k calls = 0%nat.
Proof.
  intros Hab Hk. induction Hab as [|e l (k' & He & Hin') _ IH]; [done|].
  rewrite keyUps_cons, IH. rewrite decide_False; [done|].
  intros ->. simpl in He. congruence.
Qed.

(** In variant A a pass is edge-triggered towards the emitter for the
    keys of buttons 0 to 10 and of the triggers: for such a key driven to
    the level [b] there is exactly one keyDown when [b] is true and the
    key was not held, exactly one keyUp when [b] is false and the key was
    held, and no call about the key otherwise. *)
Theorem pass_calls_on_edges_A (t : VariantA.Tick) cm (k : string) (b : bool) :
  wellOrderedA t →
  (k, b) ∈ levelsA (VariantA.snap t) VariantA.buttonMap →
  k ∉ directionKeys →
  keyDowns k (callsOf (VariantA.tick t) cm)
    = (if b && negb (index (VariantA.pressedKeys cm) k) then 1 else 0)%nat ∧
  keyUps k (callsOf (VariantA.tick t) cm)
    = (if negb b && index (VariantA.pressedKeys cm) k then 1 else 0)%nat.
Proof.
  intros Hb Hin Hk.
  pose proof (AFacts.tick_exec_A t cm) as E.
  apply pair_equal_spec in E as [_ ->].
  rewrite keyDowns_app, keyUps_app.
  destruct (setKeys_counts _ _ AFacts.pk_set_A
              (levelsA (VariantA.snap t) (VariantA.buttonOrder t)) cm k b)
    as [-> ->].
  - by apply AFacts.levelsA_NoDup.
  - by rewrite (AFacts.levelsA_perm _ _ Hb).
  - pose proof (AFacts.handleAnalogStick_about (VariantA.clock t)
      (Axis (VariantA.snap t) CONTROLLER_AXIS_LEFTX)
      (Axis (VariantA.snap t) CONTROLLER_AXIS_LEFTY)
      (stateOf (setKeys VariantA.pressedKeys VariantA.setPressedKeys
                  (levelsA (VariantA.snap t) (VariantA.buttonOrder t))) cm))
      as Hab.
    rewrite (about_others_keyDowns _ _ _ Hab Hk).
    rewrite (about_others_keyUps _ _ _ Hab Hk).
    split; lia.
Qed.

(** ** A failed start-up *)

(** In both variants a failed start-up makes no key call and never calls
    [controller.Close] or [sdl.Quit] (SDL stays initialised when the
    failure comes after [sdl.Init]); the probes stop at the first failure:
    the joysticks are not counted when [sdl.Init] failed, and no
    controller is opened unless one was counted. *)
Theorem failed_start_up_is_not_cleaned_up :
  (∀ (env : Env) (ticks : list VariantA.Tick) (order : list string),
     startUpFails env →
     Forall (λ e, eventKey e = None ∧ e ≠ ControllerClose ∧ e ≠ SdlQuit)
       (callsOf (VariantA.main env ticks order) tt) ∧
     (is_Some (sdlInitError env) →
      NumJoysticks ∉ callsOf (VariantA.main env ticks order) tt) ∧
     (is_Some (sdlInitError env) ∨ joysticks env < 1 →
      GameControllerOpen ∉ callsOf (VariantA.main env ticks order) tt)) ∧
  (∀ (env : Env) (ticks : list VariantB.Tick) (order : list string),
     startUpFails env →
     Forall (λ e, eventKey e = None ∧ e ≠ ControllerClose ∧ e ≠ SdlQuit)
       (callsOf (VariantB.main env ticks order) tt) ∧
     (is_Some (sdlInitError env) →
      NumJoysticks ∉ callsOf (VariantB.main env ticks order) tt) ∧
     (is_Some (sdlInitError env) ∨ joysticks env < 1 →
      GameControllerOpen ∉ callsOf (VariantB.main env ticks order) tt)).
Proof.
  assert (∀ env calls,
    calls = (failure env).1.1 ++
      [ShowAlert (failure env).1.2;
       ShowAlert
         ("Failed to initialize controller mapper: " +:+ (failure env).2);
       LogFatal
         ("Failed to initialize controller mapper: " +:+ (failure env).2)] →
    Forall (λ e, eventKey e = None ∧ e ≠ ControllerClose ∧ e ≠ SdlQuit)
      calls ∧
    (is_Some (sdlInitError env) → NumJoysticks ∉ calls) ∧
    (is_Some (sdlInitError env) ∨ joysticks env < 1 →
     GameControllerOpen ∉ calls)) as Hgen.
  { intros env calls ->. unfold failure.
    destruct (sdlInitError env) as [err|] eqn:Einit; simpl.
    - split; [repeat constructor; done|].
      split; intros _; rewrite !elem_of_cons, elem_of_nil;
        intros H; repeat destruct H as [H|H]; done.
    - destruct (Z.ltb_spec (joysticks env) 1) as [Hj|Hj]; simpl.
      + split; [repeat constructor; done|].
        split; [by intros [? ?]|]. intros _.
        rewrite !elem_of_cons, elem_of_nil.
        intros H; repeat destruct H as [H|H]; done.
      + split; [repeat constructor; done|].
        split; [by intros [? ?]|]. intros [[? ?]|?]; [done|lia]. }
  split; intros env ticks order Hfail; apply Hgen; unfold callsOf.
  - unfold VariantA.main. by rewrite (main_fails _ _ env ticks order Hfail).
  - unfold VariantB.main. by rewrite (main_fails _ _ env ticks order Hfail).
Qed.

(** * Variant A: one direction, pass by pass *)

(** ** The calls about one key *)








Lemma keyUps_callsAbout (k : string) (l : list Event) :
  keyUps k (callsAbout k l) = keyUps k l.
Proof.
  induction l as [|e l IH]; [done|].
  unfold callsAbout in *. rewrite filter_cons, keyUps_cons.
  case_decide as He.
  - by rewrite keyUps_cons, IH.
  - rewrite IH. rewrite decide_False; [done|]. by intros ->.
Qed.

(** ** The handler of one direction *)










(** ** One pass, seen from one direction *)



(** ** A held direction from pass to pass *)






(** ** Identical snapshots, direction by direction *)




Lemma aboutKeys_silent (ks : list string) (calls : list Event) :
  Forall (aboutKeys ks) calls →
  (∀ k, k ∈ ks → callsAbout k calls = []) → calls = [].
Proof.
  intros Hab Hnone. destruct calls as [|e calls]; [done|]. exfalso.
  apply Forall_cons in Hab as [(k & Hk & Hin) _].
  specialize (Hnone k Hin). unfold callsAbout in Hnone.
  by rewrite filter_cons, decide_True in Hnone.
Qed.












(** The start condition on the marks cannot be dropped.  After a pass
    with the stick pushed left, two passes with the stick at rest and the
    D-pad holding left: the first releases the key (the handler lets go),
    the second presses it again (the button loop), and only the third is
    silent. *)
Lemma marks_at_start_matter :
  ¬ marksWithin padLeft
      (stateOf (VariantA.tick (passA stickLeft 0)) VariantA.newMapper) ∧
  callsOf (VariantA.tick (passA padLeft (10 * Millisecond)))
    (stateOf (VariantA.tick (passA stickLeft 0)) VariantA.newMapper)
  = [KeyUp "left"] ∧
  callsOf (forEach VariantA.tick
             [passA padLeft (20 * Millisecond);
              passA padLeft (30 * Millisecond)])
    (stateOf (VariantA.tick (passA padLeft (10 * Millisecond)))
       (stateOf (VariantA.tick (passA stickLeft 0)) VariantA.newMapper))
  = [KeyDown "left"].
Proof.
  split; [|split; by vm_compute].
  intros H. specialize (H "left").
  assert ("left" ∈ directionKeys) as Hd
    by (apply (bool_decide_unpack _); vm_compute; exact I).
  specialize (H Hd eq_refl). vm_compute in H. discriminate H.
Qed.

(** ** C1: idempotence over identical snapshots, amended *)



(** ** Polling every 10 ms *)







(** ** C3: repeat timing of variant A, amended *)



(** ** Letting go of the stick and pushing again *)



(** ** Instances of the further properties *)

(** Cross held, then a quit signal: the shift key is up at the end, in
    both variants. *)
Lemma no_key_left_down_witness :
  (heldAfter
     (callsOf (VariantA.Run [passA (withButton 0 neutral) 0; quitA] ["shift"])
        VariantA.newMapper) "shift" = false ∧
   keyDowns "shift"
     (callsOf (VariantA.Run [passA (withButton 0 neutral) 0; quitA] ["shift"])
        VariantA.newMapper)
   = keyUps "shift"
       (callsOf (VariantA.Run [passA (withButton 0 neutral) 0; quitA]
                   ["shift"]) VariantA.newMapper)) ∧
  (heldAfter
     (callsOf (VariantB.Run [passB (withButton 0 neutral); quitB] ["shift"])
        VariantB.newMapper) "shift" = false ∧
   keyDowns "shift"
     (callsOf (VariantB.Run [passB (withButton 0 neutral); quitB] ["shift"])
        VariantB.newMapper)
   = keyUps "shift"
       (callsOf (VariantB.Run [passB (withButton 0 neutral); quitB]
                   ["shift"]) VariantB.newMapper)).
Proof.
  destruct no_key_left_down as (HA & HB).
  split.
  - apply HA.
    + apply Exists_cons_tl, Exists_cons_hd. reflexivity.
    + vm_compute. reflexivity.
  - apply HB.
    + apply Exists_cons_tl, Exists_cons_hd. reflexivity.
    + vm_compute. reflexivity.
Defined.

(** Two passes without a quit signal leave both variants polling. *)
Lemma polling_continues_without_quit_witness :
  VariantA.running
    (stateOf (VariantA.Run [passA (withButton 0 neutral) 0; passA neutral 1]
                ["shift"]) VariantA.newMapper) = true ∧
  VariantB.running
    (stateOf (VariantB.Run [passB (withButton 0 neutral); passB neutral]
                ["shift"]) VariantB.newMapper) = true.
Proof.
  destruct polling_continues_without_quit as (HA & HB).
  split.
  - apply HA; [reflexivity|].
    repeat constructor; vm_compute; discriminate.
  - apply HB; [reflexivity|].
    repeat constructor; vm_compute; discriminate.
Defined.

(** A pass that follows the quit signal is never run. *)
Lemma quit_ends_the_loop_witness :
  VariantA.Run ([passA (withButton 0 neutral) 0] ++
                quitA :: [passA (withButton 1 neutral) 1]) ["shift"]
    VariantA.newMapper
  = (true,
     stateOf (VariantA.cleanup ["shift"])
       (VariantA.setRunning false
          (stateOf (forEach VariantA.tick [passA (withButton 0 neutral) 0])
             VariantA.newMapper)),
     callsOf (forEach VariantA.tick [passA (withButton 0 neutral) 0])
       VariantA.newMapper ++
     callsOf (VariantA.cleanup ["shift"])
       (VariantA.setRunning false
          (stateOf (forEach VariantA.tick [passA (withButton 0 neutral) 0])
             VariantA.newMapper))) ∧
  VariantB.Run ([passB (withButton 0 neutral)] ++
                quitB :: [passB (withButton 1 neutral)]) ["shift"]
    VariantB.newMapper
  = (true,
     stateOf (VariantB.cleanup ["shift"])
       (VariantB.setRunning false
          (stateOf (forEach VariantB.tick [passB (withButton 0 neutral)])
             VariantB.newMapper)),
     callsOf (forEach VariantB.tick [passB (withButton 0 neutral)])
       VariantB.newMapper ++
     callsOf (VariantB.cleanup ["shift"])
       (VariantB.setRunning false
          (stateOf (forEach VariantB.tick [passB (withButton 0 neutral)])
             VariantB.newMapper))).
Proof.
  destruct quit_ends_the_loop as (HA & HB).
  split.
  - apply HA; [reflexivity| |reflexivity].
    repeat constructor; vm_compute; discriminate.
  - apply HB; [reflexivity| |reflexivity].
    repeat constructor; vm_compute; discriminate.
Defined.

(** Cross and circle held with the left trigger pulled: after one pass of
    variant B the shift key is held. *)
Lemma pass_mirrors_controller_B_witness :
  index (VariantB.pressedKeys
           (stateOf (VariantB.tick (passB twoButtons)) VariantB.newMapper))
    "shift"
  = (Button (VariantB.snap (passB twoButtons)) 0 =? 1).
Proof.
  destruct (pass_mirrors_controller_B (passB twoButtons) VariantB.newMapper)
    as (Hb & _).
  - split; reflexivity.
  - apply Hb. apply list_elem_of_here.
Defined.

(** The first pass with cross held sends one keyDown for shift and no
    keyUp. *)
Lemma pass_calls_on_edges_B_witness :
  keyDowns "shift"
    (callsOf (VariantB.tick (passB twoButtons)) VariantB.newMapper)
  = (if true && negb (index (VariantB.pressedKeys VariantB.newMapper) "shift")
     then 1 else 0)%nat ∧
  keyUps "shift"
    (callsOf (VariantB.tick (passB twoButtons)) VariantB.newMapper)
  = (if negb true && index (VariantB.pressedKeys VariantB.newMapper) "shift"
     then 1 else 0)%nat.
Proof.
  apply (pass_calls_on_edges_B (passB twoButtons) VariantB.newMapper
           "shift" true).
  - split; reflexivity.
  - apply (bool_decide_unpack _). vm_compute. exact I.
Defined.

(** The key "enter" is in no table of variant B: a pass leaves it alone. *)
Lemma pass_keeps_to_its_tables_B_witness :
  VariantB.pressedKeys
    (stateOf (VariantB.tick (passB twoButtons)) VariantB.newMapper) !! "enter"
  = VariantB.pressedKeys VariantB.newMapper !! "enter" ∧
  Forall (λ e, eventKey e ≠ Some "enter")
    (callsOf (VariantB.tick (passB twoButtons)) VariantB.newMapper).
Proof.
  destruct pass_keeps_to_its_tables_B as (H & _).
  apply H.
  - split; reflexivity.
  - apply (bool_decide_unpack ("enter" ∉ tableKeysB)). vm_compute. exact I.
Defined.

(** Visiting the triggers right before left changes nothing but the
    order of the calls. *)
Lemma visiting_order_is_immaterial_B_witness :
  stateOf (VariantB.tick (passB twoButtons)) VariantB.newMapper
  = stateOf (VariantB.tick (passB' twoButtons)) VariantB.newMapper ∧
  callsOf (VariantB.tick (passB twoButtons)) VariantB.newMapper
  ≡ₚ callsOf (VariantB.tick (passB' twoButtons)) VariantB.newMapper.
Proof.
  apply (visiting_order_is_immaterial_B (passB twoButtons)
           (passB' twoButtons) VariantB.newMapper).
  - reflexivity.
  - split; reflexivity.
  - split; [reflexivity|apply perm_swap].
Defined.

(** Cross held with the left trigger pulled: after one pass of variant A
    the shift key is held. *)
Lemma pass_mirrors_buttons_A_witness :
  index (VariantA.pressedKeys
           (stateOf (VariantA.tick (passA twoButtons 0)) VariantA.newMapper))
    "shift"
  = (Button (VariantA.snap (passA twoButtons 0)) 0 =? 1).
Proof.
  destruct (pass_mirrors_buttons_A (passA twoButtons 0) VariantA.newMapper)
    as (Hb & _).
  - unfold wellOrderedA. reflexivity.
  - apply Hb; [apply list_elem_of_here|].
    apply (bool_decide_unpack ("shift" ∉ directionKeys)). vm_compute. exact I.
Defined.

(** The first pass of variant A with cross held sends one keyDown for
    shift and no keyUp. *)
Lemma pass_calls_on_edges_A_witness :
  keyDowns "shift"
    (callsOf (VariantA.tick (passA twoButtons 0)) VariantA.newMapper)
  = (if true && negb (index (VariantA.pressedKeys VariantA.newMapper) "shift")
     then 1 else 0)%nat ∧
  keyUps "shift"
    (callsOf (VariantA.tick (passA twoButtons 0)) VariantA.newMapper)
  = (if negb true && index (VariantA.pressedKeys VariantA.newMapper) "shift"
     then 1 else 0)%nat.
Proof.
  apply (pass_calls_on_edges_A (passA twoButtons 0) VariantA.newMapper
           "shift" true).
  - unfold wellOrderedA. reflexivity.
  - apply (bool_decide_unpack _). vm_compute. exact I.
  - apply (bool_decide_unpack ("shift" ∉ directionKeys)). vm_compute. exact I.
Defined.

(** The key "enter" is in no table of variant A: a pass leaves it alone. *)
Lemma pass_keeps_to_its_tables_A_witness :
  VariantA.pressedKeys
    (stateOf (VariantA.tick (passA twoButtons 0)) VariantA.newMapper) !! "enter"
  = VariantA.pressedKeys VariantA.newMapper !! "enter" ∧
  Forall (λ e, eventKey e ≠ Some "enter")
    (callsOf (VariantA.tick (passA twoButtons 0)) VariantA.newMapper).
Proof.
  destruct pass_keeps_to_its_tables_A as (H & _).
  apply H.
  - unfold wellOrderedA. reflexivity.
  - apply (bool_decide_unpack ("enter" ∉ tableKeysA)). vm_compute. exact I.
Defined.

(** Visiting circle before cross changes nothing but the order of the
    calls. *)
Lemma visiting_order_is_immaterial_A_witness :
  stateOf (VariantA.tick (passA twoButtons 0)) VariantA.newMapper
  = stateOf (VariantA.tick (passA' twoButtons 0)) VariantA.newMapper ∧
  callsOf (VariantA.tick (passA twoButtons 0)) VariantA.newMapper
  ≡ₚ callsOf (VariantA.tick (passA' twoButtons 0)) VariantA.newMapper.
Proof.
  apply (visiting_order_is_immaterial_A (passA twoButtons 0)
           (passA' twoButtons 0) VariantA.newMapper).
  - reflexivity.
  - reflexivity.
  - unfold wellOrderedA. reflexivity.
  - apply perm_swap.
Defined.

(** D-pad left held and stick pushed left, from the start: the first pass
    ends with the left key held. *)
Lemma direction_keys_after_a_pass_A_witness :
  index (VariantA.pressedKeys
           (stateOf (VariantA.tick (passA bothLeft 0)) VariantA.newMapper))
    "left"
  = heldAtEndA
      (Button (VariantA.snap (passA bothLeft 0)) CONTROLLER_BUTTON_DPAD_LEFT
       =? 1)
      (Axis (VariantA.snap (passA bothLeft 0)) CONTROLLER_AXIS_LEFTX
       <? - 8000)
      (index (VariantA.analogState VariantA.newMapper) "left")
      (repeatDue VariantA.newMapper
         (VariantA.nowLeft (VariantA.clock (passA bothLeft 0))) "left").
Proof.
  destruct (direction_keys_after_a_pass_A (passA bothLeft 0)
              VariantA.newMapper) as (_ & _ & H & _).
  - unfold wellOrderedA. reflexivity.
  - exact H.
Defined.

(** With no joystick attached, start-up fails without opening a
    controller, in both variants. *)
Lemma failed_start_up_is_not_cleaned_up_witness :
  (GameControllerOpen
     ∉ callsOf (VariantA.main noJoystickEnv [passA neutral 0] []) tt) ∧
  (GameControllerOpen
     ∉ callsOf (VariantB.main noJoystickEnv [passB neutral] []) tt).
Proof.
  destruct failed_start_up_is_not_cleaned_up as (HA & HB).
  split.
  - destruct (HA noJoystickEnv [passA neutral 0] []) as (_ & _ & H).
    + right. left. vm_compute. reflexivity.
    + apply H. right. vm_compute. reflexivity.
  - destruct (HB noJoystickEnv [passB neutral] []) as (_ & _ & H).
    + right. left. vm_compute. reflexivity.
    + apply H. right. vm_compute. reflexivity.
Defined.
